(** * teuvo: a Self-Organizing Map (nbs/00_core.ipynb)

    Shallow embedding of the [SOM] class, of [Scheduler] and of
    [exp_sched], and the properties of the training and evaluation
    engine proved about them.

    Numbers.  The program computes with NumPy and Python floats.  They are
    modelled by [num]: a real number, plus or minus infinity, or NaN, with
    the IEEE-754 rules for the special values.  Arithmetic on finite
    values is exact: rounding is not modelled, and a finite result never
    overflows or underflows.  A property that the program loses when a
    double overflows (to an infinity, or to [OverflowError] for a Python
    float) or underflows (to zero) is stated under a hypothesis on the
    magnitudes involved (section Magnitudes), and says "in exact
    arithmetic" where rounding alone separates it from the program.
    Zeros carry no sign; the only divisions whose divisor can be zero
    ([2*sigma**2] and the integer [n_steps]) have a zero of positive sign.

    Errors.  A Python exception is a value of [exn]; a call that may raise
    returns a [result].

    State.  Methods of [SOM] run in the monad [M] over the object: a call
    returns its result (or the exception) together with the object as the
    call leaves it.

    Outside the repository.  The random generator, scikit-learn's PCA and
    the selection order of [np.argpartition] are inputs of the model,
    gathered in [Env].

    Layout.  The embedding comes first (numbers, exceptions, [Scheduler],
    arrays, collaborators, [SOM]), then the vocabulary of the statements
    and the concrete maps used as examples, then the properties. *)

From Stdlib Require Import String.
From Stdlib Require Import Reals Lra Lia ZArith Bool Arith List Permutation Sorted.
Import ListNotations.

Set Implicit Arguments.

(* ================================================================== *)
(** * Numbers *)
(* ================================================================== *)

Inductive num : Type :=
| Fin (r : R)
| PInf
| NInf
| NaN.

Definition isnan (a : num) : bool :=
  match a with NaN => true | _ => false end.

Definition Rltb (x y : R) : bool := if Rlt_dec x y then true else false.
Definition Rleb (x y : R) : bool := if Rle_dec x y then true else false.
Definition Reqb (x y : R) : bool := if Req_dec_T x y then true else false.

(** The infinity of the sign of [r]; NaN when [r] is zero (0/0, inf*0). *)
Definition inf_of_sign (r : R) : num :=
  if Rltb 0 r then PInf else if Rltb r 0 then NInf else NaN.

Definition nneg (a : num) : num :=
  match a with
  | Fin r => Fin (- r)
  | PInf => NInf
  | NInf => PInf
  | NaN => NaN
  end.

Definition nadd (a b : num) : num :=
  match a, b with
  | NaN, _ | _, NaN => NaN
  | Fin x, Fin y => Fin (x + y)
  | PInf, NInf | NInf, PInf => NaN
  | PInf, _ | _, PInf => PInf
  | NInf, _ | _, NInf => NInf
  end.

Definition nsub (a b : num) : num := nadd a (nneg b).

Definition nmul (a b : num) : num :=
  match a, b with
  | NaN, _ | _, NaN => NaN
  | Fin x, Fin y => Fin (x * y)
  | PInf, Fin y | Fin y, PInf => inf_of_sign y
  | NInf, Fin y | Fin y, NInf => inf_of_sign (- y)
  | PInf, PInf | NInf, NInf => PInf
  | PInf, NInf | NInf, PInf => NInf
  end.

(** NumPy's true division: a zero divisor gives an infinity or NaN (and a
    warning), never an exception. *)
Definition ndiv (a b : num) : num :=
  match a, b with
  | NaN, _ | _, NaN => NaN
  | Fin x, Fin y => if Reqb y 0 then inf_of_sign x else Fin (x / y)
  | PInf, Fin y => if Reqb y 0 then PInf else inf_of_sign y
  | NInf, Fin y => if Reqb y 0 then NInf else inf_of_sign (- y)
  | Fin _, PInf | Fin _, NInf => Fin 0
  | _, _ => NaN
  end.

(** [np.exp], [np.log], [np.sqrt]. *)
Definition nexp (a : num) : num :=
  match a with
  | Fin r => Fin (exp r)
  | PInf => PInf
  | NInf => Fin 0
  | NaN => NaN
  end.

Definition nlog (a : num) : num :=
  match a with
  | Fin r => if Rltb 0 r then Fin (ln r) else if Reqb r 0 then NInf else NaN
  | PInf => PInf
  | NInf => NaN
  | NaN => NaN
  end.

Definition nsqrt (a : num) : num :=
  match a with
  | Fin r => if Rleb 0 r then Fin (sqrt r) else NaN
  | PInf => PInf
  | NInf => NaN
  | NaN => NaN
  end.

(** IEEE comparisons: false as soon as one side is NaN. *)
Definition nltb (a b : num) : bool :=
  match a, b with
  | NaN, _ | _, NaN => false
  | Fin x, Fin y => Rltb x y
  | Fin _, PInf => true
  | Fin _, NInf => false
  | PInf, _ => false
  | NInf, NInf => false
  | NInf, _ => true
  end.

Definition nleb (a b : num) : bool :=
  match a, b with
  | NaN, _ | _, NaN => false
  | Fin x, Fin y => Rleb x y
  | Fin _, PInf => true
  | Fin _, NInf => false
  | PInf, PInf => true
  | PInf, _ => false
  | NInf, _ => true
  end.

(** The order of [np.sort] and [np.argpartition]: NaN is the greatest. *)
Definition sort_leb (a b : num) : bool :=
  match a, b with
  | _, NaN => true
  | NaN, _ => false
  | _, _ => nleb a b
  end.

Definition of_Z (z : Z) : num := Fin (IZR z).
Definition of_nat (n : nat) : num := Fin (INR n).

(* ================================================================== *)
(** * Exceptions and the object monad *)
(* ================================================================== *)

Inductive exn : Type :=
| ZeroDivisionError
| ValueError
| TypeError.

Inductive result (A : Type) : Type :=
| Ok (a : A)
| Err (e : exn).

Arguments Ok {A} a.
Arguments Err {A} e.

Definition rbind {A B} (c : result A) (f : A -> result B) : result B :=
  match c with
  | Ok a => f a
  | Err e => Err e
  end.

Declare Scope result_scope.
Delimit Scope result_scope with res.
Notation "x <-- c ;; k" := (rbind c (fun x => k))
  (at level 61, c at next level, right associativity) : result_scope.

Fixpoint rmap {A B} (f : A -> result B) (l : list A) : result (list B) :=
  match l with
  | [] => Ok []
  | a :: l' =>
      (b <-- f a ;;
       bs <-- rmap f l' ;;
       Ok (b :: bs))%res
  end.

Fixpoint rmap2 {A B C} (f : A -> B -> result C) (l : list A) (m : list B)
  : result (list C) :=
  match l, m with
  | a :: l', b :: m' =>
      (c <-- f a b ;;
       cs <-- rmap2 f l' m' ;;
       Ok (c :: cs))%res
  | _, _ => Ok []
  end.

(** Python's [a / b] on Python numbers raises on a zero divisor. *)
Definition py_div (a b : num) : result num :=
  match b with
  | Fin y => if Reqb y 0 then Err ZeroDivisionError else Ok (ndiv a b)
  | _ => Ok (ndiv a b)
  end.

(* ================================================================== *)
(** * Scheduler *)
(* ================================================================== *)

(** [exp_sched(start_val, end_val, i, n_steps)].  [end_val/start_val]
    divides two Python floats and raises on zero; from [np.log] on the
    values are NumPy scalars. *)
Definition exp_sched (start_val end_val : num) (i n_steps : Z) : result num :=
  (q <-- py_div end_val start_val ;;
   let decay := ndiv (nneg (nlog q)) (of_Z n_steps) in
   Ok (nmul start_val (nexp (nmul (nneg decay) (of_Z i)))))%res.

Record Scheduler : Type := mkScheduler {
  start_val : num;
  end_val : num;
  step_size : Z;
  n_samples : Z;
  n_epochs : Z;
  decay_fn : num -> num -> Z -> Z -> result num;
  current_step : Z;
  current_value : num;
  total_steps : Z
}.

(** [Scheduler.__init__]: the only operation that can raise is the floor
    division by [step_size]. *)
Definition Scheduler_init (start_val end_val : num)
    (step_size n_samples n_epochs : Z)
    (decay_fn : num -> num -> Z -> Z -> result num) : result Scheduler :=
  if (step_size =? 0)%Z then Err ZeroDivisionError
  else Ok {| start_val := start_val; end_val := end_val;
             step_size := step_size; n_samples := n_samples;
             n_epochs := n_epochs; decay_fn := decay_fn;
             current_step := 0%Z;
             current_value := start_val;
             total_steps := ((n_samples * n_epochs) / step_size)%Z |}.

Definition set_progress (s : Scheduler) (v : num) : Scheduler :=
  {| start_val := start_val s; end_val := end_val s;
     step_size := step_size s; n_samples := n_samples s;
     n_epochs := n_epochs s; decay_fn := decay_fn s;
     current_step := (current_step s + 1)%Z;
     current_value := v;
     total_steps := total_steps s |}.

(** [Scheduler.step]: the value returned (or the exception) and the
    scheduler after the call. *)
Definition step (s : Scheduler) (total_samples : Z) : result num * Scheduler :=
  if (step_size s =? 0)%Z then (Err ZeroDivisionError, s)
  else if (total_samples mod step_size s =? 0)%Z then
    match decay_fn s (start_val s) (end_val s) (current_step s) (total_steps s) with
    | Ok v => (Ok v, set_progress s v)
    | Err e => (Err e, s)
    end
  else (Ok (current_value s), s).

(* ================================================================== *)
(** * Arrays *)
(* ================================================================== *)

(** A vector, the weight grid [(rows, cols, input_dim)] and a
    [(rows, cols)] array of numbers, as nested lists in row-major order. *)
Abbreviation vec := (list num) (only parsing).
Abbreviation grid := (list (list (list num))) (only parsing).
Abbreviation dists := (list (list num)) (only parsing).

(** NumPy broadcasting of a binary operation along one axis: equal
    lengths pair up, a length of one is repeated, anything else raises. *)
Definition bcast {A B C} (f : A -> B -> result C) (a : list A) (b : list B)
  : result (list C) :=
  if length a =? length b then rmap2 f a b
  else match a, b with
       | [x], _ => rmap (f x) b
       | _, [y] => rmap (fun x => f x y) a
       | _, _ => Err ValueError
       end.

(** The same for an in-place operation [a op= b]: the result must have the
    shape of [a], so only [b] may be repeated. *)
Definition bcast_into {A B} (f : A -> B -> result A) (a : list A) (b : list B)
  : result (list A) :=
  if length a =? length b then rmap2 f a b
  else match b with
       | [y] => rmap (fun x => f x y) a
       | _ => Err ValueError
       end.

(** [a - b] on vectors. *)
Definition vsub (a b : vec) : result vec := bcast (fun p q => Ok (nsub p q)) a b.

(** [np.add.reduce] and [np.linalg.norm(., axis=-1)] on one cell. *)
Definition nsum (l : list num) : num := fold_left nadd l (Fin 0).

Definition norm (v : vec) : num := nsqrt (nsum (map (fun a => nmul a a) v)).

(** [dist_fn = lambda x, ws: np.linalg.norm(ws-x, axis=-1)]; [ws] is
    whatever [self.weights] holds, [None] included. *)
Definition dist_fn (x : vec) (ws : option grid) : result dists :=
  match ws with
  | None => Err TypeError
  | Some w =>
      rmap (rmap (fun cell => (d <-- vsub cell x ;; Ok (norm d))%res)) w
  end.

(** [np.argmin] on a flat array: the first NaN if there is one, the first
    least element otherwise; an empty array raises. *)
Fixpoint argmin_from (best : num) (besti i : nat) (l : list num) : nat :=
  match l with
  | [] => besti
  | a :: l' =>
      if isnan best then besti
      else if negb (nleb best a) then argmin_from a i (S i) l'
      else argmin_from best besti (S i) l'
  end.

Definition argmin (l : list num) : result nat :=
  match l with
  | [] => Err ValueError
  | a :: l' => Ok (argmin_from a 0 1 l')
  end.

(** [np.unravel_index(i, (rows, cols))]. *)
Definition unravel_index (i : nat) (shape : nat * nat) : result (nat * nat) :=
  let (rows, cols) := shape in
  if i <? rows * cols then Ok (i / cols, i mod cols) else Err ValueError.

(** [ndarray.min()] and [ndarray.mean()]. *)
Definition nmin2 (a b : num) : num :=
  if isnan a then a else if negb (nleb a b) then b else a.

Definition nmin (l : list num) : result num :=
  match l with
  | [] => Err ValueError
  | a :: l' => Ok (fold_left nmin2 l' a)
  end.

Definition mean (l : list num) : num := ndiv (nsum l) (of_nat (length l)).

(** [np.linspace(start, stop, n)]. *)
Definition linspace (start stop : R) (n : nat) : list num :=
  match n with
  | 0 => []
  | 1 => [Fin start]
  | _ => map (fun i => Fin (start + INR i * ((stop - start) / INR (n - 1))))
             (seq 0 n)
  end.

(** [np.meshgrid(alpha, beta)]: both of shape [(len beta, len alpha)]. *)
Definition meshgrid (alpha beta : list num) : dists * dists :=
  (map (fun _ => alpha) beta, map (fun b => map (fun _ => b) alpha) beta).

(* ================================================================== *)
(** * The collaborators outside the repository *)
(* ================================================================== *)

(** What [PCA(n_components=2).fit(X)] leaves in the estimator: two
    variances and two components, the rows of one 2-D array. *)
Record PCA : Type := mkPCA {
  explained_variance_ : num * num;
  components_ : vec * vec
}.

(** The random generator, scikit-learn and the selection order of
    [np.argpartition] are not part of the repository. *)
Record Env : Type := mkEnv {
  (** the standard normal samples [np.random.randn] draws, in order *)
  randn_draw : nat -> R;
  (** [np.random.permutation(X)] as called in the given epoch *)
  permutation : nat -> list vec -> list vec;
  (** [PCA(n_components=2).fit(X)] *)
  pca_fit : list vec -> result PCA;
  (** the index order [np.argpartition(a, kth)] returns *)
  argpartition_order : list num -> nat -> list nat
}.

(** [np.random.randn(rows, cols, dim)]: the array is filled in row-major
    order. *)
Definition randn (draw : nat -> R) (rows cols dim : nat) : grid :=
  map (fun r =>
    map (fun c =>
      map (fun k => Fin (draw ((r * cols + c) * dim + k))) (seq 0 dim))
      (seq 0 cols))
    (seq 0 rows).

(** [np.argpartition(a, kth)]: [kth] must index the array. *)
Definition np_argpartition (order : list num -> nat -> list nat)
    (a : list num) (kth : nat) : result (list nat) :=
  if kth <? length a then Ok (order a kth) else Err ValueError.

(** The contract of [np.argpartition] on one array: a permutation of the
    indices whose entry [kth] is in sorted position, nothing greater before
    it and nothing smaller after it. *)
Definition partitioned (a : list num) (kth : nat) (order : list nat) : Prop :=
  Permutation order (seq 0 (length a)) /\
  forall p q, p <= kth -> kth <= q -> q < length a ->
    sort_leb (nth (nth p order 0) a NaN) (nth (nth q order 0) a NaN) = true.

(** One selection order that honours the contract for every array: the
    indices sorted by their entries, equal entries in index order. *)
Fixpoint insert_by (a : list num) (i : nat) (l : list nat) : list nat :=
  match l with
  | [] => [i]
  | j :: l' =>
      if sort_leb (nth i a NaN) (nth j a NaN) then i :: l
      else j :: insert_by a i l'
  end.

Definition sorted_order (a : list num) : list nat :=
  fold_right (insert_by a) [] (seq 0 (length a)).

(* ================================================================== *)
(** * SOM *)
(* ================================================================== *)

Record SOM : Type := mkSOM {
  grid_sz : nat * nat;
  input_dim : nat;
  init : string;
  som_dist_fn : vec -> option grid -> result dists;
  weights : option grid
}.

(** [SOM.__init__]. *)
Definition SOM_init (grid_sz : nat * nat) (input_dim : nat) (init : string)
    (dist : vec -> option grid -> result dists) : SOM :=
  {| grid_sz := grid_sz; input_dim := input_dim; init := init;
     som_dist_fn := dist; weights := None |}.

Definition set_weights_of (s : SOM) (w : option grid) : SOM :=
  {| grid_sz := grid_sz s; input_dim := input_dim s; init := init s;
     som_dist_fn := som_dist_fn s; weights := w |}.

(** A method call: its result or exception, and the object afterwards. *)
Definition M (A : Type) : Type := SOM -> result A * SOM.

Definition ret {A} (a : A) : M A := fun s => (Ok a, s).

Definition bind {A B} (c : M A) (f : A -> M B) : M B :=
  fun s =>
    match c s with
    | (Ok a, s') => f a s'
    | (Err e, s') => (Err e, s')
    end.

Definition raise {A} (e : exn) : M A := fun s => (Err e, s).
Definition lift {A} (r : result A) : M A := fun s => (r, s).
Definition get_self : M SOM := fun s => (Ok s, s).
Definition set_weights (w : option grid) : M unit :=
  fun s => (Ok tt, set_weights_of s w).

Declare Scope som_scope.
Delimit Scope som_scope with som.
Notation "x <- c ;; k" := (bind c (fun x => k))
  (at level 61, c at next level, right associativity) : som_scope.

(** A method called on every element of a list, in order. *)
Fixpoint mmap {A B} (f : A -> M B) (l : list A) : M (list B) :=
  match l with
  | [] => ret []
  | a :: l' =>
      (b <- f a ;;
       bs <- mmap f l' ;;
       ret (b :: bs))%som
  end.

(** The sum of two rows of one 2-D array. *)
Definition vadd (a b : vec) : vec :=
  map (fun p => nadd (fst p) (snd p)) (combine a b).

Section Methods.

Variable env : Env.

Local Open Scope som_scope.

(** [SOM._initialize_weights_pca]. *)
Definition _initialize_weights_pca (X : list vec) : M grid :=
  self <- get_self ;;
  pca <- lift (pca_fit env X) ;;
  let n := fst (grid_sz self) in
  let alpha := map (fun a => nmul a (nsqrt (fst (explained_variance_ pca))))
                   (linspace (-1) 1 n) in
  let beta := map (fun a => nmul a (nsqrt (snd (explained_variance_ pca))))
                  (linspace (-1) 1 n) in
  let (alpha_grid, beta_grid) := meshgrid alpha beta in
  ret (map (fun ab =>
         map (fun p => vadd (map (nmul (fst p)) (fst (components_ pca)))
                            (map (nmul (snd p)) (snd (components_ pca))))
             (combine (fst ab) (snd ab)))
       (combine alpha_grid beta_grid)).

(** [SOM._initialize_weights]: a method other than ['random'] and ['pca']
    falls off the end of the function, which returns [None]. *)
Definition _initialize_weights (X : option (list vec)) (method : string)
  : M (option grid) :=
  self <- get_self ;;
  if String.eqb method "random" then
    ret (Some (randn (randn_draw env) (fst (grid_sz self)) (snd (grid_sz self))
                     (input_dim self)))
  else if String.eqb method "pca" then
    match X with
    | None => raise ValueError
    | Some X' => w <- _initialize_weights_pca X' ;; ret (Some w)
    end
  else ret None.

(** [SOM._find_bmu]. *)
Definition _find_bmu (x : vec) : M (nat * nat) :=
  self <- get_self ;;
  distances <- lift (som_dist_fn self x (weights self)) ;;
  i <- lift (argmin (concat distances)) ;;
  lift (unravel_index i (grid_sz self)).

(** [SOM._grid_distances]: integers. *)
Definition _grid_distances (bmu_pos : nat * nat) : M (list (list Z)) :=
  self <- get_self ;;
  ret (map (fun r =>
         map (fun c =>
           ((Z.of_nat (fst bmu_pos) - Z.of_nat r) ^ 2 +
            (Z.of_nat (snd bmu_pos) - Z.of_nat c) ^ 2)%Z)
           (seq 0 (snd (grid_sz self))))
       (seq 0 (fst (grid_sz self)))).

(** [SOM._neighborhood_function]: [np.exp(-grid_dist/(2*sigma**2))]. *)
Definition _neighborhood_function (grid_dist : list (list Z)) (sigma : num)
  : M dists :=
  ret (map (map (fun d =>
         nexp (ndiv (of_Z (- d)) (nmul (Fin 2) (nmul sigma sigma)))))
       grid_dist).

(** [SOM._update_weights]:
    [self.weights += learning_rate * neighborhood[..., np.newaxis] * (x - self.weights)]. *)
Definition _update_weights (x : vec) (learning_rate sigma : num) : M unit :=
  bmu_pos <- _find_bmu x ;;
  grid_dist <- _grid_distances bmu_pos ;;
  neighborhood <- _neighborhood_function grid_dist sigma ;;
  self <- get_self ;;
  match weights self with
  | None => raise TypeError
  | Some w =>
      let scaled := map (map (fun h => [nmul learning_rate h])) neighborhood in
      diff <- lift (rmap (rmap (fun cell => vsub x cell)) w) ;;
      delta <- lift (bcast (bcast (bcast (fun a b => Ok (nmul a b)))) scaled diff) ;;
      w' <- lift (bcast_into (bcast_into (bcast_into (fun a b => Ok (nadd a b))))
                             w delta) ;;
      set_weights (Some w')
  end.

(** [SOM.quantization_error]. *)
Definition quantization_error (X : list vec) : M num :=
  self <- get_self ;;
  ds <- lift (rmap (fun x =>
                (d <-- som_dist_fn self x (weights self) ;;
                 nmin (concat d))%res) X) ;;
  ret (mean ds).

(** [_check_bmu_adjacency] inside [SOM.topographic_error].  The loop
    [for x,y in indices] unpacks the array of the two rows, then the array
    of the two columns. *)
Definition _check_bmu_adjacency (self : SOM) (x : vec) : result bool :=
  (distances <-- som_dist_fn self x (weights self) ;;
   order <-- np_argpartition (argpartition_order env) (concat distances) 2 ;;
   let flat_indices := firstn 2 order in
   indices <-- rmap (fun i => unravel_index i (grid_sz self)) flat_indices ;;
   match map fst indices, map snd indices with
   | [r1; r2], [c1; c2] =>
       Ok ((1 <? Z.abs (Z.of_nat r1 - Z.of_nat r2))%Z ||
           (1 <? Z.abs (Z.of_nat c1 - Z.of_nat c2))%Z)
   | _, _ => Err ValueError
   end)%res.

(** [SOM.topographic_error]. *)
Definition topographic_error (X : list vec) : M num :=
  self <- get_self ;;
  flags <- lift (rmap (_check_bmu_adjacency self) X) ;;
  let n_errors := count_occ bool_dec flags true in
  lift (py_div (of_nat (100 * n_errors)) (of_nat (length X))).

(** [SOM.transform] and its alias [SOM.predict]. *)
Definition transform (X : list vec) : M (list (nat * nat)) :=
  mmap _find_bmu X.

Definition predict (X : list vec) : M (list (nat * nat)) := transform X.

(** The inner loop of [SOM.fit] over [enumerate(X_)], from index [i] on:
    both schedulers are stepped, then the grid is updated. *)
Fixpoint train_epoch (epoch n i : nat) (X_ : list vec)
    (lr_scheduler sigma_scheduler : Scheduler) : M (Scheduler * Scheduler) :=
  match X_ with
  | [] => ret (lr_scheduler, sigma_scheduler)
  | x :: rest =>
      let total_samples := Z.of_nat (epoch * n + i) in
      let (lr, lr_scheduler') := step lr_scheduler total_samples in
      lr <- lift lr ;;
      let (sigma, sigma_scheduler') := step sigma_scheduler total_samples in
      sigma <- lift sigma ;;
      _ <- _update_weights x lr sigma ;;
      train_epoch epoch n (S i) rest lr_scheduler' sigma_scheduler'
  end.

(** The loop [for epoch in range(n_epochs)] of [SOM.fit].  The progress
    line printed when [verbose] is set is not modelled. *)
Fixpoint fit_epochs (epochs : list nat) (X : list vec) (shuffle : bool)
    (lr_scheduler sigma_scheduler : Scheduler)
    (qe_errors te_errors : list num) : M (list num * list num) :=
  match epochs with
  | [] => ret (qe_errors, te_errors)
  | epoch :: rest =>
      let X_ := if shuffle then permutation env epoch X else X in
      scheds <- train_epoch epoch (length X) 0 X_ lr_scheduler sigma_scheduler ;;
      qe <- quantization_error X ;;
      te <- topographic_error X ;;
      fit_epochs rest X shuffle (fst scheds) (snd scheds)
                 (qe_errors ++ [qe]) (te_errors ++ [te])
  end.

(** [SOM.fit].  A scheduler given by the caller is stepped by the loop;
    its final state is not part of what [fit] returns. *)
Definition fit (X : list vec) (n_epochs : nat)
    (lr_scheduler sigma_scheduler : option Scheduler)
    (shuffle verbose : bool) : M (option grid * list num * list num) :=
  self <- get_self ;;
  _ <- match weights self with
       | None => w <- _initialize_weights (Some X) (init self) ;; set_weights w
       | Some _ => ret tt
       end ;;
  lr_scheduler <-
    match lr_scheduler with
    | None => lift (Scheduler_init (Fin 1) (Fin (1 / 100)) 100
                      (Z.of_nat (length X)) (Z.of_nat n_epochs) exp_sched)
    | Some s => ret s
    end ;;
  self <- get_self ;;
  sigma_scheduler <-
    match sigma_scheduler with
    | None => lift (Scheduler_init
                      (Fin (INR (Nat.max (fst (grid_sz self)) (snd (grid_sz self))) / 2))
                      (Fin 1) 100
                      (Z.of_nat (length X)) (Z.of_nat n_epochs) exp_sched)
    | Some s => ret s
    end ;;
  errors <- fit_epochs (seq 0 n_epochs) X shuffle lr_scheduler sigma_scheduler [] [] ;;
  self <- get_self ;;
  ret (weights self, fst errors, snd errors).

End Methods.

(* ================================================================== *)
(** * Vocabulary of the statements *)
(* ================================================================== *)

(** Two lists combined entry by entry. *)
Definition zipw {A B C} (g : A -> B -> C) (l : list A) (m : list B) : list C :=
  map (fun p => g (fst p) (snd p)) (combine l m).

(** A computation that only reads the object. *)
Definition reads {A} (c : M A) : Prop := forall s, snd (c s) = s.

(** A [rows x cols] array whose entries all satisfy [P]. *)
Definition shape2 {A} (P : A -> Prop) (l : list (list A)) (rows cols : nat)
  : Prop :=
  length l = rows /\ Forall (fun row => length row = cols /\ Forall P row) l.

(** The grid is a [(rows, cols, dim)] array. *)
Definition has_shape (W : grid) (rows cols dim : nat) : Prop :=
  shape2 (fun cell : vec => length cell = dim) W rows cols.

(** The distance function of the map returns a [rows x cols] array. *)
Definition dist_ok (s : SOM) (x : vec) : Prop :=
  exists D, som_dist_fn s x (weights s) = Ok D /\
            length (concat D) = fst (grid_sz s) * snd (grid_sz s).

(** The squared grid distance [(br - r)^2 + (bc - c)^2] of cell [(r, c)]
    from the BMU, as the update rule is stated. *)
Definition grid_dist_at (bmu : nat * nat) (r c : nat) : Z :=
  (Z.of_nat (fst bmu) - Z.of_nat r) ^ 2 + (Z.of_nat (snd bmu) - Z.of_nat c) ^ 2.

(** The Gaussian weight [exp(-d / (2 sigma^2))] at squared distance [d]. *)
Definition gaussian (sigma : num) (d : Z) : num :=
  nexp (ndiv (of_Z (- d)) (nmul (Fin 2) (nmul sigma sigma))).

(** The reference vector [w[r,c]]. *)
Definition cell_at (W : grid) (r c : nat) : vec := nth c (nth r W []) [].

(** [learning_rate * neighborhood[..., np.newaxis]], of shape
    [(rows, cols, 1)]. *)
Definition scaled_weights (rows cols : nat) (lr sigma : num) (bmu : nat * nat)
  : grid :=
  map (fun r => map (fun c => [nmul lr (gaussian sigma (grid_dist_at bmu r c))])
                    (seq 0 cols))
      (seq 0 rows).

(** The array [lr * H[..., newaxis] * (x - w)] the update adds to the
    grid. *)
Definition update_delta (rows cols : nat) (W : grid) (x : vec) (lr sigma : num)
    (bmu : nat * nat) : grid :=
  zipw (zipw (fun (s : list num) (d : vec) => map (nmul (hd NaN s)) d))
       (scaled_weights rows cols lr sigma bmu)
       (map (map (fun cell => zipw nsub x cell)) W).

(** The grid the update leaves. *)
Definition updated (rows cols : nat) (W : grid) (x : vec) (lr sigma : num)
    (bmu : nat * nat) : grid :=
  zipw (zipw (zipw nadd)) W (update_delta rows cols W x lr sigma bmu).

(** The neighbourhood weight at squared distance [d] for [sigma = 0]. *)
Definition zero_radius_weight (d : Z) : num :=
  if (d =? 0)%Z then NaN else if (0 <? d)%Z then Fin 0 else PInf.

(** The two cells closest to a sample, by flat index: distinct, and no
    other cell is closer than either (NaN counts as the greatest
    distance). *)
Definition two_closest (d : list num) (i1 i2 : nat) : Prop :=
  i1 <> i2 /\ i1 < length d /\ i2 < length d /\
  forall j, j < length d -> j <> i1 -> j <> i2 ->
    sort_leb (nth i1 d NaN) (nth j d NaN) = true /\
    sort_leb (nth i2 d NaN) (nth j d NaN) = true.

(** The rows or the columns of two cells differ by more than 1. *)
Definition far_apart (cols i1 i2 : nat) : bool :=
  ((1 <? Z.abs (Z.of_nat (i1 / cols) - Z.of_nat (i2 / cols)))%Z ||
   (1 <? Z.abs (Z.of_nat (i1 mod cols) - Z.of_nat (i2 mod cols)))%Z).

(* ================================================================== *)
(** * Concrete maps and schedulers *)
(* ================================================================== *)

(** The default learning-rate scheduler of [fit] for four samples and one
    epoch: [Scheduler(1.0, 0.01, 100, 4, 1)]. *)
Definition sched_4_1 : Scheduler :=
  {| start_val := Fin 1; end_val := Fin (1 / 100);
     step_size := 100; n_samples := 4; n_epochs := 1;
     decay_fn := exp_sched;
     current_step := 0; current_value := Fin 1;
     total_steps := 0 |}.

(** [Scheduler(0.0, 1.0, 100, 1000, 20)] as the constructor leaves it. *)
Definition sched_start_zero : Scheduler :=
  {| start_val := Fin 0; end_val := Fin 1;
     step_size := 100; n_samples := 1000; n_epochs := 20;
     decay_fn := exp_sched;
     current_step := 0; current_value := Fin 0;
     total_steps := 200 |}.

(** A [1 x 1] map over one feature whose reference vector is [0.]. *)
Definition som_unit : SOM :=
  {| grid_sz := (1, 1); input_dim := 1; init := "random";
     som_dist_fn := dist_fn; weights := Some [[[Fin 0]]] |}.

(** A [1 x 2] map over one feature. *)
Definition som_pair : SOM :=
  {| grid_sz := (1, 2); input_dim := 1; init := "random";
     som_dist_fn := dist_fn; weights := Some [[[Fin 0]; [Fin 2]]] |}.

(** A [2 x 2] map over one feature; the cells [(0,1)] and [(1,0)] are both
    at the least distance 1 from the input [[0.]]. *)
Definition som_tie : SOM :=
  {| grid_sz := (2, 2); input_dim := 1; init := "random";
     som_dist_fn := dist_fn;
     weights := Some [[[Fin 3]; [Fin 1]]; [[Fin 1]; [Fin 2]]] |}.

(** The distances of the input [[0.]] to the cells of [som_tie]. *)
Definition som_tie_distances : dists :=
  [[Fin (Rabs (3 + - 0)); Fin (Rabs (1 + - 0))];
   [Fin (Rabs (1 + - 0)); Fin (Rabs (2 + - 0))]].

(** Four samples of two features, spread along the two axes. *)
Definition data_cross : list vec :=
  [[Fin 2; Fin 0]; [Fin (-2); Fin 0]; [Fin 0; Fin 1]; [Fin 0; Fin (-1)]].

(** The principal axes of [data_cross]: the two coordinate axes, with the
    variances 8/3 and 2/3. *)
Definition pca_cross : PCA :=
  {| explained_variance_ := (Fin (8 / 3), Fin (2 / 3));
     components_ := ([Fin 1; Fin 0], [Fin 0; Fin 1]) |}.

(** Collaborators for concrete runs: every draw is 0, the permutation
    keeps the order, PCA raises on fewer than two samples and returns
    [pca_cross] otherwise, and [np.argpartition] returns the sorted order. *)
Definition env_plain : Env :=
  {| randn_draw := fun _ => 0%R;
     permutation := fun _ X => X;
     pca_fit := fun X => if length X <? 2 then Err ValueError else Ok pca_cross;
     argpartition_order := fun a _ => sorted_order a |}.

(** A [1 x 3] map over one feature. *)
Definition som_line : SOM :=
  {| grid_sz := (1, 3); input_dim := 1; init := "random";
     som_dist_fn := dist_fn;
     weights := Some [[[Fin 0]; [Fin 1]; [Fin 5]]] |}.

(** The distances of the input [[0.]] to the cells of [som_line]. *)
Definition som_line_distances : dists :=
  [[Fin (Rabs (0 + - 0)); Fin (Rabs (1 + - 0)); Fin (Rabs (5 + - 0))]].

(** [SOM(grid_sz=(2,3), input_dim=2, init='pca')]. *)
Definition som_pca_2x3 : SOM := SOM_init (2, 3) 2 "pca" dist_fn.

(* ================================================================== *)
(** * Runs of a scheduler *)
(* ================================================================== *)

(** [step] called with the consecutive sample counts [t], [t+1], ...,
    [t+k-1], as the loop of [fit] calls it: the values returned and the
    scheduler left. *)
Fixpoint run_samples (sc : Scheduler) (t : Z) (k : nat)
  : list (result num) * Scheduler :=
  match k with
  | 0 => ([], sc)
  | S k' =>
      let (v, sc') := step sc t in
      let (vs, sc'') := run_samples sc' (t + 1) k' in
      (v :: vs, sc'')
  end.

(** [Scheduler(1.0, 0.01, 100, 1000, 20)] as the constructor leaves it. *)
Definition sched_default : Scheduler :=
  {| start_val := Fin 1; end_val := Fin (1 / 100);
     step_size := 100; n_samples := 1000; n_epochs := 20;
     decay_fn := exp_sched;
     current_step := 0; current_value := Fin 1;
     total_steps := 200 |}.

(* ================================================================== *)
(** * Finite data *)
(* ================================================================== *)

(** A number that is neither infinite nor NaN, and grids and datasets of
    such numbers. *)
Definition finite (a : num) : Prop := exists r, a = Fin r.

Definition finite_grid (W : grid) : Prop := Forall (Forall (Forall finite)) W.

(** Component [k] of the reference vector [w[r,c]]. *)
Definition entry (W : grid) (r c k : nat) : num := nth k (cell_at W r c) NaN.

(** A [2 x 2] map over two features whose reference vectors are the corners
    of the unit square. *)
Definition som_square : SOM :=
  {| grid_sz := (2, 2); input_dim := 2; init := "random";
     som_dist_fn := dist_fn;
     weights := Some [[[Fin 0; Fin 0]; [Fin 1; Fin 0]];
                      [[Fin 0; Fin 1]; [Fin 1; Fin 1]]] |}.

(* ================================================================== *)
(** * Well-formed inputs of fit *)
(* ================================================================== *)

(** A scheduler whose [step] cannot raise: the step size is not zero and
    the decay function returns a value at every step. *)
Definition sched_total (sc : Scheduler) : Prop :=
  step_size sc <> 0%Z /\
  forall i, exists v,
    decay_fn sc (start_val sc) (end_val sc) i (total_steps sc) = Ok v.

(** The optional scheduler argument of [fit]. *)
Definition sched_arg_total (o : option Scheduler) : Prop :=
  match o with
  | None => True
  | Some sc => sched_total sc
  end.

(** A map with the default distance function and a grid of shape
    [(rows, cols, dim)]. *)
Definition trained (rows cols dim : nat) (s : SOM) : Prop :=
  grid_sz s = (rows, cols) /\ som_dist_fn s = dist_fn /\
  exists W, weights s = Some W /\ has_shape W rows cols dim.

(* ================================================================== *)
(** * U-matrix *)
(* ================================================================== *)

(** The exceptions of the U-matrix: those met so far and the [IndexError]
    of indexing the weight array out of range. *)
Inductive pyexn : Type :=
| Builtin (e : exn)
| IndexError.

Inductive outcome (A : Type) : Type :=
| Returned (a : A)
| Raised (e : pyexn).

Arguments Returned {A} a.
Arguments Raised {A} e.

Definition obind {A B} (c : outcome A) (f : A -> outcome B) : outcome B :=
  match c with
  | Returned a => f a
  | Raised e => Raised e
  end.

Declare Scope outcome_scope.
Delimit Scope outcome_scope with out.
Notation "x <~ c ;; k" := (obind c (fun x => k))
  (at level 61, c at next level, right associativity) : outcome_scope.

Definition of_result {A} (r : result A) : outcome A :=
  match r with
  | Ok a => Returned a
  | Err e => Raised (Builtin e)
  end.

(** A function called on every element of a list, in order. *)
Fixpoint omap {A B} (f : A -> outcome B) (l : list A) : outcome (list B) :=
  match l with
  | [] => Returned []
  | a :: l' =>
      (b <~ f a ;;
       bs <~ omap f l' ;;
       Returned (b :: bs))%out
  end.

(** [self.weights[r, c]] for indices that are not negative: [None] cannot
    be indexed, an index beyond an axis raises [IndexError]. *)
Definition weights_at (ws : option grid) (r c : nat) : outcome vec :=
  match ws with
  | None => Raised (Builtin TypeError)
  | Some w =>
      match nth_error w r with
      | None => Raised IndexError
      | Some row =>
          match nth_error row c with
          | None => Raised IndexError
          | Some cell => Returned cell
          end
      end
  end.

(** The default [dist_fn] applied to two vectors:
    [np.linalg.norm(ws - x, axis=-1)] is then one number. *)
Definition dist_fn_vec (x ws : vec) : result num :=
  (d <-- vsub ws x ;; Ok (norm d))%res.

(** [np.average(a, weights=w)] on two lists of one length: weights that
    sum to zero raise [ZeroDivisionError]. *)
Definition np_average (a w : list num) : outcome num :=
  let scl := nsum w in
  match scl with
  | Fin r => if Reqb r 0 then Raised (Builtin ZeroDivisionError)
             else Returned (ndiv (nsum (zipw nmul a w)) scl)
  | _ => Returned (ndiv (nsum (zipw nmul a w)) scl)
  end.

(** The offsets of the 8 neighbours, in the order of the source. *)
Definition nbr_offsets : list (Z * Z) :=
  [(-1, -1); (-1, 0); (-1, 1);
   (0, -1);           (0, 1);
   (1, -1);  (1, 0);  (1, 1)]%Z.

(** The test [nbr_r >= 0 and nbr_r < grid_sz[0] and nbr_c >= 0 and
    nbr_c < grid_sz[1]]. *)
Definition in_grid (shape : nat * nat) (nbr_r nbr_c : Z) : bool :=
  (0 <=? nbr_r)%Z && (nbr_r <? Z.of_nat (fst shape))%Z &&
  (0 <=? nbr_c)%Z && (nbr_c <? Z.of_nat (snd shape))%Z.

(** [1/np.sqrt(dr**2 + dc**2)]. *)
Definition nbr_weight (dr dc : Z) : num :=
  ndiv (Fin 1) (nsqrt (of_Z (dr ^ 2 + dc ^ 2))).

(** The loop of [_neighbor_distances] over the offsets still to visit, with
    the two lists built so far.  [cell_dist] is [self.dist_fn] on two
    reference vectors; for the default lambda it is [dist_fn_vec]. *)
Fixpoint neighbor_loop (cell_dist : vec -> vec -> result num) (s : SOM)
    (r c : nat) (offsets : list (Z * Z)) (distances weights_ : list num)
  : outcome (list num * list num) :=
  match offsets with
  | [] => Returned (distances, weights_)
  | (dr, dc) :: rest =>
      let nbr_r := (Z.of_nat r + dr)%Z in
      let nbr_c := (Z.of_nat c + dc)%Z in
      if in_grid (grid_sz s) nbr_r nbr_c then
        let w := nbr_weight dr dc in
        (here <~ weights_at (weights s) r c ;;
         there <~ weights_at (weights s) (Z.to_nat nbr_r) (Z.to_nat nbr_c) ;;
         d <~ of_result (cell_dist here there) ;;
         neighbor_loop cell_dist s r c rest (distances ++ [d]) (weights_ ++ [w]))%out
      else neighbor_loop cell_dist s r c rest distances weights_
  end.

(** [_neighbor_distances(pos)] inside [SOM._calculate_umatrix]. *)
Definition _neighbor_distances (cell_dist : vec -> vec -> result num) (s : SOM)
    (pos : nat * nat) : outcome num :=
  (lists <~ neighbor_loop cell_dist s (fst pos) (snd pos) nbr_offsets [] [] ;;
   np_average (fst lists) (snd lists))%out.

(** [SOM._calculate_umatrix]: the cells are visited in the row-major order
    of [np.ndindex]; the method assigns nothing in the map. *)
Definition _calculate_umatrix (cell_dist : vec -> vec -> result num) (s : SOM)
  : outcome dists :=
  omap (fun i =>
    omap (fun j => _neighbor_distances cell_dist s (i, j))
         (seq 0 (snd (grid_sz s))))
    (seq 0 (fst (grid_sz s))).

(** [SOM.umatrix]. *)
Definition umatrix (cell_dist : vec -> vec -> result num) (s : SOM)
  : outcome dists :=
  _calculate_umatrix cell_dist s.

(** A finite positive number, and a finite number that is not negative. *)
Definition posfin (a : num) : Prop := exists v, a = Fin v /\ (0 < v)%R.

Definition nonnegfin (a : num) : Prop := exists v, a = Fin v /\ (0 <= v)%R.

(** A [1 x 2] map whose two reference vectors are equal. *)
Definition som_flat : SOM :=
  {| grid_sz := (1, 2); input_dim := 1; init := "random";
     som_dist_fn := dist_fn; weights := Some [[[Fin 1]; [Fin 1]]] |}.

(* ================================================================== *)
(** * Magnitudes *)
(* ================================================================== *)

(** Arithmetic on [Fin] is exact, while the program computes in doubles:
    the largest finite double is about [1.8e308], the least positive normal
    one about [2.2e-308], and the integers up to [2^53] are held exactly.
    Beyond that range a product or a quotient is an infinity (for a Python
    float, [OverflowError]) or zero in the program.  The properties that
    depend on it are stated for the magnitudes below, which keep a margin
    on both sides of the range. *)

(** [a**2] and [2*a**2] do not overflow: a finite number of magnitude at
    most [1e150].  An infinity and NaN square to themselves without an
    exception. *)
Definition square_no_overflow (a : num) : Prop :=
  match a with
  | Fin r => (Rabs r <= 10 ^ 150)%R
  | _ => True
  end.

(** [a**2] is neither zero nor NaN: a finite number of magnitude at least
    [1e-150], or an infinity. *)
Definition square_positive (a : num) : Prop :=
  match a with
  | Fin r => (/ 10 ^ 150 <= Rabs r)%R
  | NaN => False
  | _ => True
  end.

(** A quotient that is a normal double: between [1e-300] and [1e300]. *)
Definition ratio_in_range (q : R) : Prop := (/ 10 ^ 300 <= q <= 10 ^ 300)%R.

(** An integer that a double holds exactly. *)
Definition exact_int (n : Z) : Prop := (Z.abs n <= 2 ^ 53)%Z.

(** A finite number of magnitude at most [1e300]: the difference and the
    sum of two such numbers are finite doubles. *)
Definition bounded (a : num) : Prop :=
  exists r, a = Fin r /\ (Rabs r <= 10 ^ 300)%R.

Definition bounded_grid (W : grid) : Prop := Forall (Forall (Forall bounded)) W.

(** A radius scheduler whose values can be squared: whatever its decay
    function returns satisfies [square_no_overflow]. *)
Definition sched_radius_ok (sc : Scheduler) : Prop :=
  forall i v,
    decay_fn sc (start_val sc) (end_val sc) i (total_steps sc) = Ok v ->
    square_no_overflow v.

(** The optional radius scheduler of [fit]: the default one returns NumPy
    scalars, whose square never raises. *)
Definition sched_arg_radius (o : option Scheduler) : Prop :=
  match o with
  | None => True
  | Some sc => sched_radius_ok sc
  end.

(** [Scheduler(v, v, 1, 2, 2, decay_fn=lambda s, e, i, n: e)]: a constant
    schedule, recomputed at every sample. *)
Definition sched_const (v : num) : Scheduler :=
  {| start_val := v; end_val := v; step_size := 1; n_samples := 2;
     n_epochs := 2; decay_fn := fun _ e _ _ => Ok e;
     current_step := 0; current_value := v; total_steps := 4 |}.

(** [Scheduler(1.0, 0.01, 1, 10, 1, decay_fn=lambda s, e, i, n: e)] as its
    constructor leaves it. *)
Definition sched_to_end : Scheduler :=
  {| start_val := Fin 1; end_val := Fin (1 / 100); step_size := 1;
     n_samples := 10; n_epochs := 1; decay_fn := fun _ e _ _ => Ok e;
     current_step := 0; current_value := Fin 1; total_steps := 10 |}.

(* ================================================================== *)
(** * Facts about numbers *)
(* ================================================================== *)

Lemma Rltb_true (x y : R) : (x < y)%R -> Rltb x y = true.
Proof. intros H. unfold Rltb. destruct (Rlt_dec x y); [reflexivity | contradiction]. Qed.

Lemma Rltb_false (x y : R) : (y <= x)%R -> Rltb x y = false.
Proof. intros H. unfold Rltb. destruct (Rlt_dec x y); [lra | reflexivity]. Qed.

Lemma Rleb_true (x y : R) : (x <= y)%R -> Rleb x y = true.
Proof. intros H. unfold Rleb. destruct (Rle_dec x y); [reflexivity | contradiction]. Qed.

Lemma Rleb_false (x y : R) : (y < x)%R -> Rleb x y = false.
Proof. intros H. unfold Rleb. destruct (Rle_dec x y); [lra | reflexivity]. Qed.

Lemma Reqb_true (x y : R) : x = y -> Reqb x y = true.
Proof. intros H. unfold Reqb. destruct (Req_dec_T x y); [reflexivity | contradiction]. Qed.

Lemma Reqb_false (x y : R) : x <> y -> Reqb x y = false.
Proof. intros H. unfold Reqb. destruct (Req_dec_T x y); [contradiction | reflexivity]. Qed.

Lemma Rleb_iff (x y : R) : Rleb x y = true <-> (x <= y)%R.
Proof.
  split; intros H.
  - unfold Rleb in H. now destruct (Rle_dec x y).
  - now apply Rleb_true.
Qed.

Lemma Rltb_iff (x y : R) : Rltb x y = true <-> (x < y)%R.
Proof. unfold Rltb. destruct (Rlt_dec x y); split; intros; try assumption; try reflexivity; try discriminate; contradiction. Qed.

Lemma inf_of_sign_pos (r : R) : (0 < r)%R -> inf_of_sign r = PInf.
Proof. intros H. unfold inf_of_sign. now rewrite Rltb_true. Qed.

Lemma inf_of_sign_neg (r : R) : (r < 0)%R -> inf_of_sign r = NInf.
Proof. intros H. unfold inf_of_sign. rewrite Rltb_false by lra. now rewrite Rltb_true. Qed.

Lemma inf_of_sign_zero (r : R) : r = 0%R -> inf_of_sign r = NaN.
Proof. intros ->. unfold inf_of_sign. now rewrite !Rltb_false by lra. Qed.

Lemma ln_neg (r : R) : (0 < r < 1)%R -> (ln r < 0)%R.
Proof. intros [H0 H1]. rewrite <- ln_1. now apply ln_increasing. Qed.

(* ================================================================== *)
(** * Facts about magnitudes *)
(* ================================================================== *)

Lemma pow10_ge_1 (n : nat) : (1 <= 10 ^ n)%R.
Proof. apply pow_R1_Rle. lra. Qed.

Lemma pow10_pos (n : nat) : (0 < 10 ^ n)%R.
Proof. apply pow_lt. lra. Qed.

Lemma inv_pow10_pos (n : nat) : (0 < / 10 ^ n)%R.
Proof. apply Rinv_0_lt_compat, pow10_pos. Qed.

Lemma inv_pow10_le_1 (n : nat) : (/ 10 ^ n <= 1)%R.
Proof.
  rewrite <- Rinv_1. apply Rinv_le_contravar; [lra | apply pow10_ge_1].
Qed.

(** A number between [1e-2] and 1, such as the ratio of the default
    learning rates, is in range. *)
Lemma ratio_in_range_percent (q : R) :
  (1 / 100 <= q <= 1)%R -> ratio_in_range q.
Proof.
  intros [Hlo Hhi]. split.
  - apply Rle_trans with (/ 10 ^ 2)%R; [|simpl; lra].
    apply Rinv_le_contravar; [apply pow10_pos|].
    apply Rle_pow; [lra | lia].
  - apply Rle_trans with 1%R; [exact Hhi | apply pow10_ge_1].
Qed.

Lemma square_no_overflow_1 : square_no_overflow (Fin 1).
Proof. unfold square_no_overflow. rewrite Rabs_R1. apply pow10_ge_1. Qed.

Lemma square_positive_1 : square_positive (Fin 1).
Proof. unfold square_positive. rewrite Rabs_R1. apply inv_pow10_le_1. Qed.

Lemma square_positive_not_zero (sigma : num) :
  square_positive sigma -> sigma <> Fin 0 /\ sigma <> NaN.
Proof.
  destruct sigma as [r | | |]; unfold square_positive; intros H; split;
    try discriminate; try contradiction.
  intros E. inversion E. subst r. rewrite Rabs_R0 in H.
  pose proof (inv_pow10_pos 150). lra.
Qed.

Lemma bounded_finite (a : num) : bounded a -> finite a.
Proof. intros [r [-> _]]. now exists r. Qed.

Lemma bounded_list_finite (l : list num) : Forall bounded l -> Forall finite l.
Proof. apply Forall_impl, bounded_finite. Qed.

Lemma bounded_grid_finite (W : grid) : bounded_grid W -> finite_grid W.
Proof.
  apply Forall_impl. intros row. apply Forall_impl. intros cell.
  apply bounded_list_finite.
Qed.

Lemma bounded_small (r : R) : (Rabs r <= 10)%R -> bounded (Fin r).
Proof.
  intros H. exists r. split; [reflexivity|].
  apply Rle_trans with (10 ^ 1)%R; [simpl; lra|].
  apply Rle_pow; [lra | lia].
Qed.

(* ================================================================== *)
(** * Scheduler: stepping *)
(* ================================================================== *)

(** A recomputing step: the sample count is a multiple of the step size. *)
Lemma step_multiple (s : Scheduler) (n : Z) (v : num) :
  (0 < step_size s)%Z -> (n mod step_size s = 0)%Z ->
  decay_fn s (start_val s) (end_val s) (current_step s) (total_steps s) = Ok v ->
  step s n = (Ok v, set_progress s v).
Proof.
  intros Hpos Hmod Hd. unfold step.
  replace (step_size s =? 0)%Z with false by (symmetry; apply Z.eqb_neq; lia).
  rewrite Hmod. cbn [Z.eqb]. now rewrite Hd.
Qed.

(** The decay function raises: so does [step], and nothing is assigned. *)
Lemma step_multiple_raises (s : Scheduler) (n : Z) (e : exn) :
  (0 < step_size s)%Z -> (n mod step_size s = 0)%Z ->
  decay_fn s (start_val s) (end_val s) (current_step s) (total_steps s) = Err e ->
  step s n = (Err e, s).
Proof.
  intros Hpos Hmod Hd. unfold step.
  replace (step_size s =? 0)%Z with false by (symmetry; apply Z.eqb_neq; lia).
  rewrite Hmod. cbn [Z.eqb]. now rewrite Hd.
Qed.

Lemma step_not_multiple (s : Scheduler) (n : Z) :
  (0 < step_size s)%Z -> (n mod step_size s <> 0)%Z ->
  step s n = (Ok (current_value s), s).
Proof.
  intros Hpos Hmod. unfold step.
  replace (step_size s =? 0)%Z with false by (symmetry; apply Z.eqb_neq; lia).
  now replace (n mod step_size s =? 0)%Z with false by (symmetry; apply Z.eqb_neq; lia).
Qed.

(** The exponential decay at step 0 is the start value, when the ratio of
    the two ends is positive and there is at least one step. *)
Lemma exp_sched_0 (a b : R) (n_steps : Z) :
  a <> 0%R -> (0 < b / a)%R -> n_steps <> 0%Z ->
  exp_sched (Fin a) (Fin b) 0 n_steps = Ok (Fin a).
Proof.
  intros Ha Hq Hn. unfold exp_sched, py_div. rewrite Reqb_false by assumption.
  cbn [rbind ndiv]. rewrite Reqb_false by assumption.
  cbn [nlog]. rewrite Rltb_true by assumption.
  cbn [nneg of_Z ndiv].
  rewrite Reqb_false by (intros H; apply eq_IZR in H; contradiction).
  cbn [nneg nmul nexp of_Z]. rewrite Rmult_0_r, exp_0, Rmult_1_r. reflexivity.
Qed.

(** With no step at all ([total_steps = 0]) the decay rate is infinite and
    the value at step 0 is NaN. *)
Lemma exp_sched_no_steps (a b : R) :
  (0 < a)%R -> (0 < b < a)%R ->
  exp_sched (Fin a) (Fin b) 0 0 = Ok NaN.
Proof.
  intros Ha Hb. unfold exp_sched, py_div. rewrite Reqb_false by lra.
  cbn [rbind ndiv]. rewrite Reqb_false by lra.
  assert (Hq : (0 < b / a < 1)%R).
  { split.
    - apply Rdiv_lt_0_compat; lra.
    - apply (Rmult_lt_reg_r a); [lra|]. unfold Rdiv.
      rewrite Rmult_assoc, Rinv_l by lra. lra. }
  cbn [nlog]. rewrite Rltb_true by lra.
  cbn [nneg of_Z ndiv]. rewrite Reqb_true by reflexivity.
  pose proof (ln_neg Hq) as Hln.
  rewrite inf_of_sign_pos by lra.
  cbn [nneg nmul of_Z]. rewrite inf_of_sign_zero by lra. reflexivity.
Qed.

(** [Scheduler(1.0, 0.01, 100, 4, 1)], the learning-rate scheduler that
    [fit] builds for four samples and one epoch: with
    [total_steps = 4 // 100 = 0] the decay rate is infinite and the first
    step returns NaN. *)
Lemma step_0_not_start_val :
  Scheduler_init (Fin 1) (Fin (1 / 100)) 100 4 1 exp_sched = Ok sched_4_1 /\
  fst (step sched_4_1 0) = Ok NaN /\
  fst (step sched_4_1 0) <> Ok (start_val sched_4_1).
Proof.
  assert (H : fst (step sched_4_1 0) = Ok NaN).
  { unfold step. cbn -[exp_sched].
    rewrite exp_sched_no_steps by lra. reflexivity. }
  repeat split.
  - exact H.
  - rewrite H. cbn. discriminate.
Qed.

(** C2, counterexample: the decay function is an argument of the
    constructor, and [step(0)] returns what it returns:
    [Scheduler(1.0, 0.01, 1, 10, 1, decay_fn=lambda s, e, i, n: e).step(0)]
    is the end value 0.01, not the start value 1.0. *)
Lemma step_0_replaced_decay :
  Scheduler_init (Fin 1) (Fin (1 / 100)) 1 10 1 (fun _ e _ _ => Ok e)
    = Ok sched_to_end /\
  (0 < step_size sched_to_end)%Z /\
  fst (step sched_to_end 0) = Ok (Fin (1 / 100)) /\
  fst (step sched_to_end 0) <> Ok (start_val sched_to_end).
Proof.
  split; [reflexivity|]. split; [reflexivity|].
  assert (H : fst (step sched_to_end 0) = Ok (Fin (1 / 100))) by reflexivity.
  split; [exact H|]. rewrite H. cbn [start_val sched_to_end].
  intros E. inversion E. lra.
Qed.

(** C2 (amended): for a scheduler of positive step size, [step(n)] with
    [n] a multiple of the step size sets [current_value] to
    [decay_fn(start_val, end_val, current_step, total_steps)] and then
    increments [current_step] (an exception of [decay_fn] propagates and
    assigns nothing); with [n] not a multiple it returns [current_value] and
    changes nothing.  The first call [step(0)] of a new scheduler returns
    [decay_fn(start_val, end_val, 0, total_steps)]; for the exponential
    decay that is [start_val], when the ratio [end_val/start_val] is a
    positive number in the range of doubles and [total_steps] is not zero
    (and a double holds it exactly). *)
Theorem scheduler_step_spec :
  (forall (s : Scheduler) (n : Z), (0 < step_size s)%Z ->
     ((n mod step_size s = 0)%Z ->
        (forall v,
           decay_fn s (start_val s) (end_val s) (current_step s) (total_steps s) = Ok v ->
           exists s', step s n = (Ok v, s') /\
             current_value s' = v /\
             current_step s' = (current_step s + 1)%Z /\
             start_val s' = start_val s /\ end_val s' = end_val s /\
             step_size s' = step_size s /\ total_steps s' = total_steps s /\
             decay_fn s' = decay_fn s) /\
        (forall e,
           decay_fn s (start_val s) (end_val s) (current_step s) (total_steps s) = Err e ->
           step s n = (Err e, s))) /\
     ((n mod step_size s <> 0)%Z -> step s n = (Ok (current_value s), s))) /\
  (forall (a b : num) (size samples epochs : Z)
          (f : num -> num -> Z -> Z -> result num),
     (0 < size)%Z ->
     exists s, Scheduler_init a b size samples epochs f = Ok s /\
               fst (step s 0) = f a b 0%Z ((samples * epochs) / size)%Z) /\
  (forall (a b : R) (size samples epochs : Z),
     (0 < size)%Z -> a <> 0%R -> ratio_in_range (b / a) ->
     ((samples * epochs) / size <> 0)%Z ->
     exact_int ((samples * epochs) / size) ->
     exists s, Scheduler_init (Fin a) (Fin b) size samples epochs exp_sched = Ok s /\
               fst (step s 0) = Ok (Fin a)).
Proof.
  assert (Hfirst : forall (a b : num) (size samples epochs : Z)
            (f : num -> num -> Z -> Z -> result num),
            (0 < size)%Z ->
            exists s, Scheduler_init a b size samples epochs f = Ok s /\
                      fst (step s 0) = f a b 0%Z ((samples * epochs) / size)%Z).
  { intros a b size samples epochs f Hsz. unfold Scheduler_init.
    replace (size =? 0)%Z with false by (symmetry; apply Z.eqb_neq; lia).
    eexists. split; [reflexivity|].
    unfold step. cbn [step_size start_val end_val current_step total_steps decay_fn].
    replace (size =? 0)%Z with false by (symmetry; apply Z.eqb_neq; lia).
    rewrite Zmod_0_l. cbn [Z.eqb].
    now destruct (f a b 0%Z ((samples * epochs) / size)%Z). }
  split; [|split; [exact Hfirst|]].
  - intros s n Hpos. split.
    + intros Hmod. split.
      * intros v Hd. exists (set_progress s v).
        rewrite (step_multiple s n Hpos Hmod Hd). cbn. repeat split.
      * intros e Hd. now apply step_multiple_raises.
    + now apply step_not_multiple.
  - intros a b size samples epochs Hsz Ha [Hq _] Ht _.
    destruct (Hfirst (Fin a) (Fin b) size samples epochs exp_sched Hsz)
      as [s [Hs Hstep]].
    exists s. split; [exact Hs|]. rewrite Hstep.
    apply exp_sched_0; [exact Ha | | exact Ht].
    pose proof (inv_pow10_pos 300). lra.
Qed.

(** [Scheduler(1.0, 0.01, 100, 1000, 20)], stepped at 0 and at 7. *)
Lemma scheduler_step_spec_witness :
  (exists s, Scheduler_init (Fin 1) (Fin (1 / 100)) 100 1000 20 exp_sched = Ok s /\
             fst (step s 0) = Ok (Fin 1)) /\
  step sched_4_1 7 = (Ok (current_value sched_4_1), sched_4_1).
Proof.
  split.
  - apply (proj2 (proj2 scheduler_step_spec) 1%R (1/100)%R 100%Z 1000%Z 20%Z).
    + lia.
    + lra.
    + apply ratio_in_range_percent. lra.
    + vm_compute. discriminate.
    + vm_compute. discriminate.
  - apply (proj2 (proj1 scheduler_step_spec sched_4_1 7%Z ltac:(cbn; lia))).
    vm_compute. discriminate.
Defined.

(* ================================================================== *)
(** * Scheduler: construction *)
(* ================================================================== *)

Lemma Scheduler_init_ok (a b : num) (size samples epochs : Z)
    (f : num -> num -> Z -> Z -> result num) :
  size <> 0%Z ->
  Scheduler_init a b size samples epochs f =
    Ok {| start_val := a; end_val := b; step_size := size;
          n_samples := samples; n_epochs := epochs; decay_fn := f;
          current_step := 0; current_value := a;
          total_steps := (samples * epochs) / size |}.
Proof.
  intros H. unfold Scheduler_init.
  now replace (size =? 0)%Z with false by (symmetry; now apply Z.eqb_neq).
Qed.

Lemma exp_sched_start_zero (b : num) (i n_steps : Z) :
  exp_sched (Fin 0) b i n_steps = Err ZeroDivisionError.
Proof. unfold exp_sched, py_div. now rewrite Reqb_true. Qed.

Lemma exp_sched_end_zero (a : R) (n_steps : Z) :
  a <> 0%R -> exp_sched (Fin a) (Fin 0) 0 n_steps = Ok NaN.
Proof.
  intros Ha. unfold exp_sched, py_div, of_Z. rewrite Reqb_false by assumption.
  cbn [rbind ndiv]. rewrite Reqb_false by assumption.
  assert (Hq : (0 / a = 0)%R) by (unfold Rdiv; apply Rmult_0_l).
  cbn [nlog]. rewrite Hq. clear Hq.
  rewrite Rltb_false by apply Rle_refl. rewrite Reqb_true by reflexivity.
  cbn [nneg of_Z ndiv].
  destruct (Z.eq_dec n_steps 0) as [-> | Hn].
  - rewrite Reqb_true by reflexivity. cbn [nneg nmul].
    rewrite inf_of_sign_zero by lra. reflexivity.
  - rewrite Reqb_false by (intros H; apply eq_IZR in H; contradiction).
    destruct (Z.lt_total n_steps 0) as [Hlt | [Heq | Hgt]]; [| contradiction |].
    + apply IZR_lt in Hlt. rewrite inf_of_sign_neg by assumption.
      cbn [nneg nmul]. rewrite inf_of_sign_zero by lra. reflexivity.
    + apply IZR_lt in Hgt. rewrite inf_of_sign_pos by assumption.
      cbn [nneg nmul]. rewrite inf_of_sign_zero by lra. reflexivity.
Qed.

(** C7, counterexample: [Scheduler(0.0, 1.0, 100, 1000, 20)] is
    constructed, not rejected, and its [step] is called: the division by
    the zero start value is met there. *)
Lemma scheduler_start_zero_constructed :
  Scheduler_init (Fin 0) (Fin 1) 100 1000 20 exp_sched = Ok sched_start_zero /\
  step sched_start_zero 0 = (Err ZeroDivisionError, sched_start_zero).
Proof.
  split.
  - reflexivity.
  - unfold step. cbn -[exp_sched]. now rewrite exp_sched_start_zero.
Qed.

(** C7 (amended): a step size of zero is rejected at construction with
    [ZeroDivisionError]; the constructor checks nothing else, so a
    scheduler whose start or end value is zero is constructed, and its first
    [step] under the exponential decay raises [ZeroDivisionError] (zero
    start value) or returns NaN (zero end value). *)
Theorem scheduler_init_checks_step_size_only :
  (forall a b samples epochs f,
     Scheduler_init a b 0 samples epochs f = Err ZeroDivisionError) /\
  (forall a b size samples epochs f, size <> 0%Z ->
     exists s, Scheduler_init a b size samples epochs f = Ok s /\
               start_val s = a /\ end_val s = b /\ current_value s = a) /\
  (forall b size samples epochs, size <> 0%Z ->
     exists s, Scheduler_init (Fin 0) b size samples epochs exp_sched = Ok s /\
               step s 0 = (Err ZeroDivisionError, s)) /\
  (forall a size samples epochs, size <> 0%Z -> a <> 0%R ->
     exists s, Scheduler_init (Fin a) (Fin 0) size samples epochs exp_sched = Ok s /\
               fst (step s 0) = Ok NaN).
Proof.
  repeat split.
  - intros a b size samples epochs f Hs. eexists. split.
    + now apply Scheduler_init_ok.
    + repeat split.
  - intros b size samples epochs Hs. eexists. split.
    + now apply Scheduler_init_ok.
    + unfold step.
      cbn [step_size start_val end_val current_step total_steps decay_fn].
      replace (size =? 0)%Z with false by (symmetry; now apply Z.eqb_neq).
      rewrite Zmod_0_l. cbn [Z.eqb]. now rewrite exp_sched_start_zero.
  - intros a size samples epochs Hs Ha. eexists. split.
    + now apply Scheduler_init_ok.
    + unfold step.
      cbn [step_size start_val end_val current_step total_steps decay_fn].
      replace (size =? 0)%Z with false by (symmetry; now apply Z.eqb_neq).
      rewrite Zmod_0_l. cbn [Z.eqb]. now rewrite exp_sched_end_zero.
Qed.

(** [Scheduler(0.0, 1.0, 100, 1000, 20)] and [Scheduler(1.0, 0.0, 100, 1000, 20)]. *)
Lemma scheduler_init_checks_step_size_only_witness :
  (exists s, Scheduler_init (Fin 0) (Fin 1) 100 1000 20 exp_sched = Ok s /\
             step s 0 = (Err ZeroDivisionError, s)) /\
  (exists s, Scheduler_init (Fin 1) (Fin 0) 100 1000 20 exp_sched = Ok s /\
             fst (step s 0) = Ok NaN).
Proof.
  split.
  - apply (proj1 (proj2 (proj2 scheduler_init_checks_step_size_only))
             (Fin 1) 100%Z 1000%Z 20%Z).
    lia.
  - apply (proj2 (proj2 (proj2 scheduler_init_checks_step_size_only))
             1%R 100%Z 1000%Z 20%Z).
    + lia.
    + lra.
Defined.

(* ================================================================== *)
(** * Facts about the array operations *)
(* ================================================================== *)

Lemma zipw_length {A B C} (g : A -> B -> C) l m :
  length l = length m -> length (zipw g l m) = length l.
Proof.
  intros H. unfold zipw. rewrite length_map, length_combine, H.
  apply Nat.min_id.
Qed.

Lemma nth_zipw {A B C} (g : A -> B -> C) l m i da db dc :
  i < length l -> i < length m ->
  nth i (zipw g l m) dc = g (nth i l da) (nth i m db).
Proof.
  revert m i. induction l as [|a l IH]; intros [|b m] [|i] Hl Hm;
    cbn in *; try lia; try reflexivity.
  apply IH; lia.
Qed.

Lemma rmap_pure {A B} (f : A -> result B) (g : A -> B) (l : list A) :
  (forall a, In a l -> f a = Ok (g a)) -> rmap f l = Ok (map g l).
Proof.
  induction l as [|a l IH]; intros H; cbn; [reflexivity|].
  rewrite (H a (or_introl eq_refl)). cbn.
  rewrite IH by (intros; apply H; now right). reflexivity.
Qed.

Lemma rmap2_pure {A B C} (f : A -> B -> result C) (g : A -> B -> C) l m :
  (forall a b, In (a, b) (combine l m) -> f a b = Ok (g a b)) ->
  rmap2 f l m = Ok (zipw g l m).
Proof.
  revert m. induction l as [|a l IH]; intros [|b m] H; cbn; try reflexivity.
  rewrite (H a b (or_introl eq_refl)). cbn.
  unfold zipw in IH. rewrite IH by (intros; apply H; now right). reflexivity.
Qed.

Lemma bcast_same_length {A B C} (f : A -> B -> result C) a b :
  length a = length b -> bcast f a b = rmap2 f a b.
Proof. intros H. unfold bcast. now rewrite H, Nat.eqb_refl. Qed.

Lemma bcast_into_same_length {A B} (f : A -> B -> result A) a b :
  length a = length b -> bcast_into f a b = rmap2 f a b.
Proof. intros H. unfold bcast_into. now rewrite H, Nat.eqb_refl. Qed.

(** A one-element axis against any axis: the element is repeated. *)
Lemma bcast_one {A B C} (f : A -> B -> result C) (g : A -> B -> C) s b :
  (forall y, In y b -> f s y = Ok (g s y)) ->
  bcast f [s] b = Ok (map (g s) b).
Proof.
  intros H. unfold bcast. cbn [length].
  destruct (1 =? length b) eqn:E.
  - apply Nat.eqb_eq in E. destruct b as [|y [|z b]]; cbn in E; try discriminate.
    cbn. now rewrite (H y (or_introl eq_refl)).
  - now apply rmap_pure.
Qed.

Lemma concat_length_const {A} (l : list (list A)) (n : nat) :
  Forall (fun row => length row = n) l -> length (concat l) = length l * n.
Proof.
  induction 1 as [|row l Hr _ IH]; cbn; [reflexivity|].
  rewrite length_app, IH, Hr. reflexivity.
Qed.

(* ================================================================== *)
(** * The object monad *)
(* ================================================================== *)

Lemma bind_ok {A B} (c : M A) (f : A -> M B) s a s' :
  c s = (Ok a, s') -> bind c f s = f a s'.
Proof. intros H. unfold bind. now rewrite H. Qed.

Lemma bind_err {A B} (c : M A) (f : A -> M B) s e s' :
  c s = (Err e, s') -> bind c f s = (Err e, s').
Proof. intros H. unfold bind. now rewrite H. Qed.

Lemma reads_ret {A} (a : A) : reads (ret a).
Proof. intros s. reflexivity. Qed.

Lemma reads_lift {A} (r : result A) : reads (lift r).
Proof. intros s. reflexivity. Qed.

Lemma reads_get_self : reads get_self.
Proof. intros s. reflexivity. Qed.

Lemma reads_bind {A B} (c : M A) (f : A -> M B) :
  reads c -> (forall a, reads (f a)) -> reads (bind c f).
Proof.
  intros Hc Hf s. unfold bind. specialize (Hc s).
  destruct (c s) as [[a|e] s']; cbn in Hc; subst s'.
  - apply Hf.
  - reflexivity.
Qed.

Lemma reads_mmap {A B} (f : A -> M B) (l : list A) :
  (forall a, reads (f a)) -> reads (mmap f l).
Proof.
  intros Hf. induction l as [|a l IH]; cbn [mmap].
  - apply reads_ret.
  - apply reads_bind; [apply Hf|]. intros b.
    apply reads_bind; [apply IH|]. intros bs. apply reads_ret.
Qed.

(* ================================================================== *)
(** * Best matching unit *)
(* ================================================================== *)

Lemma nleb_not_nan_l (a b : num) : nleb a b = true -> isnan a = false.
Proof. destruct a, b; cbn; intros; congruence. Qed.

Lemma nltb_not_nan_r (a b : num) : nltb a b = true -> isnan b = false.
Proof. destruct a, b; cbn; intros; congruence. Qed.

Lemma nltb_not_nleb (a b : num) : nltb a b = true -> nleb b a = false.
Proof.
  destruct a, b; cbn; intros H; try congruence.
  apply Rltb_iff in H. now apply Rleb_false.
Qed.

(** The least element was met already, at [besti]. *)
Lemma argmin_from_keeps (m : num) (besti k : nat) (l : list num) :
  (forall a, In a l -> nleb m a = true) ->
  argmin_from m besti k l = besti.
Proof.
  revert k. induction l as [|a l IH]; intros k H; cbn; [reflexivity|].
  assert (Ha : nleb m a = true) by (apply H; now left).
  rewrite (nleb_not_nan_l _ _ Ha), Ha. cbn.
  apply IH. intros; apply H; now right.
Qed.

(** The least element is still ahead, at offset [p], and everything before
    it is strictly greater. *)
Lemma argmin_from_finds (l : list num) :
  forall (p : nat) (best : num) (besti k : nat),
  p < length l ->
  nltb (nth p l NaN) best = true ->
  (forall j, j < p -> nltb (nth p l NaN) (nth j l NaN) = true) ->
  (forall j, j < length l -> nleb (nth p l NaN) (nth j l NaN) = true) ->
  argmin_from best besti k l = k + p.
Proof.
  induction l as [|a l IH]; intros p best besti k Hp Hbest Hbefore Hall;
    [cbn in Hp; lia|].
  cbn [argmin_from]. rewrite (nltb_not_nan_r _ _ Hbest).
  destruct p as [|p].
  - cbn [nth] in *. rewrite (nltb_not_nleb _ _ Hbest). cbn [negb].
    rewrite argmin_from_keeps; [lia|].
    intros b Hb. destruct (In_nth _ _ NaN Hb) as [j [Hj <-]].
    apply (Hall (S j)). cbn; lia.
  - cbn [nth length] in *.
    assert (Hrec : forall b bi, nltb (nth p l NaN) b = true ->
                     argmin_from b bi (S k) l = S k + p).
    { intros b bi Hb. apply IH; [lia | exact Hb | |].
      - intros j Hj. apply (Hbefore (S j)). lia.
      - intros j Hj. apply (Hall (S j)). lia. }
    destruct (negb (nleb best a)).
    + rewrite Hrec; [lia|]. apply (Hbefore 0). lia.
    + rewrite Hrec; [lia | exact Hbest].
Qed.

(** [np.argmin] returns the first index of the least element. *)
Lemma argmin_first (l : list num) (i : nat) :
  i < length l ->
  (forall j, j < length l -> nleb (nth i l NaN) (nth j l NaN) = true) ->
  (forall j, j < i -> nltb (nth i l NaN) (nth j l NaN) = true) ->
  argmin l = Ok i.
Proof.
  intros Hi Hall Hbefore. destruct l as [|a l]; [cbn in Hi; lia|].
  cbn [argmin]. f_equal. destruct i as [|i].
  - cbn [nth] in *. apply argmin_from_keeps.
    intros b Hb. destruct (In_nth _ _ NaN Hb) as [j [Hj <-]].
    apply (Hall (S j)). cbn; lia.
  - cbn [nth length] in *.
    rewrite (@argmin_from_finds l i a 0 1); [lia | lia | | |].
    + apply (Hbefore 0). lia.
    + intros j Hj. apply (Hbefore (S j)). lia.
    + intros j Hj. apply (Hall (S j)). lia.
Qed.

Lemma argmin_from_lt (l : list num) :
  forall best besti k, besti < k -> argmin_from best besti k l < k + length l.
Proof.
  induction l as [|a l IH]; intros best besti k H; cbn; [lia|].
  destruct (isnan best); [lia|].
  destruct (negb (nleb best a)).
  - specialize (IH a k (S k)). lia.
  - specialize (IH best besti (S k)). lia.
Qed.

(** [np.argmin] on a non-empty array returns one of its indices. *)
Lemma argmin_ok (l : list num) :
  l <> [] -> exists i, argmin l = Ok i /\ i < length l.
Proof.
  destruct l as [|a l]; [congruence|]. intros _.
  eexists. split; [reflexivity|].
  pose proof (@argmin_from_lt l a 0 1). cbn. lia.
Qed.

Lemma reads_find_bmu (x : vec) : reads (_find_bmu x).
Proof.
  unfold _find_bmu. apply reads_bind; [apply reads_get_self|]. intros self.
  apply reads_bind; [apply reads_lift|]. intros d.
  apply reads_bind; [apply reads_lift|]. intros i. apply reads_lift.
Qed.

Lemma find_bmu_eq (x : vec) (s : SOM) (D : dists) (i : nat) :
  som_dist_fn s x (weights s) = Ok D ->
  argmin (concat D) = Ok i ->
  _find_bmu x s = (unravel_index i (grid_sz s), s).
Proof.
  intros HD Hi. unfold _find_bmu, bind, get_self, lift. now rewrite HD, Hi.
Qed.

(** C3: when cell [i] of the flattened distance array is the first one
    that attains the least distance to [x], [_find_bmu] returns its
    coordinate [(i // cols, i % cols)] and leaves the map as it is. *)
Theorem find_bmu_first_minimum (s : SOM) (x : vec) (D : dists) (i : nat) :
  som_dist_fn s x (weights s) = Ok D ->
  length (concat D) = fst (grid_sz s) * snd (grid_sz s) ->
  i < length (concat D) ->
  (forall j, j < length (concat D) ->
     nleb (nth i (concat D) NaN) (nth j (concat D) NaN) = true) ->
  (forall j, j < i ->
     nltb (nth i (concat D) NaN) (nth j (concat D) NaN) = true) ->
  _find_bmu x s = (Ok (i / snd (grid_sz s), i mod snd (grid_sz s)), s).
Proof.
  intros HD Hlen Hi Hall Hbefore.
  rewrite (find_bmu_eq x s HD (argmin_first _ Hi Hall Hbefore)).
  unfold unravel_index. destruct (grid_sz s) as [rows cols]. cbn [fst snd] in *.
  replace (i <? rows * cols) with true by (symmetry; apply Nat.ltb_lt; lia).
  reflexivity.
Qed.

(* ================================================================== *)
(** * Shapes *)
(* ================================================================== *)

Lemma Forall_zipw {A B C} (P : A -> Prop) (Q : B -> Prop) (R : C -> Prop)
    (g : A -> B -> C) l m :
  Forall P l -> Forall Q m -> (forall a b, P a -> Q b -> R (g a b)) ->
  Forall R (zipw g l m).
Proof.
  intros Hl. revert m. induction Hl as [|a l Ha Hl IH]; intros m Hm Hg.
  - constructor.
  - destruct Hm as [|b m Hb Hm]; [constructor|].
    cbn. constructor; [now apply Hg | now apply IH].
Qed.

Lemma rmap_Forall {A B} (P : A -> Prop) (f : A -> result B) (g : A -> B) l :
  Forall P l -> (forall a, P a -> f a = Ok (g a)) -> rmap f l = Ok (map g l).
Proof.
  intros Hl Hf. apply rmap_pure. rewrite Forall_forall in Hl.
  intros a Ha. apply Hf. now apply Hl.
Qed.

Lemma rmap2_Forall {A B C} (P : A -> Prop) (Q : B -> Prop)
    (f : A -> B -> result C) (g : A -> B -> C) l m :
  Forall P l -> Forall Q m -> (forall a b, P a -> Q b -> f a b = Ok (g a b)) ->
  rmap2 f l m = Ok (zipw g l m).
Proof.
  intros Hl Hm Hf. apply rmap2_pure. rewrite Forall_forall in Hl, Hm.
  intros a b Hab. apply Hf.
  - apply Hl. eapply in_combine_l; eassumption.
  - apply Hm. eapply in_combine_r; eassumption.
Qed.

Lemma shape2_map {A B} (P : A -> Prop) (Q : B -> Prop) (f : A -> B) l rows cols :
  shape2 P l rows cols -> (forall a, P a -> Q (f a)) ->
  shape2 Q (map (map f) l) rows cols.
Proof.
  intros [Hlen Hrows] Hf. split; [now rewrite length_map|].
  apply Forall_map. eapply Forall_impl; [|exact Hrows]. cbn.
  intros row [Hr Hc]. split; [now rewrite length_map|].
  apply Forall_map. eapply Forall_impl; [|exact Hc]. exact Hf.
Qed.

Lemma shape2_tabulate {A} (Q : A -> Prop) (f : nat -> nat -> A) rows cols :
  (forall r c, Q (f r c)) ->
  shape2 Q (map (fun r => map (fun c => f r c) (seq 0 cols)) (seq 0 rows))
         rows cols.
Proof.
  intros Hf. split; [now rewrite length_map, length_seq|].
  apply Forall_map, Forall_forall. intros r _. split.
  - now rewrite length_map, length_seq.
  - apply Forall_map, Forall_forall. intros c _. apply Hf.
Qed.

Lemma shape2_zipw {A B C} (P : A -> Prop) (Q : B -> Prop) (R : C -> Prop)
    (g : A -> B -> C) l m rows cols :
  shape2 P l rows cols -> shape2 Q m rows cols ->
  (forall a b, P a -> Q b -> R (g a b)) ->
  shape2 R (zipw (zipw g) l m) rows cols.
Proof.
  intros [Hl Hlr] [Hm Hmr] Hg. split.
  - rewrite zipw_length; congruence.
  - eapply Forall_zipw; [exact Hlr | exact Hmr |]. cbn.
    intros a b [Ha HPa] [Hb HQb]. split.
    + rewrite zipw_length; congruence.
    + eapply Forall_zipw; eassumption.
Qed.

(** Two arrays of one shape: broadcasting pairs the entries up. *)
Lemma bcast2_shape2 {A B C} (P : A -> Prop) (Q : B -> Prop)
    (f : A -> B -> result C) (g : A -> B -> C) l m rows cols :
  shape2 P l rows cols -> shape2 Q m rows cols ->
  (forall a b, P a -> Q b -> f a b = Ok (g a b)) ->
  bcast (bcast f) l m = Ok (zipw (zipw g) l m).
Proof.
  intros [Hl Hlr] [Hm Hmr] Hf.
  rewrite bcast_same_length by congruence.
  eapply rmap2_Forall; [exact Hlr | exact Hmr |]. cbn.
  intros a b [Ha HPa] [Hb HQb].
  rewrite bcast_same_length by congruence.
  eapply rmap2_Forall; eassumption.
Qed.

Lemma bcast_into2_shape2 {A B} (P : A -> Prop) (Q : B -> Prop)
    (f : A -> B -> result A) (g : A -> B -> A) l m rows cols :
  shape2 P l rows cols -> shape2 Q m rows cols ->
  (forall a b, P a -> Q b -> f a b = Ok (g a b)) ->
  bcast_into (bcast_into f) l m = Ok (zipw (zipw g) l m).
Proof.
  intros [Hl Hlr] [Hm Hmr] Hf.
  rewrite bcast_into_same_length by congruence.
  eapply rmap2_Forall; [exact Hlr | exact Hmr |]. cbn.
  intros a b [Ha HPa] [Hb HQb].
  rewrite bcast_into_same_length by congruence.
  eapply rmap2_Forall; eassumption.
Qed.

Lemma rmap2_shape2 {A B} (P : A -> Prop) (f : A -> result B) (g : A -> B)
    l rows cols :
  shape2 P l rows cols -> (forall a, P a -> f a = Ok (g a)) ->
  rmap (rmap f) l = Ok (map (map g) l).
Proof.
  intros [_ Hrows] Hf. eapply rmap_Forall; [exact Hrows|]. cbn.
  intros row [_ Hc]. eapply rmap_Forall; eassumption.
Qed.

Lemma shape2_concat_length {A} (P : A -> Prop) (l : list (list A)) rows cols :
  shape2 P l rows cols -> length (concat l) = rows * cols.
Proof.
  intros [Hlen Hrows]. rewrite (@concat_length_const _ _ cols).
  - now rewrite Hlen.
  - eapply Forall_impl; [|exact Hrows]. cbn. now intros row [Hr _].
Qed.

Lemma vsub_same_length (a b : vec) :
  length a = length b -> vsub a b = Ok (zipw nsub a b).
Proof.
  intros H. unfold vsub. rewrite bcast_same_length by assumption.
  now apply rmap2_pure.
Qed.

(** The default distance function on a well-shaped grid. *)
Lemma dist_fn_value (W : grid) rows cols dim (x : vec) :
  has_shape W rows cols dim -> length x = dim ->
  dist_fn x (Some W) = Ok (map (map (fun cell => norm (zipw nsub cell x))) W).
Proof.
  intros HW Hx. cbn [dist_fn]. eapply rmap2_shape2; [exact HW|]. cbn.
  intros cell Hcell. rewrite vsub_same_length by congruence. reflexivity.
Qed.

Lemma dist_fn_ok (s : SOM) (W : grid) (dim : nat) (x : vec) :
  som_dist_fn s = dist_fn -> weights s = Some W ->
  has_shape W (fst (grid_sz s)) (snd (grid_sz s)) dim -> length x = dim ->
  dist_ok s x.
Proof.
  intros Hd Hw HW Hx. unfold dist_ok. rewrite Hd, Hw.
  eexists. split; [now apply (dist_fn_value x HW)|].
  apply (@shape2_concat_length _ (fun _ => True)).
  eapply shape2_map; [exact HW|]. intros a _. exact I.
Qed.

Lemma find_bmu_ok (s : SOM) (x : vec) :
  dist_ok s x -> 0 < fst (grid_sz s) * snd (grid_sz s) ->
  exists br bc, _find_bmu x s = (Ok (br, bc), s) /\
                br < fst (grid_sz s) /\ bc < snd (grid_sz s).
Proof.
  intros [D [HD Hlen]] Hpos.
  destruct (@argmin_ok (concat D)) as [i [Hi Hlt]].
  { intros E. rewrite E in Hlen. cbn in Hlen. lia. }
  rewrite (find_bmu_eq x s HD Hi). unfold unravel_index.
  destruct (grid_sz s) as [rows cols]. cbn [fst snd] in *.
  replace (i <? rows * cols) with true by (symmetry; apply Nat.ltb_lt; lia).
  exists (i / cols), (i mod cols). split; [reflexivity|]. split.
  - apply Nat.Div0.div_lt_upper_bound. lia.
  - apply Nat.mod_upper_bound. lia.
Qed.

(* ================================================================== *)
(** * A map with a tie *)
(* ================================================================== *)

Lemma norm_1 (a : R) : norm [Fin a] = Fin (Rabs a).
Proof.
  unfold norm, nsum. cbn [map fold_left nmul nadd nsqrt].
  rewrite Rleb_true by nra. f_equal.
  replace (0 + a * a)%R with (Rsqr a) by (unfold Rsqr; ring).
  apply sqrt_Rsqr_abs.
Qed.

(** Compares absolute values of concrete numbers. *)
Ltac rabs := unfold Rabs; repeat destruct Rcase_abs; lra.

Lemma som_tie_dist_fn :
  som_dist_fn som_tie [Fin 0] (weights som_tie) = Ok som_tie_distances.
Proof.
  cbn [som_dist_fn weights som_tie].
  rewrite (@dist_fn_value _ 2 2 1 [Fin 0]); [| repeat constructor | reflexivity].
  unfold zipw. cbn [map combine fst snd nsub nadd nneg].
  rewrite !norm_1. reflexivity.
Qed.

Lemma find_bmu_first_minimum_witness :
  _find_bmu [Fin 0] som_tie = (Ok (0, 1), som_tie).
Proof.
  apply (@find_bmu_first_minimum som_tie [Fin 0] som_tie_distances 1
           som_tie_dist_fn eq_refl).
  - cbn. lia.
  - intros j Hj. cbn in Hj.
    destruct j as [|[|[|[|j]]]]; try lia; cbn; apply Rleb_true; rabs.
  - intros j Hj. assert (j = 0) as -> by lia. cbn. apply Rltb_true. rabs.
Defined.

(* ================================================================== *)
(** * The update rule *)
(* ================================================================== *)

Lemma nth_map_lt {A B} (f : A -> B) (l : list A) (i : nat) (d : A) (d' : B) :
  i < length l -> nth i (map f l) d' = f (nth i l d).
Proof.
  intros H. rewrite (nth_indep _ d' (f d)) by now rewrite length_map.
  apply map_nth.
Qed.

Lemma scaled_weights_shape rows cols lr sigma bmu :
  shape2 (fun s : list num => length s = 1)
         (scaled_weights rows cols lr sigma bmu) rows cols.
Proof. unfold scaled_weights. now apply shape2_tabulate. Qed.

Lemma update_delta_shape rows cols dim W x lr sigma bmu :
  has_shape W rows cols dim -> length x = dim ->
  has_shape (update_delta rows cols W x lr sigma bmu) rows cols dim.
Proof.
  intros HW Hx. unfold update_delta, has_shape.
  eapply shape2_zipw.
  - apply scaled_weights_shape.
  - eapply shape2_map with (Q := fun d : list num => length d = dim); [exact HW|].
    cbn. intros cell Hc. rewrite zipw_length; congruence.
  - cbn. intros s d _ Hd. now rewrite length_map.
Qed.

(** The grid keeps its shape through the update. *)
Lemma updated_shape rows cols dim W x lr sigma bmu :
  has_shape W rows cols dim -> length x = dim ->
  has_shape (updated rows cols W x lr sigma bmu) rows cols dim.
Proof.
  intros HW Hx. unfold updated, has_shape.
  eapply shape2_zipw with (Q := fun cell : list num => length cell = dim);
    [exact HW | now apply update_delta_shape |].
  cbn. intros a b Ha Hb. rewrite zipw_length; congruence.
Qed.

(** [_update_weights] on a well-shaped grid, once the BMU is known. *)
Lemma update_weights_eq (s : SOM) (W : grid) (x : vec) (lr sigma : num)
    (dim : nat) (bmu : nat * nat) :
  weights s = Some W ->
  has_shape W (fst (grid_sz s)) (snd (grid_sz s)) dim -> length x = dim ->
  _find_bmu x s = (Ok bmu, s) ->
  _update_weights x lr sigma s =
    (Ok tt, set_weights_of s
              (Some (updated (fst (grid_sz s)) (snd (grid_sz s)) W x lr sigma bmu))).
Proof.
  intros Hw HW Hx Hbmu. unfold _update_weights.
  rewrite (bind_ok _ _ _ Hbmu).
  erewrite bind_ok by reflexivity.
  erewrite bind_ok by reflexivity.
  erewrite bind_ok by reflexivity.
  rewrite Hw.
  assert (Hscaled :
    map (map (fun h => [nmul lr h]))
      (map (map (fun d => nexp (ndiv (of_Z (- d)) (nmul (Fin 2) (nmul sigma sigma)))))
         (map (fun r => map (fun c =>
                 ((Z.of_nat (fst bmu) - Z.of_nat r) ^ 2 +
                  (Z.of_nat (snd bmu) - Z.of_nat c) ^ 2)%Z)
                 (seq 0 (snd (grid_sz s))))
              (seq 0 (fst (grid_sz s)))))
    = scaled_weights (fst (grid_sz s)) (snd (grid_sz s)) lr sigma bmu).
  { unfold scaled_weights. rewrite !map_map. apply map_ext. intros r.
    rewrite !map_map. reflexivity. }
  rewrite Hscaled. clear Hscaled.
  assert (Hdiff : rmap (rmap (fun cell => vsub x cell)) W =
                  Ok (map (map (fun cell => zipw nsub x cell)) W)).
  { eapply rmap2_shape2; [exact HW|]. cbn. intros cell Hc.
    apply vsub_same_length. congruence. }
  erewrite bind_ok by (unfold lift; rewrite Hdiff; reflexivity).
  assert (Hdelta :
    bcast (bcast (bcast (fun a b => Ok (nmul a b))))
      (scaled_weights (fst (grid_sz s)) (snd (grid_sz s)) lr sigma bmu)
      (map (map (fun cell => zipw nsub x cell)) W)
    = Ok (update_delta (fst (grid_sz s)) (snd (grid_sz s)) W x lr sigma bmu)).
  { unfold update_delta. eapply bcast2_shape2.
    - apply scaled_weights_shape.
    - eapply shape2_map with (Q := fun _ : list num => True); [exact HW|].
      intros; exact I.
    - cbn. intros a b Ha _. destruct a as [|h [|h' a]]; cbn in Ha; try discriminate.
      cbn [hd]. now apply bcast_one. }
  erewrite bind_ok by (unfold lift; rewrite Hdelta; reflexivity).
  assert (Hnew :
    bcast_into (bcast_into (bcast_into (fun a b => Ok (nadd a b)))) W
      (update_delta (fst (grid_sz s)) (snd (grid_sz s)) W x lr sigma bmu)
    = Ok (updated (fst (grid_sz s)) (snd (grid_sz s)) W x lr sigma bmu)).
  { unfold updated.
    eapply bcast_into2_shape2 with (Q := fun cell : list num => length cell = dim).
    - exact HW.
    - now apply update_delta_shape.
    - cbn. intros a b Ha Hb.
      rewrite bcast_into_same_length by congruence. now apply rmap2_pure. }
  erewrite bind_ok by (unfold lift; rewrite Hnew; reflexivity).
  reflexivity.
Qed.

Lemma shape2_nth {A} (P : A -> Prop) (l : list (list A)) rows cols r :
  shape2 P l rows cols -> r < rows ->
  length (nth r l []) = cols /\
  forall c d, c < cols -> P (nth c (nth r l []) d).
Proof.
  intros [Hlen Hrows] Hr. rewrite Forall_forall in Hrows.
  destruct (Hrows (nth r l [])) as [Hc HP]; [apply nth_In; lia|].
  split; [exact Hc|]. intros c d Hlt. rewrite Forall_forall in HP.
  apply HP. apply nth_In. lia.
Qed.

(** Every component of every reference vector after the update. *)
Lemma updated_at rows cols dim W x lr sigma bmu r c k :
  has_shape W rows cols dim -> length x = dim ->
  r < rows -> c < cols -> k < dim ->
  nth k (cell_at (updated rows cols W x lr sigma bmu) r c) NaN =
  nadd (nth k (cell_at W r c) NaN)
       (nmul (nmul lr (gaussian sigma (grid_dist_at bmu r c)))
             (nsub (nth k x NaN) (nth k (cell_at W r c) NaN))).
Proof.
  intros HW Hx Hr Hc Hk.
  assert (HD : has_shape (update_delta rows cols W x lr sigma bmu) rows cols dim)
    by now apply update_delta_shape.
  destruct (@shape2_nth _ _ _ _ _ r HW Hr) as [HWr HWc].
  destruct (@shape2_nth _ _ _ _ _ r HD Hr) as [HDr HDc].
  specialize (HWc c [] Hc). specialize (HDc c [] Hc). cbn in HWc, HDc.
  unfold cell_at, updated.
  rewrite (nth_zipw _ _ _ [] [] []) by (destruct HW, HD; lia).
  rewrite (nth_zipw _ _ _ [] [] []) by lia.
  rewrite (nth_zipw _ _ _ NaN NaN NaN) by lia.
  f_equal.
  (* the increment *)
  pose proof (scaled_weights_shape rows cols lr sigma bmu) as HS.
  assert (HF : shape2 (fun _ : list num => True)
                 (map (map (fun cell => zipw nsub x cell)) W) rows cols).
  { eapply shape2_map; [exact HW|]. intros; exact I. }
  destruct (@shape2_nth _ _ _ _ _ r HS Hr) as [HSr _].
  destruct (@shape2_nth _ _ _ _ _ r HF Hr) as [HFr _].
  unfold update_delta.
  rewrite (nth_zipw _ _ _ [] [] []) by (destruct HS, HF; lia).
  rewrite (nth_zipw _ _ _ [] [] []) by lia.
  unfold scaled_weights.
  rewrite (nth_map_lt _ _ 0) by (rewrite length_seq; lia).
  rewrite (nth_map_lt _ _ 0) by (rewrite length_seq; lia).
  rewrite !seq_nth by lia. cbn [hd Nat.add].
  rewrite (nth_map_lt _ _ []) by (destruct HW; lia).
  rewrite (nth_map_lt _ _ []) by lia.
  rewrite (nth_map_lt _ _ NaN) by (rewrite zipw_length; lia).
  now rewrite (nth_zipw _ _ _ NaN NaN NaN) by lia.
Qed.

Lemma grid_dist_at_bmu (bmu : nat * nat) :
  grid_dist_at bmu (fst bmu) (snd bmu) = 0%Z.
Proof. unfold grid_dist_at. rewrite !Z.sub_diag. reflexivity. Qed.

Lemma grid_dist_at_nonneg (bmu : nat * nat) (r c : nat) :
  (0 <= grid_dist_at bmu r c)%Z.
Proof. unfold grid_dist_at. nia. Qed.

Lemma exp_le_1 (t : R) : (t <= 0)%R -> (exp t <= 1)%R.
Proof.
  intros [Hlt | ->].
  - rewrite <- exp_0. left. now apply exp_increasing.
  - rewrite exp_0. lra.
Qed.

(** The Gaussian weight for a radius that is neither zero nor NaN: a
    number in (0, 1], and 1 at distance zero. *)
Lemma gaussian_range (sigma : num) (d : Z) :
  sigma <> Fin 0 -> sigma <> NaN -> (0 <= d)%Z ->
  exists h, gaussian sigma d = Fin h /\ (0 < h <= 1)%R /\ (d = 0%Z -> h = 1%R).
Proof.
  intros H0 Hnan Hd. unfold gaussian, of_Z.
  assert (Hz : (IZR (- d) <= 0)%R).
  { rewrite opp_IZR. apply IZR_le in Hd. lra. }
  assert (Hinf : exists h, nexp (ndiv (Fin (IZR (- d))) PInf) = Fin h /\
                           (0 < h <= 1)%R /\ (d = 0%Z -> h = 1%R)).
  { cbn. exists (exp 0). rewrite exp_0. repeat split; lra. }
  destruct sigma as [s | | |]; cbn [nmul]; try contradiction.
  - assert (Hs : s <> 0%R) by congruence.
    assert (Hss : (0 < 2 * (s * s))%R) by nra.
    cbn [ndiv]. rewrite Reqb_false by lra. cbn [nexp].
    eexists. split; [reflexivity|]. split; [split|].
    + apply exp_pos.
    + apply exp_le_1. unfold Rdiv.
      assert (0 < / (2 * (s * s)))%R by now apply Rinv_0_lt_compat.
      nra.
    + intros ->. cbn. unfold Rdiv. rewrite Rmult_0_l. apply exp_0.
  - rewrite inf_of_sign_pos by lra. exact Hinf.
  - rewrite inf_of_sign_pos by lra. exact Hinf.
Qed.

(** The Gaussian weight for a zero radius: NaN at distance zero, 0 at a
    positive distance. *)
Lemma gaussian_sigma_zero (d : Z) :
  gaussian (Fin 0) d =
    if (d =? 0)%Z then NaN else if (0 <? d)%Z then Fin 0 else PInf.
Proof.
  unfold gaussian, of_Z. cbn [nmul ndiv].
  rewrite Reqb_true by lra.
  destruct (Z.eqb_spec d 0) as [-> | Hne].
  - cbn. now rewrite inf_of_sign_zero.
  - destruct (Z.ltb_spec 0 d) as [Hpos | Hneg].
    + rewrite inf_of_sign_neg; [reflexivity|].
      rewrite opp_IZR. apply IZR_lt in Hpos. lra.
    + rewrite inf_of_sign_pos; [reflexivity|].
      rewrite opp_IZR. assert (d < 0)%Z by lia.
      apply IZR_lt in H. lra.
Qed.

Lemma som_unit_shape : has_shape [[[Fin 0]]] 1 1 1.
Proof. repeat constructor. Qed.

Lemma som_unit_find_bmu : _find_bmu [Fin 0] som_unit = (Ok (0, 0), som_unit).
Proof.
  apply (@find_bmu_eq [Fin 0] som_unit
           (map (map (fun cell => norm (zipw nsub cell [Fin 0]))) [[[Fin 0]]]) 0).
  - exact (dist_fn_value [Fin 0] som_unit_shape eq_refl).
  - reflexivity.
Qed.

(** C1, counterexample: for the radius [sigma = 0] the neighbourhood
    weight at the BMU is NaN, not 1, and the update writes NaN into the
    reference vector. *)
Lemma update_weights_sigma_zero :
  _find_bmu [Fin 0] som_unit = (Ok (0, 0), som_unit) /\
  gaussian (Fin 0) (grid_dist_at (0, 0) 0 0) = NaN /\
  gaussian (Fin 0) (grid_dist_at (0, 0) 0 0) <> Fin 1 /\
  _update_weights [Fin 0] (Fin 1) (Fin 0) som_unit =
    (Ok tt, set_weights_of som_unit (Some [[[NaN]]])).
Proof.
  assert (Hg : gaussian (Fin 0) (grid_dist_at (0, 0) 0 0) = NaN)
    by (rewrite gaussian_sigma_zero; reflexivity).
  split; [exact som_unit_find_bmu|]. split; [exact Hg|]. split.
  - rewrite Hg. discriminate.
  - rewrite (@update_weights_eq som_unit [[[Fin 0]]] [Fin 0] (Fin 1) (Fin 0) 1 (0, 0)
               eq_refl som_unit_shape eq_refl som_unit_find_bmu).
    unfold updated, update_delta, scaled_weights, zipw.
    cbn [map seq combine fst snd hd grid_sz som_unit]. rewrite Hg. reflexivity.
Qed.

(** C1 (amended): on a grid of shape [(rows, cols, input_dim)] with at
    least one cell, for an input vector of [input_dim] components and a
    radius [sigma] whose square does not overflow, the update finds a BMU
    [(br, bc)] and sets every [w[r,c]] to
    [w[r,c] + lr * H[r,c] * (x - w[r,c])] with
    [H[r,c] = exp(-((br-r)^2 + (bc-c)^2) / (2*sigma^2))]; when moreover the
    square of [sigma] is neither zero nor NaN ([sigma] is not NaN and is at
    least [1e-150] in magnitude), [H] is 1 at the BMU and lies in [0, 1]
    everywhere. *)
Theorem update_weights_rule (s : SOM) (W : grid) (x : vec) (lr sigma : num)
    (dim : nat) :
  weights s = Some W ->
  has_shape W (fst (grid_sz s)) (snd (grid_sz s)) dim ->
  length x = dim ->
  dist_ok s x ->
  0 < fst (grid_sz s) * snd (grid_sz s) ->
  square_no_overflow sigma ->
  exists br bc W',
    _find_bmu x s = (Ok (br, bc), s) /\
    br < fst (grid_sz s) /\ bc < snd (grid_sz s) /\
    _update_weights x lr sigma s = (Ok tt, set_weights_of s (Some W')) /\
    has_shape W' (fst (grid_sz s)) (snd (grid_sz s)) dim /\
    (forall r c k, r < fst (grid_sz s) -> c < snd (grid_sz s) -> k < dim ->
       nth k (cell_at W' r c) NaN =
       nadd (nth k (cell_at W r c) NaN)
            (nmul (nmul lr (gaussian sigma (grid_dist_at (br, bc) r c)))
                  (nsub (nth k x NaN) (nth k (cell_at W r c) NaN)))) /\
    (square_positive sigma ->
       gaussian sigma (grid_dist_at (br, bc) br bc) = Fin 1 /\
       forall r c,
         nleb (Fin 0) (gaussian sigma (grid_dist_at (br, bc) r c)) = true /\
         nleb (gaussian sigma (grid_dist_at (br, bc) r c)) (Fin 1) = true).
Proof.
  intros Hw HW Hx Hd Hpos _.
  destruct (find_bmu_ok Hd Hpos) as [br [bc [Hbmu [Hbr Hbc]]]].
  exists br, bc,
    (updated (fst (grid_sz s)) (snd (grid_sz s)) W x lr sigma (br, bc)).
  split; [exact Hbmu|]. split; [exact Hbr|]. split; [exact Hbc|].
  split; [now apply update_weights_eq with (dim := dim)|].
  split; [now apply updated_shape|].
  split; [intros r c k Hr Hc Hk; now apply updated_at with (dim := dim)|].
  intros Hsq. destruct (@square_positive_not_zero sigma Hsq) as [H0 Hnan]. split.
  - destruct (@gaussian_range sigma (grid_dist_at (br, bc) br bc) H0 Hnan
                (grid_dist_at_nonneg _ _ _)) as [h [Hh [_ H1]]].
    rewrite Hh. f_equal. apply H1. apply (grid_dist_at_bmu (br, bc)).
  - intros r c.
    destruct (@gaussian_range sigma (grid_dist_at (br, bc) r c) H0 Hnan
                (grid_dist_at_nonneg _ _ _)) as [h [Hh [[Hlo Hhi] _]]].
    rewrite Hh. cbn. split; apply Rleb_true; lra.
Qed.

Lemma som_pair_shape : has_shape [[[Fin 0]; [Fin 2]]] 1 2 1.
Proof. repeat constructor. Qed.

Lemma update_weights_rule_witness :
  exists br bc W',
    _update_weights [Fin 0] (Fin (1 / 2)) (Fin 1) som_pair =
      (Ok tt, set_weights_of som_pair (Some W')) /\
    has_shape W' 1 2 1 /\
    gaussian (Fin 1) (grid_dist_at (br, bc) br bc) = Fin 1.
Proof.
  destruct (@update_weights_rule som_pair [[[Fin 0]; [Fin 2]]] [Fin 0]
              (Fin (1 / 2)) (Fin 1) 1)
    as [br [bc [W' [_ [_ [_ [Hu [Hs [_ HH]]]]]]]]].
  - reflexivity.
  - exact som_pair_shape.
  - reflexivity.
  - exact (@dist_fn_ok som_pair _ 1 [Fin 0] eq_refl eq_refl som_pair_shape eq_refl).
  - cbn. lia.
  - exact square_no_overflow_1.
  - exists br, bc, W'. split; [exact Hu|]. split; [exact Hs|].
    exact (proj1 (HH square_positive_1)).
Defined.

(* ================================================================== *)
(** * A zero radius *)
(* ================================================================== *)

Lemma neighborhood_function_sigma_zero (s : SOM) (grid_dist : list (list Z)) :
  _neighborhood_function grid_dist (Fin 0) s =
    (Ok (map (map zero_radius_weight) grid_dist), s).
Proof.
  unfold _neighborhood_function, ret. f_equal. f_equal.
  apply map_ext. intros row. apply map_ext. intros d.
  apply gaussian_sigma_zero.
Qed.

(** C8, counterexample: for the grid distances [[0, 1]] of a [1 x 2] map
    and [sigma = 0] the neighbourhood function raises nothing; it returns
    the array [[nan, 0.]]. *)
Lemma neighborhood_sigma_zero_returns :
  _grid_distances (0, 0) som_pair = (Ok [[0%Z; 1%Z]], som_pair) /\
  _neighborhood_function [[0%Z; 1%Z]] (Fin 0) som_pair =
    (Ok [[NaN; Fin 0]], som_pair) /\
  forall e, fst (_neighborhood_function [[0%Z; 1%Z]] (Fin 0) som_pair) <> Err e.
Proof.
  split; [reflexivity|].
  rewrite neighborhood_function_sigma_zero. cbn.
  split; [reflexivity | discriminate].
Qed.

(** C8 (amended): a zero radius is neither rejected nor guarded.  The
    kernel is evaluated with the zero divisor and returns, without an
    error, NaN at grid distance 0 and 0 at every positive grid distance;
    the update of a well-shaped grid with [sigma = 0] returns without an
    error as well. *)
Theorem sigma_zero_not_rejected :
  (forall (s : SOM) (grid_dist : list (list Z)),
     _neighborhood_function grid_dist (Fin 0) s =
       (Ok (map (map zero_radius_weight) grid_dist), s)) /\
  (forall (s : SOM) (W : grid) (x : vec) (lr : num) (dim : nat),
     weights s = Some W ->
     has_shape W (fst (grid_sz s)) (snd (grid_sz s)) dim ->
     length x = dim -> dist_ok s x ->
     0 < fst (grid_sz s) * snd (grid_sz s) ->
     exists W', _update_weights x lr (Fin 0) s =
                  (Ok tt, set_weights_of s (Some W'))).
Proof.
  split.
  - apply neighborhood_function_sigma_zero.
  - intros s W x lr dim Hw HW Hx Hd Hpos.
    destruct (find_bmu_ok Hd Hpos) as [br [bc [Hbmu _]]].
    eexists.
    apply update_weights_eq with (W := W) (dim := dim) (bmu := (br, bc)); assumption.
Qed.

Lemma sigma_zero_not_rejected_witness :
  exists W', _update_weights [Fin 0] (Fin (1 / 2)) (Fin 0) som_pair =
               (Ok tt, set_weights_of som_pair (Some W')).
Proof.
  apply (proj2 sigma_zero_not_rejected som_pair [[[Fin 0]; [Fin 2]]] [Fin 0]
           (Fin (1 / 2)) 1).
  - reflexivity.
  - exact som_pair_shape.
  - reflexivity.
  - exact (@dist_fn_ok som_pair _ 1 [Fin 0] eq_refl eq_refl som_pair_shape eq_refl).
  - cbn. lia.
Defined.

(* ================================================================== *)
(** * Transform *)
(* ================================================================== *)

Lemma reads_transform (X : list vec) : reads (transform X).
Proof. unfold transform. apply reads_mmap. apply reads_find_bmu. Qed.

Lemma transform_ok (s : SOM) (X : list vec) :
  (forall x, In x X -> dist_ok s x) ->
  0 < fst (grid_sz s) * snd (grid_sz s) ->
  exists cs, transform X s = (Ok cs, s) /\ length cs = length X /\
             Forall (fun p => fst p < fst (grid_sz s) /\ snd p < snd (grid_sz s)) cs.
Proof.
  intros Hd Hpos. unfold transform.
  induction X as [|x X IH]; cbn [mmap].
  - exists []. repeat split. constructor.
  - destruct (@find_bmu_ok s x) as [br [bc [Hb [Hr Hc]]]];
      [apply Hd; now left | exact Hpos |].
    destruct IH as [cs [Hcs [Hlen Hall]]]; [intros; apply Hd; now right|].
    exists ((br, bc) :: cs).
    rewrite (bind_ok _ _ _ Hb), (bind_ok _ _ _ Hcs). cbn.
    repeat split; [now rewrite Hlen|]. constructor; [now split | exact Hall].
Qed.

(** C9: [transform] leaves the map exactly as it found it, so a second
    call on the same data returns what the first one returned (the same
    coordinates, or the same exception); on a map whose distance function
    returns a [rows x cols] array, with at least one cell, both calls
    return one coordinate per sample. *)
Theorem transform_twice (s : SOM) (X : list vec) :
  snd (transform X s) = s /\
  transform X (snd (transform X s)) = transform X s /\
  ((forall x, In x X -> dist_ok s x) ->
   0 < fst (grid_sz s) * snd (grid_sz s) ->
   exists cs,
     length cs = length X /\
     (bind (transform X) (fun c1 =>
        bind (transform X) (fun c2 => ret (c1, c2)))) s = (Ok (cs, cs), s)).
Proof.
  pose proof (reads_transform X s) as Hs.
  split; [exact Hs|]. split; [now rewrite Hs|].
  intros Hd Hpos. destruct (transform_ok X Hd Hpos) as [cs [Hcs [Hlen _]]].
  exists cs. split; [exact Hlen|].
  now rewrite (bind_ok _ _ _ Hcs), (bind_ok _ _ _ Hcs).
Qed.

Lemma transform_twice_witness :
  exists cs,
    length cs = 2 /\
    (bind (transform [[Fin 0]; [Fin 5]]) (fun c1 =>
       bind (transform [[Fin 0]; [Fin 5]]) (fun c2 => ret (c1, c2)))) som_tie
    = (Ok (cs, cs), som_tie).
Proof.
  apply (proj2 (proj2 (transform_twice som_tie [[Fin 0]; [Fin 5]]))).
  - intros x Hx.
    apply (@dist_fn_ok som_tie [[[Fin 3]; [Fin 1]]; [[Fin 1]; [Fin 2]]] 1 x
             eq_refl eq_refl).
    + repeat constructor.
    + destruct Hx as [<- | [<- | []]]; reflexivity.
  - cbn. lia.
Defined.

(* ================================================================== *)
(** * Topographic error *)
(* ================================================================== *)

Lemma sort_leb_total (a b : num) : sort_leb a b = true \/ sort_leb b a = true.
Proof.
  destruct a as [x | | |], b as [y | | |]; cbn; auto.
  destruct (Rle_dec x y) as [H | H].
  - left. now apply Rleb_true.
  - right. apply Rleb_true. lra.
Qed.

Lemma sort_leb_trans (a b c : num) :
  sort_leb a b = true -> sort_leb b c = true -> sort_leb a c = true.
Proof.
  destruct a as [x | | |], b as [y | | |], c as [z | | |]; cbn;
    intros H1 H2; try reflexivity; try discriminate.
  apply Rleb_iff in H1, H2. apply Rleb_true. lra.
Qed.

Lemma insert_by_perm (a : list num) (i : nat) (l : list nat) :
  Permutation (insert_by a i l) (i :: l).
Proof.
  induction l as [|j l IH]; cbn; [reflexivity|].
  destruct (sort_leb (nth i a NaN) (nth j a NaN)); [reflexivity|].
  rewrite IH. apply perm_swap.
Qed.

Lemma sorted_order_perm (a : list num) :
  Permutation (sorted_order a) (seq 0 (length a)).
Proof.
  unfold sorted_order. induction (seq 0 (length a)) as [|i l IH]; cbn.
  - reflexivity.
  - rewrite insert_by_perm. now constructor.
Qed.

Lemma insert_by_sorted (a : list num) (i : nat) (l : list nat) :
  StronglySorted (fun p q => sort_leb (nth p a NaN) (nth q a NaN) = true) l ->
  StronglySorted (fun p q => sort_leb (nth p a NaN) (nth q a NaN) = true)
                 (insert_by a i l).
Proof.
  induction 1 as [|j l Hl IH Hj]; cbn.
  - repeat constructor.
  - destruct (sort_leb (nth i a NaN) (nth j a NaN)) eqn:E.
    + constructor; [now constructor|]. constructor; [exact E|].
      eapply Forall_impl; [|exact Hj]. cbn. intros k Hk.
      now apply sort_leb_trans with (b := nth j a NaN).
    + constructor; [exact IH|].
      apply (Permutation_Forall (Permutation_sym (insert_by_perm a i l))).
      constructor; [|exact Hj].
      destruct (sort_leb_total (nth i a NaN) (nth j a NaN)); congruence.
Qed.

Lemma sorted_order_sorted (a : list num) :
  StronglySorted (fun p q => sort_leb (nth p a NaN) (nth q a NaN) = true)
                 (sorted_order a).
Proof.
  unfold sorted_order. induction (seq 0 (length a)) as [|i l IH]; cbn.
  - constructor.
  - now apply insert_by_sorted.
Qed.

Lemma StronglySorted_nth {A} (R : A -> A -> Prop) (l : list A) (d : A) :
  StronglySorted R l ->
  forall p q, p < q -> q < length l -> R (nth p l d) (nth q l d).
Proof.
  induction 1 as [|x l Hl IH Hx]; intros p q Hpq Hq; [cbn in Hq; lia|].
  destruct q as [|q]; [lia|]. cbn in Hq. destruct p as [|p]; cbn.
  - rewrite Forall_forall in Hx. apply Hx, nth_In. lia.
  - apply IH; lia.
Qed.

(** The sorted order honours the contract of [np.argpartition] for every
    array and every [kth]. *)
Lemma sorted_order_partitioned (a : list num) (kth : nat) :
  partitioned a kth (sorted_order a).
Proof.
  split; [apply sorted_order_perm|]. intros p q Hp Hq Hlt.
  destruct (Nat.eq_dec p q) as [-> | Hne].
  - destruct (sort_leb_total (nth (nth q (sorted_order a) 0) a NaN)
                             (nth (nth q (sorted_order a) 0) a NaN)); assumption.
  - apply (StronglySorted_nth 0 (sorted_order_sorted a)); [lia|].
    rewrite (Permutation_length (sorted_order_perm a)), length_seq. exact Hlt.
Qed.

Lemma partitioned_two_closest (d : list num) (order : list nat) :
  partitioned d 2 order -> 3 <= length d ->
  two_closest d (nth 0 order 0) (nth 1 order 0).
Proof.
  intros [Hperm Hord] Hlen.
  assert (Hol : length order = length d)
    by (rewrite (Permutation_length Hperm); apply length_seq).
  assert (Hnd : NoDup order)
    by (apply (Permutation_NoDup (Permutation_sym Hperm)), seq_NoDup).
  assert (Hin : forall p, p < length d -> nth p order 0 < length d).
  { intros p Hp.
    assert (In (nth p order 0) (seq 0 (length d)))
      by (apply (Permutation_in _ Hperm), nth_In; lia).
    apply in_seq in H. lia. }
  repeat split.
  - intros E.
    pose proof (proj1 (NoDup_nth order 0) Hnd 0 1 ltac:(lia) ltac:(lia) E). lia.
  - apply Hin. lia.
  - apply Hin. lia.
  - destruct (In_nth order j 0) as [q [Hq Hj]].
    { apply (Permutation_in _ (Permutation_sym Hperm)), in_seq. lia. }
    rewrite <- Hj. apply Hord; try lia.
    destruct q as [|[|q]]; [congruence | congruence | lia].
  - destruct (In_nth order j 0) as [q [Hq Hj]].
    { apply (Permutation_in _ (Permutation_sym Hperm)), in_seq. lia. }
    rewrite <- Hj. apply Hord; try lia.
    destruct q as [|[|q]]; [congruence | congruence | lia].
Qed.

(** What the two-closest check returns for one sample. *)
Lemma check_bmu_adjacency_eq (env : Env) (s : SOM) (x : vec) (D : dists) :
  som_dist_fn s x (weights s) = Ok D ->
  length (concat D) = fst (grid_sz s) * snd (grid_sz s) ->
  3 <= length (concat D) ->
  partitioned (concat D) 2 (argpartition_order env (concat D) 2) ->
  _check_bmu_adjacency env s x =
    Ok (far_apart (snd (grid_sz s))
          (nth 0 (argpartition_order env (concat D) 2) 0)
          (nth 1 (argpartition_order env (concat D) 2) 0)).
Proof.
  intros HD Hlen H3 Hpart.
  destruct (partitioned_two_closest Hpart H3) as [_ [H1 [H2 _]]].
  destruct Hpart as [Hperm _].
  assert (Hol : length (argpartition_order env (concat D) 2) = length (concat D))
    by (rewrite (Permutation_length Hperm); apply length_seq).
  unfold _check_bmu_adjacency, np_argpartition. rewrite HD. cbn [rbind].
  replace (2 <? length (concat D)) with true by (symmetry; apply Nat.ltb_lt; lia).
  cbn [rbind].
  destruct (argpartition_order env (concat D) 2) as [|i1 [|i2 rest]];
    cbn [length] in Hol; try lia.
  cbn [nth] in *. cbn [firstn rmap]. unfold unravel_index.
  destruct (grid_sz s) as [rows cols]. cbn [fst snd] in *.
  replace (i1 <? rows * cols) with true by (symmetry; apply Nat.ltb_lt; lia).
  replace (i2 <? rows * cols) with true by (symmetry; apply Nat.ltb_lt; lia).
  reflexivity.
Qed.

(** [argpartition] with [kth = 2] needs three cells. *)
Lemma check_bmu_adjacency_small_grid (env : Env) (s : SOM) (x : vec) (D : dists) :
  som_dist_fn s x (weights s) = Ok D -> length (concat D) < 3 ->
  _check_bmu_adjacency env s x = Err ValueError.
Proof.
  intros HD Hlen. unfold _check_bmu_adjacency, np_argpartition.
  rewrite HD. cbn [rbind].
  now replace (2 <? length (concat D)) with false
    by (symmetry; apply Nat.ltb_ge; lia).
Qed.

Lemma topographic_error_eq (env : Env) (s : SOM) (X : list vec) (flags : list bool) :
  rmap (_check_bmu_adjacency env s) X = Ok flags ->
  topographic_error env X s =
    (py_div (of_nat (100 * count_occ bool_dec flags true)) (of_nat (length X)), s).
Proof.
  intros H. unfold topographic_error.
  erewrite bind_ok by reflexivity.
  erewrite bind_ok by (unfold lift; rewrite H; reflexivity).
  reflexivity.
Qed.

Lemma topographic_error_raises (env : Env) (s : SOM) (X : list vec) (e : exn) :
  rmap (_check_bmu_adjacency env s) X = Err e ->
  topographic_error env X s = (Err e, s).
Proof.
  intros H. unfold topographic_error.
  erewrite bind_ok by reflexivity.
  erewrite bind_err by (unfold lift; rewrite H; reflexivity).
  reflexivity.
Qed.

Lemma rmap_length {A B} (f : A -> result B) (l : list A) (r : list B) :
  rmap f l = Ok r -> length r = length l.
Proof.
  revert r. induction l as [|a l IH]; intros r H; cbn in H.
  - now inversion H.
  - destruct (f a); cbn in H; [|discriminate].
    destruct (rmap f l); cbn in H; [|discriminate].
    inversion H. cbn. f_equal. now apply IH.
Qed.

(** The checks of all samples, when the grid has three cells or more and
    the selection order honours the contract of [np.argpartition]. *)
Lemma check_all_samples (env : Env) (s : SOM) (X : list vec) :
  3 <= fst (grid_sz s) * snd (grid_sz s) ->
  (forall x, In x X ->
     exists D, som_dist_fn s x (weights s) = Ok D /\
               length (concat D) = fst (grid_sz s) * snd (grid_sz s) /\
               partitioned (concat D) 2 (argpartition_order env (concat D) 2)) ->
  exists flags,
    rmap (_check_bmu_adjacency env s) X = Ok flags /\
    Forall2 (fun x flag =>
               exists D i1 i2,
                 som_dist_fn s x (weights s) = Ok D /\
                 two_closest (concat D) i1 i2 /\
                 flag = far_apart (snd (grid_sz s)) i1 i2) X flags.
Proof.
  intros H3 HX. induction X as [|x X IH].
  - exists []. split; [reflexivity | constructor].
  - destruct (HX x (or_introl eq_refl)) as [D [HD [Hlen Hpart]]].
    destruct IH as [flags [Hflags Hall]]; [intros; apply HX; now right|].
    eexists (_ :: flags). split.
    + cbn [rmap].
      rewrite (check_bmu_adjacency_eq env s x HD Hlen) by (assumption || lia).
      cbn [rbind]. rewrite Hflags. reflexivity.
    + constructor; [|exact Hall].
      exists D. do 2 eexists. split; [exact HD|]. split; [|reflexivity].
      apply partitioned_two_closest; [exact Hpart | lia].
Qed.

Lemma py_div_nat (a n : nat) :
  n <> 0 -> py_div (of_nat a) (of_nat n) = Ok (Fin (INR a / INR n)).
Proof.
  intros Hn. unfold py_div, of_nat, ndiv.
  now rewrite Reqb_false by now apply not_0_INR.
Qed.

Lemma percentage_bounds (k n : nat) :
  n <> 0 -> k <= n -> (0 <= 100 * INR k / INR n <= 100)%R.
Proof.
  intros Hn Hk.
  assert (Hn' : (0 < INR n)%R) by (apply lt_0_INR; lia).
  assert (Hk0 : (0 <= INR k)%R) by apply pos_INR.
  assert (Hk' : (INR k <= INR n)%R) by now apply le_INR.
  split.
  - apply Rmult_le_pos; [lra|]. left. now apply Rinv_0_lt_compat.
  - apply (Rmult_le_reg_r (INR n)); [exact Hn'|].
    unfold Rdiv. rewrite Rmult_assoc, Rinv_l by lra. lra.
Qed.

Lemma INR_100 : INR 100 = 100%R.
Proof. rewrite INR_IZR_INZ. reflexivity. Qed.

(** On a [1 x 2] map [topographic_error] of a one-sample dataset returns
    no number at all: [np.argpartition(., 2)] raises [ValueError] on an
    array of two distances. *)
Lemma topographic_error_two_cells :
  topographic_error env_plain [[Fin 0]] som_pair = (Err ValueError, som_pair) /\
  forall k : nat,
    fst (topographic_error env_plain [[Fin 0]] som_pair)
    <> Ok (Fin (100 * INR k / INR 1)).
Proof.
  assert (H : topographic_error env_plain [[Fin 0]] som_pair
              = (Err ValueError, som_pair)).
  { apply topographic_error_raises. cbn [rmap].
    rewrite (@check_bmu_adjacency_small_grid env_plain som_pair [Fin 0]
               (map (map (fun cell => norm (zipw nsub cell [Fin 0])))
                    [[[Fin 0]; [Fin 2]]])).
    - reflexivity.
    - exact (dist_fn_value [Fin 0] som_pair_shape eq_refl).
    - cbn. lia. }
  split; [exact H|]. intros k. rewrite H. discriminate.
Qed.

(** C4: the map [som_pair] has the two cells [(0,0)] and [(0,1)], at
    distances 0 and 2 from the sample [0.]: the first and the second BMU
    exist and are adjacent, so that the proportion of samples with
    non-adjacent BMUs is 0 for the dataset of this one sample.
    [topographic_error] raises [ValueError] instead:
    [np.argpartition(., 2)] asks for the entry of rank 2 of the two
    distances, where only the entries of rank 0 and 1 are read. *)
Theorem topographic_error_two_cell_map :
  som_dist_fn som_pair [Fin 0] (weights som_pair) = Ok [[Fin 0; Fin 2]] /\
  two_closest (concat [[Fin 0; Fin 2]]) 0 1 /\
  unravel_index 0 (grid_sz som_pair) = Ok (0, 0) /\
  unravel_index 1 (grid_sz som_pair) = Ok (0, 1) /\
  far_apart (snd (grid_sz som_pair)) 0 1 = false /\
  topographic_error env_plain [[Fin 0]] som_pair = (Err ValueError, som_pair).
Proof.
  split.
  { cbn [som_dist_fn weights som_pair].
    rewrite (@dist_fn_value _ 1 2 1 [Fin 0]); [| exact som_pair_shape | reflexivity].
    unfold zipw. cbn [map combine fst snd nsub nadd nneg].
    rewrite !norm_1.
    replace (0 + - 0)%R with 0%R by lra. replace (2 + - 0)%R with 2%R by lra.
    rewrite Rabs_R0, (Rabs_pos_eq 2) by lra. reflexivity. }
  split.
  { split; [discriminate|]. cbn [concat app length].
    split; [lia|]. split; [lia|]. intros j Hj H0 H1. lia. }
  split; [reflexivity|]. split; [reflexivity|]. split; [reflexivity|].
  exact (proj1 topographic_error_two_cells).
Qed.

(** X19: on a map of three cells or more, for every non-empty dataset,
    [topographic_error] returns [100 * k / n], where [n] is the number of
    samples and [k] counts the samples whose two closest cells [(r1,c1)],
    [(r2,c2)] have [|r1-r2| > 1] or [|c1-c2| > 1]; the result lies in
    [0, 100]. *)
Theorem topographic_error_value (env : Env) (s : SOM) (X : list vec) :
  X <> [] ->
  3 <= fst (grid_sz s) * snd (grid_sz s) ->
  (forall x, In x X ->
     exists D, som_dist_fn s x (weights s) = Ok D /\
               length (concat D) = fst (grid_sz s) * snd (grid_sz s) /\
               partitioned (concat D) 2 (argpartition_order env (concat D) 2)) ->
  exists flags,
    Forall2 (fun x flag =>
               exists D i1 i2,
                 som_dist_fn s x (weights s) = Ok D /\
                 two_closest (concat D) i1 i2 /\
                 flag = far_apart (snd (grid_sz s)) i1 i2) X flags /\
    topographic_error env X s =
      (Ok (Fin (100 * INR (count_occ bool_dec flags true) / INR (length X))), s) /\
    (0 <= 100 * INR (count_occ bool_dec flags true) / INR (length X) <= 100)%R.
Proof.
  intros Hne H3 HX.
  destruct (check_all_samples env s X H3 HX) as [flags [Hflags Hall]].
  assert (Hn : length X <> 0) by (destruct X; [congruence | cbn; lia]).
  exists flags. split; [exact Hall|]. split.
  - rewrite (topographic_error_eq env s X Hflags), py_div_nat by exact Hn.
    now rewrite mult_INR, INR_100.
  - apply percentage_bounds; [exact Hn|].
    rewrite <- (rmap_length _ _ Hflags). apply count_occ_bound.
Qed.

Lemma som_line_dist_fn :
  som_dist_fn som_line [Fin 0] (weights som_line) = Ok som_line_distances.
Proof.
  cbn [som_dist_fn weights som_line].
  rewrite (@dist_fn_value _ 1 3 1 [Fin 0]); [| repeat constructor | reflexivity].
  unfold zipw. cbn [map combine fst snd nsub nadd nneg].
  rewrite !norm_1. reflexivity.
Qed.

Lemma topographic_error_value_witness :
  exists flags,
    topographic_error env_plain [[Fin 0]] som_line =
      (Ok (Fin (100 * INR (count_occ bool_dec flags true) / INR 1)), som_line).
Proof.
  destruct (@topographic_error_value env_plain som_line [[Fin 0]])
    as [flags [_ [H _]]].
  - discriminate.
  - cbn. lia.
  - intros x [<- | []]. exists som_line_distances.
    split; [exact som_line_dist_fn|]. split; [reflexivity|].
    apply sorted_order_partitioned.
  - exists flags. exact H.
Defined.

(* ================================================================== *)
(** * A map of one cell *)
(* ================================================================== *)

Lemma quantization_error_eq (s : SOM) (X : list vec) (ds : list num) :
  rmap (fun x => rbind (som_dist_fn s x (weights s)) (fun d => nmin (concat d))) X
    = Ok ds ->
  quantization_error X s = (Ok (mean ds), s).
Proof.
  intros H. unfold quantization_error.
  erewrite bind_ok by reflexivity.
  erewrite bind_ok by (unfold lift; rewrite H; reflexivity).
  reflexivity.
Qed.

(** The default distance function on a grid of one cell. *)
Lemma dist_fn_single_cell (w x : vec) :
  length x = length w ->
  dist_fn x (Some [[w]]) = Ok [[norm (zipw nsub w x)]].
Proof.
  intros H. cbn [dist_fn rmap]. rewrite vsub_same_length by congruence.
  reflexivity.
Qed.

Lemma Forall2_in_left {A B} (R : A -> B -> Prop) l m (a : A) :
  Forall2 R l m -> In a l -> exists b, In b m /\ R a b.
Proof.
  induction 1 as [|x y l m Hxy _ IH]; intros Hin; [contradiction|].
  destruct Hin as [<- | Hin].
  - exists y. split; [now left | exact Hxy].
  - destruct (IH Hin) as [b [Hb HR]]. exists b. split; [now right | exact HR].
Qed.

(** C6, counterexample: on the [1 x 1] map [topographic_error] does not
    return 0; [np.argpartition(., 2)] raises [ValueError] on the single
    distance. *)
Lemma topographic_error_single_cell :
  topographic_error env_plain [[Fin 0]] som_unit = (Err ValueError, som_unit) /\
  fst (topographic_error env_plain [[Fin 0]] som_unit) <> Ok (Fin 0).
Proof.
  assert (H : topographic_error env_plain [[Fin 0]] som_unit
              = (Err ValueError, som_unit)).
  { apply topographic_error_raises. cbn [rmap].
    rewrite (@check_bmu_adjacency_small_grid env_plain som_unit [Fin 0]
               [[norm (zipw nsub [Fin 0] [Fin 0])]]).
    - reflexivity.
    - exact (@dist_fn_single_cell [Fin 0] [Fin 0] eq_refl).
    - cbn. lia. }
  split; [exact H|]. rewrite H. discriminate.
Qed.

(** C6 (amended): on a map of grid size [(1,1)], for a non-empty dataset
    whose samples are at the distances [ds] from the single reference
    vector, [_find_bmu] returns [(0,0)] for every sample and
    [quantization_error] is the mean of [ds]; [topographic_error] raises
    [ValueError]. *)
Theorem single_cell_map (env : Env) (s : SOM) (X : list vec) (ds : list num) :
  grid_sz s = (1, 1) ->
  X <> [] ->
  Forall2 (fun x d => som_dist_fn s x (weights s) = Ok [[d]]) X ds ->
  (forall x, In x X -> _find_bmu x s = (Ok (0, 0), s)) /\
  quantization_error X s = (Ok (mean ds), s) /\
  topographic_error env X s = (Err ValueError, s).
Proof.
  intros Hg Hne HX. split; [|split].
  - intros x Hx. destruct (Forall2_in_left x HX Hx) as [d [_ Hd]].
    rewrite (@find_bmu_eq x s [[d]] 0 Hd eq_refl). now rewrite Hg.
  - apply quantization_error_eq. clear Hne.
    induction HX as [|x d X ds Hd _ IH]; [reflexivity|].
    cbn [rmap]. rewrite Hd. cbn [rbind concat app nmin fold_left].
    now rewrite IH.
  - apply topographic_error_raises.
    destruct HX as [|x d X ds Hd _]; [congruence|].
    cbn [rmap]. rewrite (@check_bmu_adjacency_small_grid env s x [[d]] Hd).
    + reflexivity.
    + cbn. lia.
Qed.

Lemma single_cell_map_witness :
  _find_bmu [Fin 3] som_unit = (Ok (0, 0), som_unit) /\
  quantization_error [[Fin 3]; [Fin 4]] som_unit =
    (Ok (mean [norm (zipw nsub [Fin 0] [Fin 3]);
               norm (zipw nsub [Fin 0] [Fin 4])]), som_unit) /\
  topographic_error env_plain [[Fin 3]; [Fin 4]] som_unit
    = (Err ValueError, som_unit).
Proof.
  destruct (@single_cell_map env_plain som_unit [[Fin 3]; [Fin 4]]
              [norm (zipw nsub [Fin 0] [Fin 3]); norm (zipw nsub [Fin 0] [Fin 4])])
    as [Hb [Hq Ht]].
  - reflexivity.
  - discriminate.
  - repeat constructor.
  - split; [apply Hb; now left | split; assumption].
Defined.

(* ================================================================== *)
(** * Initialization and fit *)
(* ================================================================== *)

Lemma set_weights_of_same (s : SOM) : set_weights_of s (weights s) = s.
Proof. now destruct s. Qed.

Lemma initialize_weights_other (env : Env) (s : SOM) (X : option (list vec))
    (method : string) :
  method <> "random"%string -> method <> "pca"%string ->
  _initialize_weights env X method s = (Ok None, s).
Proof.
  intros Hr Hp. unfold _initialize_weights.
  erewrite bind_ok by reflexivity.
  apply String.eqb_neq in Hr, Hp. now rewrite Hr, Hp.
Qed.

(** With no grid the default distance function raises: so do the BMU
    search, the update and the quantization error. *)
Lemma find_bmu_no_grid (s : SOM) (x : vec) :
  som_dist_fn s = dist_fn -> weights s = None ->
  _find_bmu x s = (Err TypeError, s).
Proof.
  intros Hd Hw. unfold _find_bmu.
  erewrite bind_ok by reflexivity.
  erewrite bind_err by (unfold lift; rewrite Hd, Hw; reflexivity).
  reflexivity.
Qed.

Lemma update_weights_no_grid (s : SOM) (x : vec) (lr sigma : num) :
  som_dist_fn s = dist_fn -> weights s = None ->
  _update_weights x lr sigma s = (Err TypeError, s).
Proof.
  intros Hd Hw. unfold _update_weights.
  now rewrite (bind_err _ _ _ (find_bmu_no_grid s x Hd Hw)).
Qed.

Lemma quantization_error_no_grid (s : SOM) (X : list vec) :
  som_dist_fn s = dist_fn -> weights s = None -> X <> [] ->
  quantization_error X s = (Err TypeError, s).
Proof.
  intros Hd Hw Hne. destruct X as [|x X]; [congruence|].
  unfold quantization_error.
  erewrite bind_ok by reflexivity.
  erewrite bind_err by (unfold lift; cbn [rmap]; rewrite Hd, Hw; reflexivity).
  reflexivity.
Qed.

Lemma exp_sched_ok (a : R) (b : num) (i n_steps : Z) :
  a <> 0%R -> exists v, exp_sched (Fin a) b i n_steps = Ok v.
Proof.
  intros Ha. unfold exp_sched, py_div. rewrite Reqb_false by assumption.
  cbn [rbind]. eexists. reflexivity.
Qed.

(** The first step of a scheduler with the exponential decay and a start
    value that is not zero returns a value. *)
Lemma step_first_ok (s : Scheduler) (a : R) :
  step_size s <> 0%Z -> start_val s = Fin a -> a <> 0%R ->
  decay_fn s = exp_sched ->
  exists v, step s 0 = (Ok v, set_progress s v).
Proof.
  intros Hs Hstart Ha Hf. unfold step.
  replace (step_size s =? 0)%Z with false by (symmetry; now apply Z.eqb_neq).
  rewrite Zmod_0_l. cbn [Z.eqb]. rewrite Hf, Hstart.
  destruct (@exp_sched_ok a (end_val s) (current_step s) (total_steps s) Ha)
    as [v Hv].
  exists v. now rewrite Hv.
Qed.

(** The first epoch of [fit] on a map without a grid. *)
Lemma first_epoch_no_grid (s : SOM) (X_ : list vec)
    (lrs sgs : Scheduler) (n : nat) (B : Type) (k : Scheduler * Scheduler -> M B) :
  som_dist_fn s = dist_fn -> weights s = None ->
  (exists v, step lrs 0 = (Ok v, set_progress lrs v)) ->
  (exists v, step sgs 0 = (Ok v, set_progress sgs v)) ->
  (forall p, k p s = (Err TypeError, s)) ->
  bind (train_epoch 0 n 0 X_ lrs sgs) k s = (Err TypeError, s).
Proof.
  intros Hd Hw [v Hv] [v' Hv'] Hk. destruct X_ as [|x rest].
  - cbn [train_epoch]. erewrite bind_ok by reflexivity. apply Hk.
  - cbn [train_epoch Nat.mul Nat.add Z.of_nat]. rewrite Hv.
    apply bind_err.
    erewrite bind_ok by reflexivity. rewrite Hv'.
    erewrite bind_ok by reflexivity.
    now rewrite (bind_err _ _ _ (update_weights_no_grid s x v v' Hd Hw)).
Qed.

(** C10: with an init method other than ["random"] and ["pca"],
    [_initialize_weights] raises nothing and returns [None]; [fit] then goes
    on without a grid: with no epoch to run it returns [(None, [], [])], and
    with an epoch to run on a non-empty dataset the exception is the
    [TypeError] of the first use of the absent grid. *)
Theorem fit_unknown_init_method (env : Env) (s : SOM) (X : list vec)
    (method : string) :
  method <> "random"%string -> method <> "pca"%string ->
  (forall X', _initialize_weights env X' method s = (Ok None, s)) /\
  (init s = method -> weights s = None ->
     (forall lr sg shuffle verbose,
        fit env X 0 lr sg shuffle verbose s = (Ok (None, [], []), s)) /\
     (som_dist_fn s = dist_fn -> X <> [] ->
      0 < Nat.max (fst (grid_sz s)) (snd (grid_sz s)) ->
      forall n shuffle verbose,
        fit env X (S n) None None shuffle verbose s = (Err TypeError, s))).
Proof.
  intros Hr Hp. split; [intros X'; now apply initialize_weights_other|].
  intros Hinit Hw.
  assert (Hstart : forall B (k : unit -> M B),
            bind (match weights s with
                  | None => bind (_initialize_weights env (Some X) (init s))
                                 (fun w => set_weights w)
                  | Some _ => ret tt
                  end) k s = k tt s).
  { intros B k. rewrite Hw. apply bind_ok.
    rewrite Hinit, (bind_ok _ _ _ (initialize_weights_other env s (Some X) Hr Hp)).
    unfold set_weights. now rewrite <- Hw, set_weights_of_same. }
  split.
  - intros lr sg shuffle verbose. unfold fit.
    erewrite bind_ok by reflexivity. rewrite Hstart.
    destruct lr as [lrs|], sg as [sgs|];
      (erewrite bind_ok by reflexivity;
       erewrite bind_ok by reflexivity;
       erewrite bind_ok by reflexivity);
      cbn [seq fit_epochs];
      (erewrite bind_ok by reflexivity);
      (erewrite bind_ok by reflexivity);
      unfold ret; now rewrite Hw.
  - intros Hd Hne Hmax n shuffle verbose. unfold fit.
    erewrite bind_ok by reflexivity. rewrite Hstart.
    erewrite bind_ok by reflexivity.
    erewrite bind_ok by reflexivity.
    erewrite bind_ok by reflexivity.
    apply bind_err. cbn [seq fit_epochs].
    apply first_epoch_no_grid; try assumption.
    + eapply step_first_ok; [discriminate | reflexivity | lra | reflexivity].
    + assert (0 < INR (Nat.max (fst (grid_sz s)) (snd (grid_sz s))))%R
        by (apply lt_0_INR; lia).
      eapply step_first_ok; [discriminate | reflexivity | lra | reflexivity].
    + intros p. apply bind_err. now apply quantization_error_no_grid.
Qed.

(** [SOM(grid_sz=(2,2), input_dim=1, init='kmeans')]; one sample, one
    epoch. *)
Lemma fit_unknown_init_method_witness :
  _initialize_weights env_plain (Some [[Fin 0]]) "kmeans"
    (SOM_init (2, 2) 1 "kmeans" dist_fn)
    = (Ok None, SOM_init (2, 2) 1 "kmeans" dist_fn) /\
  fit env_plain [[Fin 0]] 0 None None true true (SOM_init (2, 2) 1 "kmeans" dist_fn)
    = (Ok (None, [], []), SOM_init (2, 2) 1 "kmeans" dist_fn) /\
  fit env_plain [[Fin 0]] 1 None None true true (SOM_init (2, 2) 1 "kmeans" dist_fn)
    = (Err TypeError, SOM_init (2, 2) 1 "kmeans" dist_fn).
Proof.
  destruct (@fit_unknown_init_method env_plain (SOM_init (2, 2) 1 "kmeans" dist_fn)
              [[Fin 0]] "kmeans") as [Hi Hf].
  - discriminate.
  - discriminate.
  - destruct (Hf eq_refl eq_refl) as [H0 H1].
    split; [apply Hi|]. split; [apply H0|].
    apply H1.
    + reflexivity.
    + discriminate.
    + cbn. lia.
Defined.

(* ================================================================== *)
(** * The shape of the initial grid *)
(* ================================================================== *)

Lemma randn_shape (draw : nat -> R) (rows cols dim : nat) :
  has_shape (randn draw rows cols dim) rows cols dim.
Proof.
  unfold randn, has_shape.
  apply (shape2_tabulate (fun cell : list num => length cell = dim)
           (fun r c => map (fun k => Fin (draw ((r * cols + c) * dim + k)))
                           (seq 0 dim))).
  intros r c. now rewrite length_map, length_seq.
Qed.

(** Random initialization gives a [(rows, cols, input_dim)] grid. *)
Lemma initialize_weights_random_shape (env : Env) (s : SOM) (X : option (list vec)) :
  exists W, _initialize_weights env X "random" s = (Ok (Some W), s) /\
            has_shape W (fst (grid_sz s)) (snd (grid_sz s)) (input_dim s).
Proof.
  eexists. split; [reflexivity | apply randn_shape].
Qed.

Lemma linspace_length (a b : R) (n : nat) : length (linspace a b n) = n.
Proof.
  destruct n as [|[|n]]; cbn [linspace]; try reflexivity.
  now rewrite length_map, length_seq.
Qed.

Lemma vadd_length (a b : vec) :
  length a = length b -> length (vadd a b) = length a.
Proof.
  intros H. unfold vadd. rewrite length_map, length_combine, H.
  apply Nat.min_id.
Qed.

(** PCA initialization sizes both axes of the grid by [grid_sz[0]]: the
    grid is [(rows, rows, n_features)]. *)
Lemma initialize_weights_pca_shape (env : Env) (s : SOM) (X : list vec)
    (pca : PCA) (dim : nat) :
  pca_fit env X = Ok pca ->
  length (fst (components_ pca)) = dim ->
  length (snd (components_ pca)) = dim ->
  exists W, _initialize_weights_pca env X s = (Ok W, s) /\
            has_shape W (fst (grid_sz s)) (fst (grid_sz s)) dim.
Proof.
  intros Hpca H0 H1. unfold _initialize_weights_pca.
  erewrite bind_ok by reflexivity.
  erewrite bind_ok by (unfold lift; rewrite Hpca; reflexivity).
  cbn [meshgrid]. eexists. split; [reflexivity|].
  set (n := fst (grid_sz s)).
  set (alpha := map _ (linspace (-1) 1 n)).
  set (beta := map _ (linspace (-1) 1 n)).
  assert (Ha : length alpha = n) by (unfold alpha; now rewrite length_map, linspace_length).
  assert (Hb : length beta = n) by (unfold beta; now rewrite length_map, linspace_length).
  split.
  - now rewrite length_map, length_combine, !length_map, Hb, Nat.min_id.
  - apply Forall_map, Forall_forall. intros [arow brow] Hin. cbn [fst snd].
    assert (Harow : arow = alpha).
    { apply in_combine_l in Hin. apply in_map_iff in Hin.
      now destruct Hin as [b [Hb' _]]. }
    assert (Hbrow : length brow = n).
    { apply in_combine_r in Hin. apply in_map_iff in Hin.
      destruct Hin as [b [<- _]]. now rewrite length_map. }
    subst arow. split.
    + now rewrite length_map, length_combine, Ha, Hbrow, Nat.min_id.
    + apply Forall_map, Forall_forall. intros p _.
      rewrite vadd_length; rewrite !length_map; congruence.
Qed.

(** PCA initialization of the [(2, 3)] map on [data_cross]. *)
Lemma initialize_weights_pca_2x3 :
  exists W,
    _initialize_weights env_plain (Some data_cross) "pca" som_pca_2x3
      = (Ok (Some W), som_pca_2x3) /\
    has_shape W 2 2 2.
Proof.
  destruct (@initialize_weights_pca_shape env_plain som_pca_2x3 data_cross
              pca_cross 2 eq_refl eq_refl eq_refl) as [W [HW Hshape]].
  exists W. split; [|exact Hshape].
  unfold _initialize_weights.
  erewrite bind_ok by reflexivity. cbn [String.eqb Ascii.eqb Bool.eqb].
  now rewrite (bind_ok _ _ _ HW).
Qed.

Lemma has_shape_cols_unique (W : grid) rows cols cols' dim dim' :
  0 < rows -> has_shape W rows cols dim -> has_shape W rows cols' dim' ->
  cols = cols'.
Proof.
  intros Hpos [Hlen H] [_ H'].
  destruct W as [|row W]; [cbn in Hlen; lia|].
  inversion H as [|? ? [Hr _] _]. inversion H' as [|? ? [Hr' _] _]. congruence.
Qed.

Lemma bcast_mismatch {A B C} (f : A -> B -> result C) (a : list A) (b : list B) :
  length a <> length b -> length a <> 1 -> length b <> 1 ->
  bcast f a b = Err ValueError.
Proof.
  intros Hab Ha Hb. unfold bcast.
  replace (length a =? length b) with false by (symmetry; now apply Nat.eqb_neq).
  destruct a as [|x [|x' a]], b as [|y [|y' b]]; cbn in *; try lia; reflexivity.
Qed.

(** A grid whose second axis is not the [cols] of [grid_sz]: the update
    cannot broadcast the neighbourhood over it and raises. *)
Lemma update_weights_cols_mismatch (s : SOM) (W : grid) (x : vec)
    (lr sigma : num) (dim cols' : nat) (bmu : nat * nat) :
  weights s = Some W ->
  has_shape W (fst (grid_sz s)) cols' dim -> length x = dim ->
  0 < fst (grid_sz s) ->
  cols' <> snd (grid_sz s) -> cols' <> 1 -> snd (grid_sz s) <> 1 ->
  _find_bmu x s = (Ok bmu, s) ->
  _update_weights x lr sigma s = (Err ValueError, s).
Proof.
  intros Hw HW Hx Hrows Hne Hc1 Hc2 Hbmu. unfold _update_weights.
  rewrite (bind_ok _ _ _ Hbmu).
  erewrite bind_ok by reflexivity.
  erewrite bind_ok by reflexivity.
  erewrite bind_ok by reflexivity.
  rewrite Hw.
  assert (Hdiff : rmap (rmap (fun cell => vsub x cell)) W =
                  Ok (map (map (fun cell => zipw nsub x cell)) W)).
  { eapply rmap2_shape2; [exact HW|]. cbn. intros cell Hc.
    apply vsub_same_length. congruence. }
  erewrite bind_ok by (unfold lift; rewrite Hdiff; reflexivity).
  apply bind_err. unfold lift. f_equal.
  destruct HW as [Hlen Hrow].
  destruct (fst (grid_sz s)) as [|rows]; [lia|].
  destruct W as [|wrow W]; [discriminate|].
  inversion Hrow as [|? ? [Hwrow _] _]. subst.
  rewrite bcast_same_length
    by (rewrite !length_map, length_seq; exact (eq_sym Hlen)).
  cbn [seq map rmap2].
  rewrite bcast_mismatch; [reflexivity | | |];
    rewrite ?length_map, ?length_seq; congruence.
Qed.

(** [fit] of the PCA-initialized [(2, 3)] map raises [ValueError] at the
    first sample, leaving the grid of PCA initialization in the map. *)
Lemma fit_pca_2x3_raises (W : grid) :
  _initialize_weights env_plain (Some data_cross) "pca" som_pca_2x3
    = (Ok (Some W), som_pca_2x3) ->
  has_shape W 2 2 2 ->
  fit env_plain data_cross 1 None None false true som_pca_2x3
    = (Err ValueError, set_weights_of som_pca_2x3 (Some W)).
Proof.
  intros Hinit Hshape.
  set (s1 := set_weights_of som_pca_2x3 (Some W)).
  assert (Hbmu : exists bmu, _find_bmu [Fin 2; Fin 0] s1 = (Ok bmu, s1)).
  { pose proof (dist_fn_value [Fin 2; Fin 0] Hshape eq_refl) as HD.
    destruct (@argmin_ok (concat (map (map (fun cell =>
                 norm (zipw nsub cell [Fin 2; Fin 0]))) W))) as [i [Hi Hlt]].
    { destruct Hshape as [Hlen Hrows].
      destruct W as [|[|cell row] W]; [discriminate | | discriminate].
      inversion Hrows as [|? ? [Hr _] _]. discriminate. }
    rewrite (@shape2_concat_length _ (fun _ => True) _ 2 2) in Hlt.
    2:{ eapply shape2_map; [exact Hshape|]. intros; exact I. }
    eexists. rewrite (@find_bmu_eq [Fin 2; Fin 0] s1 _ i HD Hi).
    unfold unravel_index. cbn [grid_sz s1 set_weights_of som_pca_2x3 SOM_init].
    now replace (i <? 2 * 3) with true by (symmetry; apply Nat.ltb_lt; lia). }
  destruct Hbmu as [bmu Hbmu].
  unfold fit, data_cross.
  erewrite bind_ok by reflexivity.
  cbn [weights som_pca_2x3 SOM_init init].
  erewrite bind_ok
    by (fold data_cross; rewrite (bind_ok _ _ _ Hinit); reflexivity).
  fold s1.
  erewrite bind_ok by reflexivity.
  erewrite bind_ok by reflexivity.
  erewrite bind_ok by reflexivity.
  apply bind_err. cbn [seq fit_epochs]. apply bind_err.
  cbn [train_epoch Nat.mul Nat.add Z.of_nat length].
  match goal with
  | |- context [step ?l 0%Z] =>
      destruct (@step_first_ok l 1%R) as [v Hv];
      [discriminate | reflexivity | lra | reflexivity |]
  end.
  rewrite Hv. erewrite bind_ok by reflexivity.
  match goal with
  | |- context [step ?l 0%Z] =>
      destruct (@step_first_ok l (INR (Nat.max 2 3) / 2)%R) as [v' Hv'];
      [discriminate | reflexivity | cbn; lra | reflexivity |]
  end.
  rewrite Hv'. erewrite bind_ok by reflexivity.
  apply bind_err.
  apply update_weights_cols_mismatch with (W := W) (dim := 2) (cols' := 2) (bmu := bmu);
    try reflexivity; try exact Hbmu; try exact Hshape; cbn; lia.
Qed.

(** C5, at the failing input
    [SOM(grid_sz=(2,3), input_dim=2, init='pca').fit(data_cross, n_epochs=1, shuffle=False)]:
    PCA initialization returns a grid of shape [(2, 2, 2)], not
    [(2, 3, 2)], where random initialization of the same map returns
    [(2, 3, 2)]; [fit] then raises [ValueError] at the first sample. *)
Theorem pca_init_shape_non_square :
  exists W,
    _initialize_weights env_plain (Some data_cross) "pca" som_pca_2x3
      = (Ok (Some W), som_pca_2x3) /\
    has_shape W 2 2 2 /\
    ~ has_shape W 2 3 2 /\
    (exists W',
       _initialize_weights env_plain (Some data_cross) "random" som_pca_2x3
         = (Ok (Some W'), som_pca_2x3) /\
       has_shape W' 2 3 2) /\
    fit env_plain data_cross 1 None None false true som_pca_2x3
      = (Err ValueError, set_weights_of som_pca_2x3 (Some W)).
Proof.
  destruct initialize_weights_pca_2x3 as [W [Hinit Hshape]].
  exists W. split; [exact Hinit|]. split; [exact Hshape|]. split; [|split].
  - intros H3.
    pose proof (@has_shape_cols_unique W 2 2 3 2 2 ltac:(lia) Hshape H3).
    discriminate.
  - apply (initialize_weights_random_shape env_plain som_pca_2x3
             (Some data_cross)).
  - now apply fit_pca_2x3_raises.
Qed.

(* ================================================================== *)
(** * The nearest cell *)
(* ================================================================== *)

Lemma nleb_refl (a : num) : isnan a = false -> nleb a a = true.
Proof. destruct a; cbn; try congruence. intros _. apply Rleb_true. lra. Qed.

Lemma nleb_trans (a b c : num) :
  nleb a b = true -> nleb b c = true -> nleb a c = true.
Proof.
  destruct a as [x | | |], b as [y | | |], c as [z | | |]; cbn;
    intros H1 H2; try reflexivity; try discriminate.
  apply Rleb_iff in H1, H2. apply Rleb_true. lra.
Qed.

Lemma nleb_total (a b : num) :
  isnan a = false -> isnan b = false -> nleb a b = true \/ nleb b a = true.
Proof.
  destruct a as [x | | |], b as [y | | |]; cbn; intros Ha Hb;
    try discriminate; auto.
  destruct (Rle_dec x y) as [H | H].
  - left. now apply Rleb_true.
  - right. apply Rleb_true. lra.
Qed.

Lemma fold_nmin2_nan (l : list num) (best : num) :
  isnan best = true -> fold_left nmin2 l best = best.
Proof.
  intros H. induction l as [|a l IH]; cbn; [reflexivity|].
  unfold nmin2 at 2. now rewrite H.
Qed.

(** The entry at the index [np.argmin] returns is the value [min()]
    returns, NaN included. *)
Lemma argmin_from_value (l : list num) :
  forall (pre : list num) (best : num) (besti : nat),
  besti < length pre -> nth besti pre NaN = best ->
  nth (argmin_from best besti (length pre) l) (pre ++ l) NaN
    = fold_left nmin2 l best.
Proof.
  induction l as [|a l IH]; intros pre best besti Hlt Hb.
  - cbn. now rewrite app_nth1.
  - cbn [argmin_from fold_left]. unfold nmin2 at 2.
    destruct (isnan best) eqn:En.
    + rewrite fold_nmin2_nan by exact En. now rewrite app_nth1.
    + assert (Happ : pre ++ a :: l = (pre ++ [a]) ++ l)
        by now rewrite <- app_assoc.
      assert (Hlen : S (length pre) = length (pre ++ [a]))
        by (rewrite length_app; cbn; lia).
      rewrite Happ, Hlen.
      destruct (negb (nleb best a)).
      * apply IH; [rewrite <- Hlen; lia|].
        rewrite app_nth2, Nat.sub_diag by lia. reflexivity.
      * apply IH; [rewrite <- Hlen; lia|]. now rewrite app_nth1.
Qed.

Lemma nmin_argmin (l : list num) (i : nat) :
  argmin l = Ok i -> nmin l = Ok (nth i l NaN).
Proof.
  destruct l as [|a l]; cbn [argmin nmin]; [discriminate|].
  intros H. inversion H as [Hi]. f_equal. symmetry.
  exact (argmin_from_value l [a] (besti := 0) (Nat.lt_0_succ 0) eq_refl).
Qed.

(** Without NaN the minimum is below every entry. *)
Lemma fold_nmin2_least (l : list num) :
  forall best, isnan best = false -> Forall (fun a => isnan a = false) l ->
  isnan (fold_left nmin2 l best) = false /\
  nleb (fold_left nmin2 l best) best = true /\
  Forall (fun a => nleb (fold_left nmin2 l best) a = true) l.
Proof.
  induction l as [|a l IH]; intros best Hb Hl.
  - cbn. split; [exact Hb|]. split; [now apply nleb_refl | constructor].
  - inversion Hl as [|? ? Ha Hl']. subst. cbn [fold_left].
    assert (Hm : isnan (nmin2 best a) = false /\
                 nleb (nmin2 best a) best = true /\
                 nleb (nmin2 best a) a = true).
    { unfold nmin2. rewrite Hb. destruct (nleb best a) eqn:E; cbn [negb].
      - split; [exact Hb|]. split; [now apply nleb_refl | exact E].
      - split; [exact Ha|]. split; [|now apply nleb_refl].
        destruct (nleb_total best a Hb Ha); congruence. }
    destruct Hm as [Hn [Hmb Hma]].
    destruct (IH (nmin2 best a) Hn Hl') as [Hn' [Hle Hall]].
    split; [exact Hn'|]. split; [now apply nleb_trans with (b := nmin2 best a)|].
    constructor; [now apply nleb_trans with (b := nmin2 best a) | exact Hall].
Qed.

Lemma argmin_least (l : list num) :
  l <> [] -> Forall (fun a => isnan a = false) l ->
  exists i, argmin l = Ok i /\ i < length l /\
            forall j, j < length l -> nleb (nth i l NaN) (nth j l NaN) = true.
Proof.
  intros Hne Hl. destruct (argmin_ok Hne) as [i [Hi Hlt]].
  exists i. split; [exact Hi|]. split; [exact Hlt|].
  pose proof (nmin_argmin l Hi) as Hm.
  destruct l as [|a l]; [congruence|]. cbn [nmin] in Hm.
  assert (Hv : nth i (a :: l) NaN = fold_left nmin2 l a) by congruence.
  inversion Hl as [|? ? Ha Hl']. subst.
  destruct (@fold_nmin2_least l a Ha Hl') as [_ [Hle Hall]].
  rewrite Hv. intros [|j] Hj; cbn [nth]; [exact Hle|].
  rewrite Forall_forall in Hall. apply Hall, nth_In. cbn in Hj. lia.
Qed.

(** X1: when no distance is NaN, [_find_bmu] returns a cell of the grid
    whose distance to the sample is the least of all cells. *)
Theorem find_bmu_nearest (s : SOM) (x : vec) (D : dists) :
  som_dist_fn s x (weights s) = Ok D ->
  length (concat D) = fst (grid_sz s) * snd (grid_sz s) ->
  0 < fst (grid_sz s) * snd (grid_sz s) ->
  Forall (fun d => isnan d = false) (concat D) ->
  exists r c,
    _find_bmu x s = (Ok (r, c), s) /\
    r < fst (grid_sz s) /\ c < snd (grid_sz s) /\
    forall j, j < fst (grid_sz s) * snd (grid_sz s) ->
      nleb (nth (r * snd (grid_sz s) + c) (concat D) NaN)
           (nth j (concat D) NaN) = true.
Proof.
  intros HD Hlen Hpos Hnan.
  destruct (@argmin_least (concat D)) as [i [Hi [Hlt Hall]]];
    [intros E; rewrite E in Hlen; cbn in Hlen; lia | exact Hnan |].
  rewrite (find_bmu_eq x s HD Hi). unfold unravel_index.
  destruct (grid_sz s) as [rows cols]. cbn [fst snd] in *.
  replace (i <? rows * cols) with true by (symmetry; apply Nat.ltb_lt; lia).
  exists (i / cols), (i mod cols). split; [reflexivity|].
  assert (Hc : cols <> 0) by lia.
  split; [apply Nat.Div0.div_lt_upper_bound; lia|].
  split; [now apply Nat.mod_upper_bound|].
  intros j Hj.
  replace (i / cols * cols + i mod cols) with i
    by (rewrite (Nat.div_mod_eq i cols) at 1; lia).
  apply Hall. lia.
Qed.

Lemma find_bmu_nearest_witness :
  exists r c, _find_bmu [Fin 0] som_tie = (Ok (r, c), som_tie) /\ r < 2 /\ c < 2.
Proof.
  destruct (@find_bmu_nearest som_tie [Fin 0] som_tie_distances
              som_tie_dist_fn eq_refl) as [r [c [H [Hr [Hc _]]]]].
  - cbn. lia.
  - repeat constructor.
  - exists r, c. repeat split; assumption.
Defined.

(* ================================================================== *)
(** * Quantization error *)
(* ================================================================== *)

Lemma quantization_error_values (s : SOM) (X : list vec) :
  (forall x, In x X -> dist_ok s x) ->
  0 < fst (grid_sz s) * snd (grid_sz s) ->
  exists ds,
    rmap (fun x => rbind (som_dist_fn s x (weights s))
                         (fun d => nmin (concat d))) X = Ok ds /\
    Forall2 (fun x d =>
               exists D r c,
                 som_dist_fn s x (weights s) = Ok D /\
                 _find_bmu x s = (Ok (r, c), s) /\
                 d = nth (r * snd (grid_sz s) + c) (concat D) NaN) X ds.
Proof.
  intros HX Hpos. induction X as [|x X IH].
  - exists []. split; [reflexivity | constructor].
  - destruct (HX x (or_introl eq_refl)) as [D [HD Hlen]].
    destruct (@argmin_ok (concat D)) as [i [Hi Hlt]];
      [intros E; rewrite E in Hlen; cbn in Hlen; lia|].
    destruct IH as [ds [Hds Hall]]; [intros; apply HX; now right|].
    exists (nth i (concat D) NaN :: ds). split.
    + cbn [rmap]. rewrite HD. cbn [rbind].
      rewrite (nmin_argmin _ Hi). cbn [rbind]. now rewrite Hds.
    + constructor; [|exact Hall].
      exists D, (i / snd (grid_sz s)), (i mod snd (grid_sz s)).
      split; [exact HD|]. split.
      * rewrite (find_bmu_eq x s HD Hi). unfold unravel_index.
        destruct (grid_sz s) as [rows cols]. cbn [fst snd] in *.
        now replace (i <? rows * cols) with true
          by (symmetry; apply Nat.ltb_lt; lia).
      * f_equal. rewrite (Nat.div_mod_eq i (snd (grid_sz s))) at 1. lia.
Qed.

(** X2: the quantization error is the mean, over the samples, of the
    distance between the sample and the cell [_find_bmu] returns for it. *)
Theorem quantization_error_bmu (s : SOM) (X : list vec) :
  (forall x, In x X -> dist_ok s x) ->
  0 < fst (grid_sz s) * snd (grid_sz s) ->
  exists ds,
    quantization_error X s = (Ok (mean ds), s) /\
    Forall2 (fun x d =>
               exists D r c,
                 som_dist_fn s x (weights s) = Ok D /\
                 _find_bmu x s = (Ok (r, c), s) /\
                 d = nth (r * snd (grid_sz s) + c) (concat D) NaN) X ds.
Proof.
  intros HX Hpos.
  destruct (quantization_error_values X HX Hpos) as [ds [Hds Hall]].
  exists ds. split; [now apply quantization_error_eq | exact Hall].
Qed.

Lemma quantization_error_bmu_witness :
  exists ds, quantization_error [[Fin 0]; [Fin 5]] som_tie = (Ok (mean ds), som_tie).
Proof.
  destruct (@quantization_error_bmu som_tie [[Fin 0]; [Fin 5]]) as [ds [H _]].
  - intros x Hx.
    apply (@dist_fn_ok som_tie [[[Fin 3]; [Fin 1]]; [[Fin 1]; [Fin 2]]] 1 x
             eq_refl eq_refl).
    + repeat constructor.
    + destruct Hx as [<- | [<- | []]]; reflexivity.
  - cbn. lia.
  - exists ds. exact H.
Defined.

Lemma mean_nil : mean [] = NaN.
Proof.
  unfold mean, nsum, of_nat. cbn [fold_left length INR ndiv].
  rewrite Reqb_true by reflexivity. now apply inf_of_sign_zero.
Qed.

Lemma quantization_error_nil (s : SOM) : quantization_error [] s = (Ok NaN, s).
Proof.
  rewrite (@quantization_error_eq s [] [] eq_refl). now rewrite mean_nil.
Qed.

Lemma topographic_error_nil (env : Env) (s : SOM) :
  topographic_error env [] s = (Err ZeroDivisionError, s).
Proof.
  rewrite (@topographic_error_eq env s [] [] eq_refl).
  unfold py_div, of_nat. cbn [length INR]. now rewrite Reqb_true.
Qed.

(** X3: on the empty dataset [quantization_error] returns NaN and raises
    nothing, whatever the map, while [topographic_error] raises
    [ZeroDivisionError]; neither touches the map. *)
Theorem metrics_empty_dataset (env : Env) (s : SOM) :
  quantization_error [] s = (Ok NaN, s) /\
  topographic_error env [] s = (Err ZeroDivisionError, s).
Proof.
  split; [apply quantization_error_nil | apply topographic_error_nil].
Qed.

(* ================================================================== *)
(** * The exponential schedule *)
(* ================================================================== *)

Lemma exp_sched_value (a b : R) (i n_steps : Z) :
  a <> 0%R -> (0 < b / a)%R -> n_steps <> 0%Z ->
  exp_sched (Fin a) (Fin b) i n_steps
    = Ok (Fin (a * exp (ln (b / a) * (IZR i / IZR n_steps)))).
Proof.
  intros Ha Hq Hn. unfold exp_sched, py_div, of_Z.
  rewrite Reqb_false by assumption.
  cbn [rbind ndiv]. rewrite Reqb_false by assumption.
  cbn [nlog]. rewrite Rltb_true by assumption.
  cbn [nneg ndiv].
  assert (Hn' : IZR n_steps <> 0%R) by (intros H; apply eq_IZR in H; contradiction).
  rewrite Reqb_false by exact Hn'.
  cbn [nneg nmul nexp].
  match goal with
  | |- Ok (Fin (_ * exp ?u)) = Ok (Fin (_ * exp ?v)) =>
      replace u with v by (field; exact Hn'); reflexivity
  end.
Qed.



Lemma exp_le_compat (u v : R) : (u <= v)%R -> (exp u <= exp v)%R.
Proof.
  intros [H | ->]; [left; now apply exp_increasing | lra].
Qed.

(** X5: for [0 < end <= start] with a ratio [end/start] in the range of
    doubles, and a positive number of steps that a double holds exactly,
    the exponential schedule anneals from step 0 to step [n_steps]: it
    returns a finite value at each of these steps and, in exact
    arithmetic, a later step never returns more than an earlier one and
    the value stays between [end] and [start]. *)
Theorem exp_sched_anneals (a b : R) (n_steps i j : Z) :
  (0 < b <= a)%R -> ratio_in_range (b / a) ->
  (0 < n_steps)%Z -> exact_int n_steps ->
  (0 <= i <= j)%Z -> (j <= n_steps)%Z ->
  exists vi vj,
    exp_sched (Fin a) (Fin b) i n_steps = Ok (Fin vi) /\
    exp_sched (Fin a) (Fin b) j n_steps = Ok (Fin vj) /\
    (vj <= vi)%R /\ (b <= vj)%R /\ (vi <= a)%R.
Proof.
  intros [Hb Hba] _ Hn _ [Hi Hij] Hj.
  assert (Ha : (0 < a)%R) by lra.
  assert (Hq : (0 < b / a)%R) by (apply Rdiv_lt_0_compat; lra).
  assert (Hq1 : (b / a <= 1)%R).
  { apply (Rmult_le_reg_r a); [lra|]. unfold Rdiv.
    rewrite Rmult_assoc, Rinv_l by lra. lra. }
  assert (Hln : (ln (b / a) <= 0)%R).
  { destruct Hq1 as [Hlt | Heq].
    - left. apply ln_neg. lra.
    - rewrite Heq, ln_1. lra. }
  assert (HN : (0 < IZR n_steps)%R) by now apply IZR_lt.
  assert (Hinv : (0 < / IZR n_steps)%R) by now apply Rinv_0_lt_compat.
  assert (Hmono : forall p q : Z, (p <= q)%Z ->
            (a * exp (ln (b / a) * (IZR q / IZR n_steps))
             <= a * exp (ln (b / a) * (IZR p / IZR n_steps)))%R).
  { intros p q Hpq. apply IZR_le in Hpq.
    apply Rmult_le_compat_l; [lra|]. apply exp_le_compat.
    unfold Rdiv. apply Rmult_le_compat_neg_l; [exact Hln|].
    apply Rmult_le_compat_r; [now left | exact Hpq]. }
  do 2 eexists.
  rewrite !exp_sched_value by (lra || lia).
  split; [reflexivity|]. split; [reflexivity|]. split; [now apply Hmono|].
  split.
  - apply Rle_trans with (a * exp (ln (b / a) * (IZR n_steps / IZR n_steps)))%R.
    + replace (IZR n_steps / IZR n_steps)%R with 1%R by (field; lra).
      rewrite Rmult_1_r, exp_ln by exact Hq. right. field. lra.
    + now apply Hmono.
  - apply Rle_trans with (a * exp (ln (b / a) * (IZR 0 / IZR n_steps)))%R.
    + now apply Hmono.
    + unfold Rdiv. rewrite Rmult_0_l, Rmult_0_r, exp_0. lra.
Qed.

Lemma exp_sched_anneals_witness :
  exists vi vj,
    exp_sched (Fin 1) (Fin (1 / 100)) 3 200 = Ok (Fin vi) /\
    exp_sched (Fin 1) (Fin (1 / 100)) 7 200 = Ok (Fin vj) /\
    (vj <= vi)%R.
Proof.
  destruct (@exp_sched_anneals 1 (1 / 100) 200 3 7) as [vi [vj [H1 [H2 [H3 _]]]]].
  - lra.
  - apply ratio_in_range_percent. lra.
  - lia.
  - vm_compute. discriminate.
  - lia.
  - lia.
  - exists vi, vj. repeat split; assumption.
Defined.

(* ================================================================== *)
(** * The schedule over a run *)
(* ================================================================== *)

Lemma div_block (t s : Z) :
  (0 < s)%Z ->
  ((t + 1 + s - 1) / s = t / s + 1)%Z /\
  ((t mod s = 0)%Z -> ((t + s - 1) / s = t / s)%Z) /\
  ((t mod s <> 0)%Z -> ((t + s - 1) / s = t / s + 1)%Z) /\
  (((t + 1) mod s <> 0)%Z -> ((t + 1) / s = t / s)%Z).
Proof.
  intros Hs.
  pose proof (Z.div_mod t s ltac:(lia)) as Ht.
  pose proof (Z.mod_pos_bound t s Hs) as Hr.
  set (q := (t / s)%Z) in *. set (r := (t mod s)%Z) in *.
  repeat split.
  - symmetry. apply Z.div_unique with (r := r); lia.
  - intros Hz. symmetry. apply Z.div_unique with (r := (s - 1)%Z); lia.
  - intros Hz. symmetry. apply Z.div_unique with (r := (r - 1)%Z); lia.
  - intros Hz.
    assert (r + 1 < s)%Z.
    { destruct (Z.eq_dec (r + 1) s) as [E|E]; [|lia].
      exfalso. apply Hz. replace (t + 1)%Z with ((q + 1) * s)%Z by lia.
      apply Z.mod_mul. lia. }
    symmetry. apply Z.div_unique with (r := (r + 1)%Z); lia.
Qed.

Lemma run_samples_inv (f : Z -> num) (size : Z) (k : nat) :
  (0 < size)%Z ->
  forall (sc : Scheduler) (t : Z),
  step_size sc = size ->
  (forall i, decay_fn sc (start_val sc) (end_val sc) i (total_steps sc) = Ok (f i)) ->
  current_step sc = ((t + size - 1) / size)%Z ->
  ((t mod size)%Z <> 0%Z -> current_value sc = f (t / size)%Z) ->
  fst (run_samples sc t k)
    = map (fun u => Ok (f ((t + Z.of_nat u) / size)%Z)) (seq 0 k) /\
  current_step (snd (run_samples sc t k))
    = ((t + Z.of_nat k + size - 1) / size)%Z.
Proof.
  intros Hsize. induction k as [|k IH]; intros sc t Hs Hf Hc Hv.
  - cbn [run_samples seq map fst snd]. split; [reflexivity|].
    rewrite Hc. f_equal. lia.
  - cbn [run_samples].
    assert (Hstep : exists sc',
              step sc t = (Ok (f (t / size)%Z), sc') /\
              step_size sc' = size /\
              (forall i, decay_fn sc' (start_val sc') (end_val sc') i (total_steps sc')
                         = Ok (f i)) /\
              current_step sc' = ((t + 1 + size - 1) / size)%Z /\
              (((t + 1) mod size)%Z <> 0%Z ->
               current_value sc' = f ((t + 1) / size)%Z)).
    { destruct (div_block t Hsize) as [D1 [D2 [D3 D4]]].
      destruct (Z.eq_dec (t mod size) 0) as [Hm | Hm].
      - exists (set_progress sc (f (t / size)%Z)).
        assert (Hcs : current_step sc = (t / size)%Z)
          by (rewrite Hc; now apply D2).
        split.
        { apply step_multiple; [lia | now rewrite Hs |]. now rewrite Hf, Hcs. }
        cbn [set_progress step_size decay_fn start_val end_val total_steps
             current_step current_value].
        split; [exact Hs|]. split; [exact Hf|]. split.
        + rewrite Hcs. now rewrite D1.
        + intros Hm'. now rewrite (D4 Hm').
      - exists sc. split.
        { rewrite step_not_multiple by (rewrite Hs; lia || exact Hm).
          now rewrite (Hv Hm). }
        split; [exact Hs|]. split; [exact Hf|]. split.
        + rewrite Hc, D1. now apply D3.
        + intros Hm'. rewrite (Hv Hm). now rewrite (D4 Hm'). }
    destruct Hstep as [sc' [Hst [Hs' [Hf' [Hc' Hv']]]]]. rewrite Hst.
    destruct (IH sc' (t + 1)%Z Hs' Hf' Hc' Hv') as [Hvals Hlast].
    destruct (run_samples sc' (t + 1) k) as [vs sc'']. cbn [fst snd] in *.
    split.
    + cbn [seq map]. rewrite Z.add_0_r. f_equal.
      rewrite Hvals, <- seq_shift, map_map. apply map_ext.
      intros u. do 3 f_equal. lia.
    + rewrite Hlast. f_equal. lia.
Qed.

(** X6: a new scheduler stepped with the sample counts 0, 1, ..., N-1 in
    order (as [fit] steps it) returns at count [t] the value
    [decay_fn(start_val, end_val, t // step_size, total_steps)], and has
    then advanced [current_step] to the number of multiples of [step_size]
    below N: the schedule is constant over each block of [step_size]
    samples. *)
Theorem scheduler_run (sc : Scheduler) (f : Z -> num) (N : nat) :
  (0 < step_size sc)%Z ->
  current_step sc = 0%Z ->
  (forall i, decay_fn sc (start_val sc) (end_val sc) i (total_steps sc) = Ok (f i)) ->
  fst (run_samples sc 0 N)
    = map (fun t => Ok (f (Z.of_nat t / step_size sc)%Z)) (seq 0 N) /\
  current_step (snd (run_samples sc 0 N))
    = ((Z.of_nat N + step_size sc - 1) / step_size sc)%Z.
Proof.
  intros Hsize Hc Hf.
  destruct (@run_samples_inv f (step_size sc) N Hsize sc 0%Z eq_refl Hf)
    as [Hvals Hlast].
  - rewrite Hc. symmetry. apply Z.div_small. lia.
  - rewrite Zmod_0_l. congruence.
  - split; [exact Hvals | exact Hlast].
Qed.

Lemma scheduler_run_witness :
  fst (run_samples sched_default 0 3)
    = map (fun t => Ok (Fin (1 * exp (ln (1 / 100 / 1)
                                      * (IZR (Z.of_nat t / 100) / IZR 200)))))
          (seq 0 3) /\
  current_step (snd (run_samples sched_default 0 3)) = ((3 + 100 - 1) / 100)%Z.
Proof.
  apply (@scheduler_run sched_default
           (fun i => Fin (1 * exp (ln (1 / 100 / 1) * (IZR i / IZR 200)))) 3).
  - reflexivity.
  - reflexivity.
  - intros i. cbn [decay_fn start_val end_val total_steps sched_default].
    apply exp_sched_value; [lra | lra | discriminate].
Defined.

(* ================================================================== *)
(** * The neighbourhood *)
(* ================================================================== *)

Lemma gaussian_finite_sigma (sigma : R) (d : Z) :
  sigma <> 0%R ->
  gaussian (Fin sigma) d = Fin (exp (IZR (- d) / (2 * (sigma * sigma)))).
Proof.
  intros Hs. unfold gaussian, of_Z. cbn [nmul ndiv].
  assert (0 < 2 * (sigma * sigma))%R by nra.
  now rewrite Reqb_false by lra.
Qed.

Lemma neighborhood_of_grid_distances (s : SOM) (bmu : nat * nat) (sigma : num) :
  bind (_grid_distances bmu) (fun g => _neighborhood_function g sigma) s
  = (Ok (map (fun r => map (fun c => gaussian sigma (grid_dist_at bmu r c))
                           (seq 0 (snd (grid_sz s))))
             (seq 0 (fst (grid_sz s)))), s).
Proof.
  erewrite bind_ok by reflexivity. unfold _neighborhood_function, ret.
  do 2 f_equal. rewrite map_map. apply map_ext. intros r.
  rewrite map_map. reflexivity.
Qed.

(** X7: for a finite radius between [1e-150] and [1e150] in magnitude,
    the neighbourhood array of a BMU has the shape of the grid, its
    weights are finite numbers in [0, 1], the weight of a cell at grid
    distance 0 from the BMU is 1, and the weights decay with the grid
    distance: a cell at least as far from the BMU as another has a weight
    no greater (possibly equal: in doubles the weights of distant cells
    underflow to 0). *)
Theorem neighborhood_decays (s : SOM) (bmu : nat * nat) (sigma : R) :
  (/ 10 ^ 150 <= Rabs sigma <= 10 ^ 150)%R ->
  exists Hm,
    bind (_grid_distances bmu) (fun g => _neighborhood_function g (Fin sigma)) s
      = (Ok Hm, s) /\
    shape2 (fun _ => True) Hm (fst (grid_sz s)) (snd (grid_sz s)) /\
    forall r1 c1 r2 c2,
      r1 < fst (grid_sz s) -> c1 < snd (grid_sz s) ->
      r2 < fst (grid_sz s) -> c2 < snd (grid_sz s) ->
      (grid_dist_at bmu r1 c1 <= grid_dist_at bmu r2 c2)%Z ->
      exists h1 h2,
        nth c1 (nth r1 Hm []) NaN = Fin h1 /\
        nth c2 (nth r2 Hm []) NaN = Fin h2 /\
        (0 <= h2 <= h1)%R /\ (h1 <= 1)%R /\
        (grid_dist_at bmu r1 c1 = 0%Z -> h1 = 1%R).
Proof.
  intros [Hlo _].
  assert (Hs : sigma <> 0%R).
  { intros ->. rewrite Rabs_R0 in Hlo. pose proof (inv_pow10_pos 150). lra. }
  clear Hlo.
  eexists. split; [apply neighborhood_of_grid_distances|].
  split; [now apply shape2_tabulate|].
  intros r1 c1 r2 c2 Hr1 Hc1 Hr2 Hc2 Hd.
  assert (Hnth : forall r c, r < fst (grid_sz s) -> c < snd (grid_sz s) ->
            nth c (nth r (map (fun r => map (fun c =>
                      gaussian (Fin sigma) (grid_dist_at bmu r c))
                      (seq 0 (snd (grid_sz s)))) (seq 0 (fst (grid_sz s)))) []) NaN
            = Fin (exp (IZR (- grid_dist_at bmu r c) / (2 * (sigma * sigma))))).
  { intros r c Hr Hc.
    rewrite (nth_map_lt _ _ 0) by (rewrite length_seq; lia).
    rewrite (nth_map_lt _ _ 0) by (rewrite length_seq; lia).
    rewrite !seq_nth by lia. cbn [Nat.add]. now apply gaussian_finite_sigma. }
  rewrite !Hnth by assumption. do 2 eexists.
  split; [reflexivity|]. split; [reflexivity|].
  assert (Hss : (0 < / (2 * (sigma * sigma)))%R)
    by (apply Rinv_0_lt_compat; nra).
  pose proof (grid_dist_at_nonneg bmu r1 c1) as H1.
  apply IZR_le in H1. pose proof (IZR_le _ _ Hd) as Hd'.
  assert (Hzero : grid_dist_at bmu r1 c1 = 0%Z ->
            IZR (grid_dist_at bmu r1 c1) = 0%R) by (intros ->; reflexivity).
  rewrite !opp_IZR. unfold Rdiv.
  set (k := (/ (2 * (sigma * sigma)))%R) in *.
  set (d1 := IZR (grid_dist_at bmu r1 c1)) in *.
  set (d2 := IZR (grid_dist_at bmu r2 c2)) in *.
  clearbody k d1 d2. clear Hnth.
  split; [split|split].
  - left. apply exp_pos.
  - apply exp_le_compat. nra.
  - apply exp_le_1. nra.
  - intros Hz. rewrite (Hzero Hz), Ropp_0, Rmult_0_l. apply exp_0.
Qed.

Lemma neighborhood_decays_witness :
  exists Hm,
    bind (_grid_distances (0, 0)) (fun g => _neighborhood_function g (Fin 1)) som_tie
      = (Ok Hm, som_tie) /\
    shape2 (fun _ => True) Hm 2 2.
Proof.
  destruct (@neighborhood_decays som_tie (0, 0) 1) as [Hm [H1 [H2 _]]].
  - rewrite Rabs_R1. split; [apply inv_pow10_le_1 | apply pow10_ge_1].
  - exists Hm. split; assumption.
Defined.

(* ================================================================== *)
(** * The update as a step toward the sample *)
(* ================================================================== *)

Lemma finite_entry (W : grid) (rows cols dim r c k : nat) :
  has_shape W rows cols dim -> finite_grid W ->
  r < rows -> c < cols -> k < dim ->
  exists w, entry W r c k = Fin w.
Proof.
  intros HW HF Hr Hc Hk. unfold entry, cell_at.
  destruct (@shape2_nth _ _ _ _ _ r HW Hr) as [Hrow Hcell].
  specialize (Hcell c [] Hc). cbn in Hcell.
  unfold finite_grid in HF. rewrite Forall_forall in HF.
  assert (H1 : Forall (Forall finite) (nth r W []))
    by (apply HF, nth_In; destruct HW; lia).
  rewrite Forall_forall in H1.
  assert (H2 : Forall finite (nth c (nth r W []) []))
    by (apply H1, nth_In; lia).
  rewrite Forall_forall in H2. apply H2, nth_In. lia.
Qed.

(** X8: on a grid and a sample whose entries are at most [1e300] in
    magnitude, with a learning rate in [0, 1] and a radius whose square
    neither overflows nor is zero or NaN, the update leaves finite numbers
    and never moves a component of a reference vector away from the
    sample: where the old value is below the sample's component the new
    one is not smaller, where it is above the new one is not greater, and
    where they are equal it stays.  A learning rate of 0 changes
    nothing. *)
Theorem update_moves_toward_sample (s : SOM) (W : grid) (x : vec)
    (l : R) (sigma : num) (dim : nat) :
  weights s = Some W ->
  has_shape W (fst (grid_sz s)) (snd (grid_sz s)) dim ->
  length x = dim -> dist_ok s x ->
  0 < fst (grid_sz s) * snd (grid_sz s) ->
  bounded_grid W -> Forall bounded x ->
  (0 <= l <= 1)%R -> square_no_overflow sigma -> square_positive sigma ->
  exists br bc W',
    _find_bmu x s = (Ok (br, bc), s) /\
    _update_weights x (Fin l) sigma s = (Ok tt, set_weights_of s (Some W')) /\
    forall r c k, r < fst (grid_sz s) -> c < snd (grid_sz s) -> k < dim ->
      exists w xk n,
        entry W r c k = Fin w /\ nth k x NaN = Fin xk /\ entry W' r c k = Fin n /\
        ((w <= xk)%R -> (w <= n)%R) /\
        ((xk <= w)%R -> (n <= w)%R) /\
        (l = 0%R -> n = w).
Proof.
  intros Hw HW Hx Hd Hpos HB Hxb Hl _ Hsq.
  pose proof (bounded_grid_finite HB) as HF.
  pose proof (bounded_list_finite Hxb) as Hxf.
  destruct (@square_positive_not_zero sigma Hsq) as [H0 Hnan].
  destruct (find_bmu_ok Hd Hpos) as [br [bc [Hbmu _]]].
  exists br, bc,
    (updated (fst (grid_sz s)) (snd (grid_sz s)) W x (Fin l) sigma (br, bc)).
  split; [exact Hbmu|].
  split; [now apply update_weights_eq with (dim := dim)|].
  intros r c k Hr Hc Hk.
  destruct (finite_entry HW HF Hr Hc Hk) as [w Hwe].
  assert (Hxk : exists xk, nth k x NaN = Fin xk).
  { rewrite Forall_forall in Hxf. apply Hxf, nth_In. lia. }
  destruct Hxk as [xk Hxk].
  destruct (@gaussian_range sigma (grid_dist_at (br, bc) r c) H0 Hnan
              (grid_dist_at_nonneg _ _ _)) as [h [Hh [[Hlo Hhi] _]]].
  exists w, xk, (w + l * h * (xk + - w))%R.
  split; [exact Hwe|]. split; [exact Hxk|]. split.
  - unfold entry in *.
    rewrite (@updated_at _ _ dim W x (Fin l) sigma (br, bc) r c k HW Hx Hr Hc Hk).
    now rewrite Hwe, Hxk, Hh.
  - assert (Ht : (0 <= l * h)%R) by nra.
    set (t := (l * h)%R) in *.
    split; [|split].
    + intros Hle. clearbody t. nra.
    + intros Hle. clearbody t. nra.
    + intros ->. subst t. lra.
Qed.

Lemma update_moves_toward_sample_witness :
  exists br bc W',
    _find_bmu [Fin 0] som_pair = (Ok (br, bc), som_pair) /\
    _update_weights [Fin 0] (Fin (1 / 2)) (Fin 1) som_pair
      = (Ok tt, set_weights_of som_pair (Some W')).
Proof.
  destruct (@update_moves_toward_sample som_pair [[[Fin 0]; [Fin 2]]] [Fin 0]
              (1 / 2) (Fin 1) 1) as [br [bc [W' [H1 [H2 _]]]]].
  - reflexivity.
  - exact som_pair_shape.
  - reflexivity.
  - exact (@dist_fn_ok som_pair _ 1 [Fin 0] eq_refl eq_refl som_pair_shape eq_refl).
  - cbn. lia.
  - repeat constructor; apply bounded_small; rewrite Rabs_pos_eq by lra; lra.
  - repeat constructor. apply bounded_small. rewrite Rabs_R0. lra.
  - lra.
  - exact square_no_overflow_1.
  - exact square_positive_1.
  - exists br, bc, W'. split; assumption.
Defined.

(* ================================================================== *)
(** * A sample of the wrong dimension *)
(* ================================================================== *)

Lemma dist_fn_wrong_dimension (W : grid) (rows cols dim : nat) (x : vec) :
  has_shape W rows cols dim -> 0 < rows * cols ->
  length x <> dim -> length x <> 1 -> dim <> 1 ->
  dist_fn x (Some W) = Err ValueError.
Proof.
  intros [Hlen Hrows] Hpos Hx Hx1 Hd1.
  destruct W as [|row W]; [cbn in Hlen; subst; lia|].
  inversion Hrows as [|? ? [Hr Hcells] _]. subst.
  destruct row as [|cell row]; [cbn in Hpos; lia|].
  inversion Hcells as [|? ? Hc _]. subst.
  cbn [dist_fn rmap]. unfold vsub.
  rewrite bcast_mismatch by congruence. reflexivity.
Qed.

(** X9: with the default distance function, on a map of at least one cell
    whose vectors have more than one component, a sample with another
    number of components (and more than one) is refused with [ValueError]
    by the BMU search, by the update, by [transform] and by
    [quantization_error]; the weight grid is left as it was. *)
Theorem wrong_dimension_rejected (s : SOM) (W : grid) (dim : nat) (x : vec)
    (X : list vec) (lr sigma : num) :
  som_dist_fn s = dist_fn -> weights s = Some W ->
  has_shape W (fst (grid_sz s)) (snd (grid_sz s)) dim ->
  0 < fst (grid_sz s) * snd (grid_sz s) ->
  length x <> dim -> length x <> 1 -> dim <> 1 ->
  _find_bmu x s = (Err ValueError, s) /\
  _update_weights x lr sigma s = (Err ValueError, s) /\
  transform (x :: X) s = (Err ValueError, s) /\
  quantization_error (x :: X) s = (Err ValueError, s).
Proof.
  intros Hd Hw HW Hpos Hx Hx1 Hd1.
  pose proof (dist_fn_wrong_dimension x HW Hpos Hx Hx1 Hd1) as HE.
  assert (Hb : _find_bmu x s = (Err ValueError, s)).
  { unfold _find_bmu. erewrite bind_ok by reflexivity.
    erewrite bind_err by (unfold lift; rewrite Hd, Hw, HE; reflexivity).
    reflexivity. }
  split; [exact Hb|]. split; [|split].
  - unfold _update_weights. now rewrite (bind_err _ _ _ Hb).
  - unfold transform. cbn [mmap]. now rewrite (bind_err _ _ _ Hb).
  - unfold quantization_error. erewrite bind_ok by reflexivity.
    erewrite bind_err
      by (unfold lift; cbn [rmap]; rewrite Hd, Hw, HE; reflexivity).
    reflexivity.
Qed.

Lemma wrong_dimension_rejected_witness :
  _update_weights [Fin 0; Fin 1; Fin 2] (Fin 1) (Fin 1) som_square
    = (Err ValueError, som_square).
Proof.
  apply (@wrong_dimension_rejected som_square
           [[[Fin 0; Fin 0]; [Fin 1; Fin 0]]; [[Fin 0; Fin 1]; [Fin 1; Fin 1]]]
           2 [Fin 0; Fin 1; Fin 2] [] (Fin 1) (Fin 1)).
  - reflexivity.
  - reflexivity.
  - repeat constructor.
  - cbn. lia.
  - cbn. lia.
  - cbn. lia.
  - lia.
Defined.

(* ================================================================== *)
(** * The coordinates of a dataset *)
(* ================================================================== *)

(** X10: on a map whose distance function returns a [rows x cols] array,
    with at least one cell, [transform] (and its alias [predict]) returns
    for the n samples n coordinates, each inside the grid and each the
    cell [_find_bmu] returns for its sample. *)
Theorem transform_coordinates (s : SOM) (X : list vec) :
  (forall x, In x X -> dist_ok s x) ->
  0 < fst (grid_sz s) * snd (grid_sz s) ->
  exists cs,
    transform X s = (Ok cs, s) /\ predict X s = (Ok cs, s) /\
    length cs = length X /\
    Forall (fun p => fst p < fst (grid_sz s) /\ snd p < snd (grid_sz s)) cs /\
    Forall2 (fun x p => _find_bmu x s = (Ok p, s)) X cs.
Proof.
  intros Hd Hpos. unfold predict, transform.
  induction X as [|x X IH]; cbn [mmap].
  - exists []. repeat split; constructor.
  - destruct (@find_bmu_ok s x) as [br [bc [Hb [Hr Hc]]]];
      [apply Hd; now left | exact Hpos |].
    destruct IH as [cs [Hcs [_ [Hlen [Hall Hf]]]]]; [intros; apply Hd; now right|].
    exists ((br, bc) :: cs).
    rewrite (bind_ok _ _ _ Hb), (bind_ok _ _ _ Hcs). cbn.
    repeat split; [now rewrite Hlen | |].
    + constructor; [now split | exact Hall].
    + constructor; [exact Hb | exact Hf].
Qed.

Lemma transform_coordinates_witness :
  exists cs, transform [[Fin 0]; [Fin 5]] som_tie = (Ok cs, som_tie) /\
             length cs = 2.
Proof.
  destruct (@transform_coordinates som_tie [[Fin 0]; [Fin 5]])
    as [cs [H [_ [Hl _]]]].
  - intros x Hx.
    apply (@dist_fn_ok som_tie [[[Fin 3]; [Fin 1]]; [[Fin 1]; [Fin 2]]] 1 x
             eq_refl eq_refl).
    + repeat constructor.
    + destruct Hx as [<- | [<- | []]]; reflexivity.
  - cbn. lia.
  - exists cs. split; assumption.
Defined.

(* ================================================================== *)
(** * Initialization *)
(* ================================================================== *)

Lemma randn_finite (draw : nat -> R) (rows cols dim : nat) :
  finite_grid (randn draw rows cols dim).
Proof.
  unfold randn, finite_grid.
  apply Forall_map, Forall_forall. intros r _.
  apply Forall_map, Forall_forall. intros c _.
  apply Forall_map, Forall_forall. intros k _. eexists. reflexivity.
Qed.

(** X11: random initialization never raises, never looks at the data and
    leaves the map as it is; the grid it returns has the shape
    [(rows, cols, input_dim)] of the map and holds finite numbers only. *)
Theorem initialize_weights_random (env : Env) (s : SOM) :
  exists W,
    (forall X, _initialize_weights env X "random" s = (Ok (Some W), s)) /\
    has_shape W (fst (grid_sz s)) (snd (grid_sz s)) (input_dim s) /\
    finite_grid W.
Proof.
  eexists. split; [intros X; reflexivity|].
  split; [apply randn_shape | apply randn_finite].
Qed.

Lemma combine_map_same {A B C} (f : A -> B) (g : A -> C) (l : list A) :
  combine (map f l) (map g l) = map (fun a => (f a, g a)) l.
Proof. induction l as [|a l IH]; cbn; [reflexivity | now rewrite IH]. Qed.

Lemma linspace_nth (a b : R) (n j : nat) :
  2 <= n -> j < n ->
  nth j (linspace a b n) NaN = Fin (a + INR j * ((b - a) / INR (n - 1))).
Proof.
  intros Hn Hj. destruct n as [|[|n]]; try lia. cbn [linspace].
  rewrite (nth_map_lt _ _ 0) by (rewrite length_seq; lia).
  now rewrite seq_nth by lia.
Qed.

(** The grid of PCA initialization, row by row. *)
Lemma initialize_weights_pca_eq (env : Env) (s : SOM) (X : list vec) (pca : PCA) :
  pca_fit env X = Ok pca ->
  _initialize_weights_pca env X s =
    (Ok (map (fun b =>
           map (fun a => vadd (map (nmul a) (fst (components_ pca)))
                              (map (nmul b) (snd (components_ pca))))
               (map (fun t => nmul t (nsqrt (fst (explained_variance_ pca))))
                    (linspace (-1) 1 (fst (grid_sz s)))))
         (map (fun t => nmul t (nsqrt (snd (explained_variance_ pca))))
              (linspace (-1) 1 (fst (grid_sz s))))), s).
Proof.
  intros Hpca. unfold _initialize_weights_pca.
  erewrite bind_ok by reflexivity.
  erewrite bind_ok by (unfold lift; rewrite Hpca; reflexivity).
  cbn [meshgrid]. unfold ret. do 2 f_equal.
  rewrite combine_map_same, map_map. apply map_ext. intros b. cbn [fst snd].
  rewrite <- (map_id (map (fun t => nmul t (nsqrt (fst (explained_variance_ pca))))
                          (linspace (-1) 1 (fst (grid_sz s))))) at 1.
  rewrite combine_map_same, map_map. reflexivity.
Qed.

(** X12: PCA initialization.  Without data it raises [ValueError]; an
    exception of the PCA routine is passed on; otherwise the grid has the
    shape [(rows, rows, n_features)] and, for [rows >= 2], the reference
    vector of cell [(i, j)] is
    [alpha_j * PC1 + beta_i * PC2] with
    [alpha_j = (-1 + 2j/(rows-1)) * sqrt(variance_1)] and
    [beta_i = (-1 + 2i/(rows-1)) * sqrt(variance_2)].  The map itself is not
    changed. *)
Theorem initialize_weights_pca_grid (env : Env) (s : SOM) :
  _initialize_weights env None "pca" s = (Err ValueError, s) /\
  (forall X e, pca_fit env X = Err e ->
     _initialize_weights env (Some X) "pca" s = (Err e, s)) /\
  (forall X pca dim,
     pca_fit env X = Ok pca ->
     length (fst (components_ pca)) = dim ->
     length (snd (components_ pca)) = dim ->
     exists W,
       _initialize_weights env (Some X) "pca" s = (Ok (Some W), s) /\
       has_shape W (fst (grid_sz s)) (fst (grid_sz s)) dim /\
       (2 <= fst (grid_sz s) ->
        forall i j k, i < fst (grid_sz s) -> j < fst (grid_sz s) -> k < dim ->
          entry W i j k =
          nadd (nmul (nmul (Fin (-1 + INR j * ((1 - -1) / INR (fst (grid_sz s) - 1))))
                           (nsqrt (fst (explained_variance_ pca))))
                     (nth k (fst (components_ pca)) NaN))
               (nmul (nmul (Fin (-1 + INR i * ((1 - -1) / INR (fst (grid_sz s) - 1))))
                           (nsqrt (snd (explained_variance_ pca))))
                     (nth k (snd (components_ pca)) NaN)))).
Proof.
  split; [reflexivity|]. split.
  - intros X e He. unfold _initialize_weights.
    erewrite bind_ok by reflexivity. cbn [String.eqb Ascii.eqb Bool.eqb].
    apply bind_err. unfold _initialize_weights_pca.
    erewrite bind_ok by reflexivity.
    erewrite bind_err by (unfold lift; rewrite He; reflexivity). reflexivity.
  - intros X pca dim Hpca H0 H1.
    destruct (initialize_weights_pca_shape env s X Hpca H0 H1) as [W [HW Hshape]].
    exists W. split; [|split; [exact Hshape|]].
    + unfold _initialize_weights.
      erewrite bind_ok by reflexivity. cbn [String.eqb Ascii.eqb Bool.eqb].
      now rewrite (bind_ok _ _ _ HW).
    + intros Hn i j k Hi Hj Hk.
      rewrite (initialize_weights_pca_eq env s X Hpca) in HW.
      inversion HW as [HWeq]. clear HW. unfold entry, cell_at.
      set (n := fst (grid_sz s)) in *.
      rewrite (nth_map_lt _ _ NaN) by (rewrite length_map, linspace_length; lia).
      rewrite (nth_map_lt _ _ NaN) by (rewrite length_map, linspace_length; lia).
      rewrite (nth_map_lt _ _ NaN) by (rewrite linspace_length; lia).
      rewrite (nth_map_lt _ _ NaN) by (rewrite linspace_length; lia).
      rewrite !linspace_nth by lia.
      unfold vadd.
      rewrite (nth_map_lt _ _ (NaN, NaN))
        by (rewrite length_combine, !length_map; lia).
      rewrite combine_nth by (rewrite !length_map; congruence).
      cbn [fst snd].
      rewrite (nth_map_lt _ _ NaN) by lia.
      rewrite (nth_map_lt _ _ NaN) by lia.
      reflexivity.
Qed.

Lemma initialize_weights_pca_grid_witness :
  exists W,
    _initialize_weights env_plain (Some data_cross) "pca" (SOM_init (2, 2) 2 "pca" dist_fn)
      = (Ok (Some W), SOM_init (2, 2) 2 "pca" dist_fn) /\
    has_shape W 2 2 2.
Proof.
  destruct (proj2 (proj2 (initialize_weights_pca_grid env_plain
                            (SOM_init (2, 2) 2 "pca" dist_fn)))
              data_cross pca_cross 2 eq_refl eq_refl eq_refl) as [W [H1 [H2 _]]].
  exists W. split; assumption.
Defined.

(* ================================================================== *)
(** * Fit on well-formed input *)
(* ================================================================== *)

Lemma step_total (sc : Scheduler) (t : Z) :
  sched_total sc ->
  exists v sc', step sc t = (Ok v, sc') /\ sched_total sc'.
Proof.
  intros [Hs Hf]. unfold step.
  replace (step_size sc =? 0)%Z with false by (symmetry; now apply Z.eqb_neq).
  destruct (t mod step_size sc =? 0)%Z.
  - destruct (Hf (current_step sc)) as [v Hv]. rewrite Hv.
    exists v, (set_progress sc v). split; [reflexivity|].
    split; [exact Hs | exact Hf].
  - exists (current_value sc), sc. split; [reflexivity|]. now split.
Qed.

Lemma exp_sched_total (sc : Scheduler) (a : R) :
  step_size sc <> 0%Z -> start_val sc = Fin a -> a <> 0%R ->
  decay_fn sc = exp_sched -> sched_total sc.
Proof.
  intros Hs Ha Hne Hf. split; [exact Hs|]. intros i.
  rewrite Hf, Ha. now apply exp_sched_ok.
Qed.

Lemma trained_dist_ok (rows cols dim : nat) (s : SOM) (x : vec) :
  trained rows cols dim s -> length x = dim -> dist_ok s x.
Proof.
  intros [Hg [Hd [W [Hw HW]]]] Hx.
  apply (@dist_fn_ok s W dim x Hd Hw); [now rewrite Hg | exact Hx].
Qed.

Lemma update_weights_total (rows cols dim : nat) (s : SOM) (x : vec)
    (lr sigma : num) :
  trained rows cols dim s -> 0 < rows * cols -> length x = dim ->
  exists s', _update_weights x lr sigma s = (Ok tt, s') /\
             trained rows cols dim s'.
Proof.
  intros Ht Hpos Hx. pose proof (trained_dist_ok x Ht Hx) as Hdo.
  destruct Ht as [Hg [Hd [W [Hw HW]]]].
  destruct (@find_bmu_ok s x Hdo) as [br [bc [Hb _]]]; [now rewrite Hg|].
  eexists. split.
  - apply update_weights_eq with (W := W) (dim := dim) (bmu := (br, bc));
      try assumption. now rewrite Hg.
  - split; [exact Hg|]. split; [exact Hd|]. eexists. split; [reflexivity|].
    rewrite Hg. cbn [fst snd]. now apply updated_shape.
Qed.

Lemma train_epoch_total (rows cols dim : nat) (epoch n : nat) (X_ : list vec) :
  0 < rows * cols -> Forall (fun x => length x = dim) X_ ->
  forall (i : nat) (lrs sgs : Scheduler) (s : SOM),
  sched_total lrs -> sched_total sgs -> trained rows cols dim s ->
  exists lrs' sgs' s',
    train_epoch epoch n i X_ lrs sgs s = (Ok (lrs', sgs'), s') /\
    sched_total lrs' /\ sched_total sgs' /\ trained rows cols dim s'.
Proof.
  intros Hpos HX. induction HX as [|x X_ Hx _ IH]; intros i lrs sgs s Hl Hg Ht.
  - exists lrs, sgs, s. split; [reflexivity|]. split; [exact Hl|]. now split.
  - cbn [train_epoch].
    destruct (step_total (Z.of_nat (epoch * n + i)) Hl) as [v [lrs' [Hv Hl']]].
    destruct (step_total (Z.of_nat (epoch * n + i)) Hg) as [v' [sgs' [Hv' Hg']]].
    rewrite Hv. erewrite bind_ok by reflexivity.
    rewrite Hv'. erewrite bind_ok by reflexivity.
    destruct (@update_weights_total rows cols dim s x v v' Ht Hpos Hx)
      as [s' [Hu Ht']].
    rewrite (bind_ok _ _ _ Hu). now apply IH.
Qed.

Lemma quantization_error_total (rows cols dim : nat) (s : SOM) (X : list vec) :
  trained rows cols dim s -> 0 < rows * cols ->
  Forall (fun x => length x = dim) X ->
  exists q, quantization_error X s = (Ok q, s).
Proof.
  intros Ht Hpos HX. rewrite Forall_forall in HX.
  destruct (@quantization_error_values s X) as [ds [Hds _]].
  - intros x Hx. apply (trained_dist_ok x Ht). now apply HX.
  - destruct Ht as [Hg _]. now rewrite Hg.
  - exists (mean ds). now apply quantization_error_eq.
Qed.

Lemma topographic_error_total (env : Env) (rows cols dim : nat) (s : SOM)
    (X : list vec) :
  trained rows cols dim s -> 3 <= rows * cols -> X <> [] ->
  Forall (fun x => length x = dim) X ->
  (forall a, 2 < length a -> partitioned a 2 (argpartition_order env a 2)) ->
  exists t, topographic_error env X s = (Ok t, s).
Proof.
  intros Ht H3 Hne HX Hpart. rewrite Forall_forall in HX.
  assert (Hg : grid_sz s = (rows, cols)) by now destruct Ht.
  destruct (@check_all_samples env s X) as [flags [Hflags _]].
  - now rewrite Hg.
  - intros x Hx. destruct (trained_dist_ok x Ht (HX x Hx)) as [D [HD Hlen]].
    exists D. split; [exact HD|]. split; [exact Hlen|].
    apply Hpart. rewrite Hlen, Hg. cbn [fst snd]. lia.
  - eexists. rewrite (topographic_error_eq env s X Hflags).
    rewrite py_div_nat; [reflexivity|]. destruct X; [congruence | cbn; lia].
Qed.

Lemma fit_epochs_total (env : Env) (rows cols dim : nat) (X : list vec)
    (shuffle : bool) (epochs : list nat) :
  3 <= rows * cols -> X <> [] ->
  Forall (fun x => length x = dim) X ->
  (shuffle = true -> forall e, Permutation (permutation env e X) X) ->
  (forall a, 2 < length a -> partitioned a 2 (argpartition_order env a 2)) ->
  forall (lrs sgs : Scheduler) (qe te : list num) (s : SOM),
  sched_total lrs -> sched_total sgs -> trained rows cols dim s ->
  exists qe' te' s',
    fit_epochs env epochs X shuffle lrs sgs qe te s = (Ok (qe', te'), s') /\
    length qe' = length qe + length epochs /\
    length te' = length te + length epochs /\
    trained rows cols dim s'.
Proof.
  intros H3 Hne HX Hperm Hpart.
  induction epochs as [|epoch epochs IH]; intros lrs sgs qe te s Hl Hg Ht.
  - exists qe, te, s. cbn. split; [reflexivity|]. split; [lia|]. split; [lia | exact Ht].
  - cbn [fit_epochs].
    assert (HX_ : Forall (fun x => length x = dim)
                    (if shuffle then permutation env epoch X else X)).
    { destruct shuffle; [|exact HX].
      apply (Permutation_Forall (Permutation_sym (Hperm eq_refl epoch)) HX). }
    destruct (@train_epoch_total rows cols dim epoch (length X) _ ltac:(lia) HX_
                0 lrs sgs s Hl Hg Ht) as [lrs' [sgs' [s1 [Htr [Hl' [Hg' Ht1]]]]]].
    rewrite (bind_ok _ _ _ Htr).
    destruct (@quantization_error_total rows cols dim s1 X Ht1 ltac:(lia) HX)
      as [q Hq].
    rewrite (bind_ok _ _ _ Hq).
    destruct (@topographic_error_total env rows cols dim s1 X Ht1 H3 Hne HX Hpart)
      as [t Hte].
    rewrite (bind_ok _ _ _ Hte). cbn [fst snd].
    destruct (IH lrs' sgs' (qe ++ [q]) (te ++ [t]) s1 Hl' Hg' Ht1)
      as [qe' [te' [s' [Hfit [Hlq [Hlt Ht']]]]]].
    exists qe', te', s'. split; [exact Hfit|].
    rewrite length_app in Hlq, Hlt. cbn [length] in *.
    split; [lia|]. split; [lia | exact Ht'].
Qed.

(** X13: [fit] on well-formed input never raises.  For a map with the
    default distance function and at least three cells, either still
    without a grid and with [init = 'random'] or holding a grid of shape
    [(rows, cols, dim)], a non-empty dataset of [dim]-component samples,
    schedulers that are the defaults or cannot raise, where a radius
    scheduler of the caller only returns values whose square does not
    overflow, a shuffle that permutes the dataset and an [argpartition]
    that honours its contract: [fit] returns a grid of shape
    [(rows, cols, dim)], which is the grid it leaves in the map, and
    exactly [n_epochs] quantization errors and [n_epochs] topographic
    errors. *)
Theorem fit_total (env : Env) (s : SOM) (X : list vec) (rows cols dim : nat)
    (n_epochs : nat) (lr sg : option Scheduler) (shuffle verbose : bool) :
  grid_sz s = (rows, cols) -> som_dist_fn s = dist_fn ->
  3 <= rows * cols ->
  (weights s = None /\ init s = "random"%string /\ input_dim s = dim) \/
  (exists W, weights s = Some W /\ has_shape W rows cols dim) ->
  X <> [] -> Forall (fun x => length x = dim) X ->
  sched_arg_total lr -> sched_arg_total sg -> sched_arg_radius sg ->
  (shuffle = true -> forall e, Permutation (permutation env e X) X) ->
  (forall a, 2 < length a -> partitioned a 2 (argpartition_order env a 2)) ->
  exists W' qe te s',
    fit env X n_epochs lr sg shuffle verbose s = (Ok (Some W', qe, te), s') /\
    weights s' = Some W' /\ has_shape W' rows cols dim /\
    length qe = n_epochs /\ length te = n_epochs.
Proof.
  intros Hg Hd H3 Hinit Hne HX Hlr Hsg _ Hperm Hpart. unfold fit.
  erewrite bind_ok by reflexivity.
  assert (Hstart : exists s1,
            (match weights s with
             | None => bind (_initialize_weights env (Some X) (init s))
                            (fun w => set_weights w)
             | Some _ => ret tt
             end) s = (Ok tt, s1) /\ trained rows cols dim s1).
  { destruct Hinit as [[Hw [Hi Hdim]] | [W [Hw HW]]].
    - rewrite Hw, Hi. eexists. split.
      + erewrite bind_ok by reflexivity. reflexivity.
      + split; [exact Hg|]. split; [exact Hd|]. eexists.
        split; [reflexivity|]. rewrite Hg, Hdim. apply randn_shape.
    - rewrite Hw. exists s. split; [reflexivity|].
      split; [exact Hg|]. split; [exact Hd|]. now exists W. }
  destruct Hstart as [s1 [Hs1 Ht1]]. rewrite (bind_ok _ _ _ Hs1).
  assert (Hg1 : grid_sz s1 = (rows, cols)) by now destruct Ht1.
  assert (Hlrs : exists lrs,
            (match lr with
             | None => lift (Scheduler_init (Fin 1) (Fin (1 / 100)) 100
                               (Z.of_nat (length X)) (Z.of_nat n_epochs) exp_sched)
             | Some sc => ret sc
             end) s1 = (Ok lrs, s1) /\ sched_total lrs).
  { destruct lr as [sc|].
    - exists sc. split; [reflexivity | exact Hlr].
    - eexists. split; [reflexivity|].
      apply exp_sched_total with (a := 1%R);
        [discriminate | reflexivity | lra | reflexivity]. }
  destruct Hlrs as [lrs [Hlrs Hl]]. rewrite (bind_ok _ _ _ Hlrs).
  erewrite bind_ok by reflexivity.
  assert (Hsgs : exists sgs,
            (match sg with
             | None => lift (Scheduler_init
                               (Fin (INR (Nat.max (fst (grid_sz s1)) (snd (grid_sz s1))) / 2))
                               (Fin 1) 100
                               (Z.of_nat (length X)) (Z.of_nat n_epochs) exp_sched)
             | Some sc => ret sc
             end) s1 = (Ok sgs, s1) /\ sched_total sgs).
  { destruct sg as [sc|].
    - exists sc. split; [reflexivity | exact Hsg].
    - eexists. split; [reflexivity|].
      apply exp_sched_total
        with (a := (INR (Nat.max (fst (grid_sz s1)) (snd (grid_sz s1))) / 2)%R);
        [discriminate | reflexivity | | reflexivity].
      rewrite Hg1. cbn [fst snd].
      assert (0 < INR (Nat.max rows cols))%R by (apply lt_0_INR; nia).
      lra. }
  destruct Hsgs as [sgs [Hsgs Hs]]. rewrite (bind_ok _ _ _ Hsgs).
  destruct (@fit_epochs_total env rows cols dim X shuffle (seq 0 n_epochs)
              H3 Hne HX Hperm Hpart lrs sgs [] [] s1 Hl Hs Ht1)
    as [qe [te [s' [Hfit [Hlq [Hlt Ht']]]]]].
  rewrite (bind_ok _ _ _ Hfit). erewrite bind_ok by reflexivity.
  destruct Ht' as [_ [_ [W' [Hw' HW']]]].
  exists W', qe, te, s'. unfold ret. rewrite Hw'. cbn [fst snd].
  rewrite length_seq in Hlq, Hlt. cbn [length Nat.add] in Hlq, Hlt.
  split; [reflexivity|]. split; [reflexivity|]. split; [exact HW'|].
  split; assumption.
Qed.

Lemma sched_const_total (v : num) : sched_total (sched_const v).
Proof. split; [discriminate|]. intros i. now exists v. Qed.

(** Two epochs over two samples on the [1 x 3] map, with a constant
    learning rate 1/2 and a constant radius 1. *)
Lemma fit_total_witness :
  exists W' qe te s',
    fit env_plain [[Fin 0]; [Fin 4]] 2
        (Some (sched_const (Fin (1 / 2)))) (Some (sched_const (Fin 1)))
        true true som_line
      = (Ok (Some W', qe, te), s') /\
    has_shape W' 1 3 1 /\ length qe = 2 /\ length te = 2.
Proof.
  destruct (@fit_total env_plain som_line [[Fin 0]; [Fin 4]] 1 3 1 2
              (Some (sched_const (Fin (1 / 2)))) (Some (sched_const (Fin 1)))
              true true) as [W' [qe [te [s' [H1 [_ [H2 [H3 H4]]]]]]]].
  - reflexivity.
  - reflexivity.
  - cbn. lia.
  - right. eexists. split; [reflexivity | repeat constructor].
  - discriminate.
  - repeat constructor.
  - apply sched_const_total.
  - apply sched_const_total.
  - intros i v Hv. cbn in Hv. inversion Hv. subst v. exact square_no_overflow_1.
  - intros _ e. reflexivity.
  - intros a _. apply sorted_order_partitioned.
  - exists W', qe, te, s'. split; [exact H1|]. split; [exact H2|]. now split.
Defined.

(** X14: the degenerate runs of [fit] on a map that holds a grid.  With
    no epoch to run, [fit] returns the grid it found and two empty lists,
    whatever the data and the schedulers, and changes nothing.  With at
    least one epoch and the empty dataset it raises [ZeroDivisionError]
    (from [topographic_error], after [quantization_error] has returned NaN)
    and leaves the grid as it was. *)
Theorem fit_degenerate (env : Env) (s : SOM) (W : grid)
    (lr sg : option Scheduler) (shuffle verbose : bool) :
  weights s = Some W ->
  (forall X, fit env X 0 lr sg shuffle verbose s = (Ok (Some W, [], []), s)) /\
  (permutation env 0 [] = [] ->
   forall n, fit env [] (S n) lr sg shuffle verbose s = (Err ZeroDivisionError, s)).
Proof.
  intros Hw. split.
  - intros X. unfold fit.
    erewrite bind_ok by reflexivity. rewrite Hw.
    erewrite bind_ok by reflexivity.
    destruct lr as [lrs|], sg as [sgs|];
      (erewrite bind_ok by reflexivity;
       erewrite bind_ok by reflexivity;
       erewrite bind_ok by reflexivity);
      cbn [seq fit_epochs];
      (erewrite bind_ok by reflexivity);
      (erewrite bind_ok by reflexivity);
      unfold ret; now rewrite Hw.
  - intros Hperm n. unfold fit.
    erewrite bind_ok by reflexivity. rewrite Hw.
    erewrite bind_ok by reflexivity.
    destruct lr as [lrs|], sg as [sgs|];
      (erewrite bind_ok by reflexivity;
       erewrite bind_ok by reflexivity;
       erewrite bind_ok by reflexivity);
      apply bind_err; cbn [seq fit_epochs];
      replace (if shuffle then permutation env 0 [] else [])
        with (@nil (list num)) by (destruct shuffle; [now rewrite Hperm | reflexivity]);
      cbn [train_epoch];
      (erewrite bind_ok by reflexivity);
      rewrite (bind_ok _ _ _ (quantization_error_nil s));
      now rewrite (bind_err _ _ _ (topographic_error_nil env s)).
Qed.

Lemma fit_degenerate_witness :
  fit env_plain [[Fin 0]] 0 None None true true som_tie
    = (Ok (weights som_tie, [], []), som_tie) /\
  fit env_plain [] 3 None None true true som_tie
    = (Err ZeroDivisionError, som_tie).
Proof.
  destruct (@fit_degenerate env_plain som_tie
              [[[Fin 3]; [Fin 1]]; [[Fin 1]; [Fin 2]]] None None true true eq_refl)
    as [H0 H1].
  split; [apply H0 | apply H1; reflexivity].
Defined.

(* ================================================================== *)
(** * U-matrix: the loop over the neighbours *)
(* ================================================================== *)

Lemma nbr_weight_pos (dr dc : Z) :
  (0 < dr ^ 2 + dc ^ 2)%Z -> posfin (nbr_weight dr dc).
Proof.
  intros Hk. unfold nbr_weight, of_Z. apply IZR_lt in Hk.
  cbn [nsqrt]. rewrite Rleb_true by lra.
  pose proof (sqrt_lt_R0 _ Hk) as Hs. cbn [ndiv].
  rewrite Reqb_false by lra. eexists. split; [reflexivity|].
  apply Rdiv_lt_0_compat; lra.
Qed.

Lemma weights_at_ok (W : grid) (rows cols dim r c : nat) :
  has_shape W rows cols dim -> r < rows -> c < cols ->
  weights_at (Some W) r c = Returned (cell_at W r c).
Proof.
  intros HW Hr Hc. destruct (@shape2_nth _ _ _ _ _ r HW Hr) as [Hrow _].
  unfold weights_at, cell_at.
  rewrite (nth_error_nth' W []) by (destruct HW; lia).
  now rewrite (nth_error_nth' (nth r W []) []) by lia.
Qed.

Lemma in_grid_bounds (rows cols r c : nat) (dr dc : Z) :
  in_grid (rows, cols) (Z.of_nat r + dr) (Z.of_nat c + dc) = true ->
  Z.to_nat (Z.of_nat r + dr) < rows /\ Z.to_nat (Z.of_nat c + dc) < cols.
Proof.
  unfold in_grid. cbn [fst snd]. rewrite !andb_true_iff.
  intros [[[H1 H2] H3] H4].
  apply Z.leb_le in H1, H3. apply Z.ltb_lt in H2, H4. lia.
Qed.

(** On a well-shaped grid the loop over the offsets returns the two lists,
    of one length, extended by one entry per neighbour inside the grid. *)
Lemma neighbor_loop_ok (P : num -> Prop) (cell_dist : vec -> vec -> result num)
    (s : SOM) (W : grid) (dim r c : nat) (offsets : list (Z * Z)) :
  weights s = Some W ->
  has_shape W (fst (grid_sz s)) (snd (grid_sz s)) dim ->
  r < fst (grid_sz s) -> c < snd (grid_sz s) ->
  (forall r2 c2, r2 < fst (grid_sz s) -> c2 < snd (grid_sz s) ->
     exists d, cell_dist (cell_at W r c) (cell_at W r2 c2) = Ok d /\ P d) ->
  Forall (fun o => (0 < fst o ^ 2 + snd o ^ 2)%Z) offsets ->
  forall distances weights_,
  exists ds ws,
    neighbor_loop cell_dist s r c offsets distances weights_
      = Returned (distances ++ ds, weights_ ++ ws) /\
    Forall P ds /\ Forall posfin ws /\ length ds = length ws /\
    (forall o, In o offsets ->
       in_grid (grid_sz s) (Z.of_nat r + fst o) (Z.of_nat c + snd o) = true ->
       ws <> []).
Proof.
  intros Hw HW Hr Hc Hdist Hoff.
  induction Hoff as [|[dr dc] offsets Ho _ IH]; intros distances weights_.
  - exists [], []. rewrite !app_nil_r. cbn.
    repeat split; try constructor. intros o [].
  - cbn [neighbor_loop]. cbn [fst snd] in Ho.
    destruct (in_grid (grid_sz s) (Z.of_nat r + dr) (Z.of_nat c + dc)) eqn:E.
    + assert (Hb := E). rewrite (surjective_pairing (grid_sz s)) in Hb.
      apply in_grid_bounds in Hb. destruct Hb as [Hr2 Hc2].
      rewrite Hw, (weights_at_ok HW Hr Hc), (weights_at_ok HW Hr2 Hc2).
      cbn [obind].
      destruct (Hdist _ _ Hr2 Hc2) as [d [Hd HP]]. rewrite Hd. cbn [of_result obind].
      destruct (IH (distances ++ [d]) (weights_ ++ [nbr_weight dr dc]))
        as [ds [ws [Hloop [Hds [Hws [Hlen _]]]]]].
      exists (d :: ds), (nbr_weight dr dc :: ws).
      rewrite Hloop, <- !app_assoc. cbn [app].
      split; [reflexivity|]. split; [now constructor|].
      split; [constructor; [now apply nbr_weight_pos | exact Hws]|].
      split; [cbn; now rewrite Hlen|]. intros; discriminate.
    + destruct (IH distances weights_) as [ds [ws [Hloop [Hds [Hws [Hlen Hne]]]]]].
      exists ds, ws. split; [exact Hloop|]. split; [exact Hds|].
      split; [exact Hws|]. split; [exact Hlen|].
      intros o [<- | Hin] Ho'; [cbn [fst snd] in Ho'; congruence|].
      now apply (Hne o).
Qed.

Lemma nbr_offsets_nonzero :
  Forall (fun o => (0 < fst o ^ 2 + snd o ^ 2)%Z) nbr_offsets.
Proof. unfold nbr_offsets. repeat constructor. Qed.

(** A cell of a grid of two cells or more has a neighbour in the grid. *)
Lemma has_neighbor (rows cols r c : nat) :
  2 <= rows * cols -> r < rows -> c < cols ->
  exists o, In o nbr_offsets /\
            in_grid (rows, cols) (Z.of_nat r + fst o) (Z.of_nat c + snd o) = true.
Proof.
  intros H2 Hr Hc.
  assert (Hin : forall dr dc,
            (0 <= Z.of_nat r + dr < Z.of_nat rows)%Z ->
            (0 <= Z.of_nat c + dc < Z.of_nat cols)%Z ->
            in_grid (rows, cols) (Z.of_nat r + dr) (Z.of_nat c + dc) = true).
  { intros dr dc [H1 H1'] [H3 H3']. unfold in_grid. cbn [fst snd].
    rewrite !andb_true_iff. repeat split;
      (apply Z.leb_le || apply Z.ltb_lt); assumption. }
  destruct (Nat.le_gt_cases 2 rows) as [Hrows | Hrows].
  - destruct (Nat.lt_ge_cases (S r) rows) as [Hn | Hn].
    + exists (1, 0)%Z. split; [cbn; tauto|]. apply Hin; cbn [fst snd]; lia.
    + exists (-1, 0)%Z. split; [cbn; tauto|]. apply Hin; cbn [fst snd]; lia.
  - assert (2 <= cols) by nia.
    destruct (Nat.lt_ge_cases (S c) cols) as [Hn | Hn].
    + exists (0, 1)%Z. split; [cbn; tauto|]. apply Hin; cbn [fst snd]; lia.
    + exists (0, -1)%Z. split; [cbn; tauto|]. apply Hin; cbn [fst snd]; lia.
Qed.

Lemma omap_Forall {A B} (Q : B -> Prop) (f : A -> outcome B) (l : list A) :
  (forall a, In a l -> exists b, f a = Returned b /\ Q b) ->
  exists bs, omap f l = Returned bs /\ length bs = length l /\ Forall Q bs.
Proof.
  induction l as [|a l IH]; intros H.
  - exists []. repeat split. constructor.
  - destruct (H a (or_introl eq_refl)) as [b [Hb HQ]].
    destruct IH as [bs [Hbs [Hlen Hall]]]; [intros; apply H; now right|].
    exists (b :: bs). cbn [omap]. rewrite Hb. cbn [obind]. rewrite Hbs.
    cbn. repeat split; [now rewrite Hlen | now constructor].
Qed.

(** The U-matrix of a well-shaped grid of two cells or more, for a
    distance [cell_dist] that returns a value satisfying [P] on every pair
    of reference vectors, when the average of such values satisfies [Q]. *)
Lemma umatrix_generic (P Q : num -> Prop) (cell_dist : vec -> vec -> result num)
    (s : SOM) (W : grid) (dim : nat) :
  weights s = Some W ->
  has_shape W (fst (grid_sz s)) (snd (grid_sz s)) dim ->
  2 <= fst (grid_sz s) * snd (grid_sz s) ->
  (forall r c r2 c2,
     r < fst (grid_sz s) -> c < snd (grid_sz s) ->
     r2 < fst (grid_sz s) -> c2 < snd (grid_sz s) ->
     exists d, cell_dist (cell_at W r c) (cell_at W r2 c2) = Ok d /\ P d) ->
  (forall ds ws, ws <> [] -> Forall posfin ws -> length ds = length ws ->
     Forall P ds -> exists u, np_average ds ws = Returned u /\ Q u) ->
  exists U, umatrix cell_dist s = Returned U /\
            shape2 Q U (fst (grid_sz s)) (snd (grid_sz s)).
Proof.
  intros Hw HW H2 Hdist Havg. unfold umatrix, _calculate_umatrix.
  destruct (@omap_Forall _ _
              (fun row => length row = snd (grid_sz s) /\ Forall Q row)
              (fun i => omap (fun j => _neighbor_distances cell_dist s (i, j))
                             (seq 0 (snd (grid_sz s))))
              (seq 0 (fst (grid_sz s)))) as [U [HU [Hlen Hall]]].
  - intros i Hi. apply in_seq in Hi.
    destruct (@omap_Forall _ _ Q
                (fun j => _neighbor_distances cell_dist s (i, j))
                (seq 0 (snd (grid_sz s)))) as [row [Hrow [Hl Hq]]].
    + intros j Hj. apply in_seq in Hj.
      unfold _neighbor_distances. cbn [fst snd].
      destruct (@neighbor_loop_ok P cell_dist s W dim i j nbr_offsets Hw HW
                  ltac:(lia) ltac:(lia)
                  (fun r2 c2 => Hdist i j r2 c2 ltac:(lia) ltac:(lia))
                  nbr_offsets_nonzero [] [])
        as [ds [ws [Hloop [Hds [Hws [Hlen Hne]]]]]].
      rewrite Hloop. cbn [obind app fst snd].
      apply Havg; try assumption.
      destruct (@has_neighbor (fst (grid_sz s)) (snd (grid_sz s)) i j H2
                  ltac:(lia) ltac:(lia)) as [o [Ho Hg]].
      apply (Hne o Ho). now rewrite (surjective_pairing (grid_sz s)).
    + exists row. split; [exact Hrow|]. split; [|exact Hq].
      now rewrite Hl, length_seq.
  - exists U. split; [exact HU|]. split; [|exact Hall].
    now rewrite Hlen, length_seq.
Qed.

(* ================================================================== *)
(** * U-matrix: the weighted average *)
(* ================================================================== *)

Lemma finite_list (l : list num) :
  Forall finite l -> exists rs, l = map Fin rs.
Proof.
  induction 1 as [|a l [r ->] _ [rs ->]]; [now exists []|].
  now exists (r :: rs).
Qed.

Lemma posfin_list (l : list num) :
  Forall posfin l -> exists rs, l = map Fin rs /\ Forall (fun v => (0 < v)%R) rs.
Proof.
  induction 1 as [|a l [r [-> Hr]] _ [rs [-> Hrs]]].
  - exists []. split; [reflexivity | constructor].
  - exists (r :: rs). split; [reflexivity | now constructor].
Qed.

Lemma nonnegfin_list (l : list num) :
  Forall nonnegfin l ->
  exists rs, l = map Fin rs /\ Forall (fun v => (0 <= v)%R) rs.
Proof.
  induction 1 as [|a l [r [-> Hr]] _ [rs [-> Hrs]]].
  - exists []. split; [reflexivity | constructor].
  - exists (r :: rs). split; [reflexivity | now constructor].
Qed.

Lemma fold_nadd_Fin (rs : list R) (z : R) :
  fold_left nadd (map Fin rs) (Fin z) = Fin (fold_left Rplus rs z).
Proof. revert z. induction rs as [|r rs IH]; intros z; cbn; [reflexivity | apply IH]. Qed.

Lemma zipw_nmul_Fin (a b : list R) :
  zipw nmul (map Fin a) (map Fin b) = map Fin (zipw Rmult a b).
Proof.
  revert b. induction a as [|x a IH]; intros [|y b]; try reflexivity.
  unfold zipw in *. cbn. now rewrite IH.
Qed.

Lemma fold_Rplus_ge (rs : list R) (z : R) :
  Forall (fun v => (0 <= v)%R) rs -> (z <= fold_left Rplus rs z)%R.
Proof.
  intros H. revert z. induction H as [|r rs Hr _ IH]; intros z; cbn; [lra|].
  specialize (IH (z + r)%R). lra.
Qed.

Lemma fold_Rplus_pos (rs : list R) :
  rs <> [] -> Forall (fun v => (0 < v)%R) rs -> (0 < fold_left Rplus rs 0)%R.
Proof.
  intros Hne H. destruct H as [|r rs Hr Hrs]; [congruence|]. cbn.
  assert (Hge : Forall (fun v => (0 <= v)%R) rs)
    by (eapply Forall_impl; [|exact Hrs]; cbn; intros; lra).
  pose proof (fold_Rplus_ge (0 + r) Hge). lra.
Qed.

Lemma zipw_Rmult_nonneg (ds ws : list R) :
  Forall (fun v => (0 <= v)%R) ds -> Forall (fun v => (0 < v)%R) ws ->
  Forall (fun v => (0 <= v)%R) (zipw Rmult ds ws).
Proof.
  intros Hd Hw. eapply Forall_zipw; [exact Hd | exact Hw |].
  cbn. intros a b Ha Hb. nra.
Qed.

Lemma fold_Rplus_zero (rs : list R) :
  Forall (fun v => v = 0%R) rs -> fold_left Rplus rs 0%R = 0%R.
Proof.
  intros H. assert (G : forall z, fold_left Rplus rs z = z).
  { induction H as [|r rs -> _ IH]; intros z; cbn; [reflexivity|].
    rewrite IH. lra. }
  apply G.
Qed.

(** The weighted average of finite numbers with positive weights. *)
Lemma np_average_Fin (dr wr : list R) :
  wr <> [] -> Forall (fun v => (0 < v)%R) wr ->
  np_average (map Fin dr) (map Fin wr)
    = Returned (Fin (fold_left Rplus (zipw Rmult dr wr) 0%R / fold_left Rplus wr 0%R)).
Proof.
  intros Hne Hpos. pose proof (fold_Rplus_pos Hne Hpos) as Hq.
  unfold np_average, nsum. rewrite zipw_nmul_Fin, !fold_nadd_Fin.
  rewrite Reqb_false by lra. cbn [ndiv]. now rewrite Reqb_false by lra.
Qed.

Lemma np_average_returns (ds ws : list num) :
  ws <> [] -> Forall posfin ws -> exists u, np_average ds ws = Returned u.
Proof.
  intros Hne Hpos. destruct (posfin_list Hpos) as [wr [-> Hwr]].
  assert (Hne' : wr <> []) by (intros ->; now apply Hne).
  pose proof (fold_Rplus_pos Hne' Hwr) as Hq.
  unfold np_average, nsum at 1. rewrite fold_nadd_Fin.
  rewrite Reqb_false by lra. eexists. reflexivity.
Qed.

Lemma np_average_nonneg (ds ws : list num) :
  ws <> [] -> Forall posfin ws -> Forall nonnegfin ds ->
  exists u, np_average ds ws = Returned u /\ nonnegfin u.
Proof.
  intros Hne Hpos Hds. destruct (posfin_list Hpos) as [wr [-> Hwr]].
  destruct (nonnegfin_list Hds) as [dr [-> Hdr]].
  assert (Hne' : wr <> []) by (intros ->; now apply Hne).
  rewrite np_average_Fin by assumption.
  eexists. split; [reflexivity|]. eexists. split; [reflexivity|].
  pose proof (fold_Rplus_pos Hne' Hwr) as Hq.
  pose proof (fold_Rplus_ge 0 (zipw_Rmult_nonneg Hdr Hwr)) as Hp.
  apply Rmult_le_pos; [exact Hp|]. left. now apply Rinv_0_lt_compat.
Qed.

Lemma np_average_zero (ds ws : list num) :
  ws <> [] -> Forall posfin ws -> Forall (fun d => d = Fin 0) ds ->
  np_average ds ws = Returned (Fin 0).
Proof.
  intros Hne Hpos Hds. destruct (posfin_list Hpos) as [wr [-> Hwr]].
  assert (Hdr : ds = map Fin (map (fun _ => 0%R) ds)).
  { induction Hds as [|d ds -> _ IH]; [reflexivity|]. cbn. now rewrite <- IH. }
  assert (Hne' : wr <> []) by (intros ->; now apply Hne).
  rewrite Hdr, np_average_Fin by assumption. do 2 f_equal.
  rewrite fold_Rplus_zero; [unfold Rdiv; apply Rmult_0_l|].
  eapply Forall_zipw with (P := fun v => v = 0%R) (Q := fun _ => True).
  - apply Forall_map, Forall_forall. reflexivity.
  - apply Forall_forall. intros; exact I.
  - cbn. intros a b -> _. apply Rmult_0_l.
Qed.

Lemma norm_nonnegfin (v : vec) : Forall finite v -> nonnegfin (norm v).
Proof.
  intros H. destruct (finite_list H) as [rs ->].
  unfold norm, nsum. rewrite map_map.
  rewrite <- (map_map (fun r => (r * r)%R) Fin), fold_nadd_Fin.
  assert (Hs : (0 <= fold_left Rplus (map (fun r => (r * r)%R) rs) 0)%R).
  { apply fold_Rplus_ge. apply Forall_map, Forall_forall. intros r _. nra. }
  cbn [nsqrt]. rewrite Rleb_true by exact Hs.
  eexists. split; [reflexivity|]. now apply sqrt_pos.
Qed.

Lemma zipw_nsub_finite (a b : vec) :
  Forall finite a -> Forall finite b -> Forall finite (zipw nsub a b).
Proof.
  intros Ha Hb. eapply Forall_zipw; [exact Ha | exact Hb |].
  cbn. intros x y [r ->] [t ->]. eexists. reflexivity.
Qed.

Lemma norm_self (w : vec) : Forall finite w -> norm (zipw nsub w w) = Fin 0.
Proof.
  intros H. destruct (finite_list H) as [rs ->].
  assert (Hz : zipw nsub (map Fin rs) (map Fin rs)
               = map Fin (map (fun r => (r + - r)%R) rs)).
  { clear H. induction rs as [|r rs IH]; [reflexivity|].
    unfold zipw in *. cbn. now rewrite IH. }
  rewrite Hz. unfold norm, nsum. rewrite !map_map.
  rewrite <- (map_map (fun r => ((r + - r) * (r + - r))%R) Fin), fold_nadd_Fin.
  rewrite fold_Rplus_zero
    by (apply Forall_map, Forall_forall; intros r _; ring).
  cbn [nsqrt]. rewrite Rleb_true by lra. now rewrite sqrt_0.
Qed.

Lemma dist_fn_vec_value (a b : vec) :
  length a = length b -> dist_fn_vec a b = Ok (norm (zipw nsub b a)).
Proof.
  intros H. unfold dist_fn_vec. now rewrite vsub_same_length by congruence.
Qed.

Lemma finite_cell (W : grid) (rows cols dim r c : nat) :
  has_shape W rows cols dim -> finite_grid W -> r < rows -> c < cols ->
  Forall finite (cell_at W r c).
Proof.
  intros HW HF Hr Hc. unfold cell_at.
  destruct (@shape2_nth _ _ _ _ _ r HW Hr) as [Hrow _].
  unfold finite_grid in HF. rewrite Forall_forall in HF.
  assert (H1 : Forall (Forall finite) (nth r W []))
    by (apply HF, nth_In; destruct HW; lia).
  rewrite Forall_forall in H1. apply H1, nth_In. lia.
Qed.

Lemma cell_length (W : grid) (rows cols dim r c : nat) :
  has_shape W rows cols dim -> r < rows -> c < cols ->
  length (cell_at W r c) = dim.
Proof.
  intros HW Hr Hc. destruct (@shape2_nth _ _ _ _ _ r HW Hr) as [_ Hcell].
  exact (Hcell c [] Hc).
Qed.

(* ================================================================== *)
(** * U-matrix: properties *)
(* ================================================================== *)

Lemma dist_fn_vec_cells (W : grid) (rows cols dim r c r2 c2 : nat) :
  has_shape W rows cols dim ->
  r < rows -> c < cols -> r2 < rows -> c2 < cols ->
  dist_fn_vec (cell_at W r c) (cell_at W r2 c2)
    = Ok (norm (zipw nsub (cell_at W r2 c2) (cell_at W r c))).
Proof.
  intros HW Hr Hc Hr2 Hc2. apply dist_fn_vec_value.
  now rewrite (cell_length HW Hr Hc), (cell_length HW Hr2 Hc2).
Qed.

Lemma nonnegfin_nleb (u : num) : nonnegfin u -> nleb (Fin 0) u = true.
Proof. intros [v [-> Hv]]. cbn. now apply Rleb_true. Qed.

Lemma shape2_impl {A} (P Q : A -> Prop) (l : list (list A)) (rows cols : nat) :
  (forall a, P a -> Q a) -> shape2 P l rows cols -> shape2 Q l rows cols.
Proof.
  intros HPQ [Hlen Hrows]. split; [exact Hlen|].
  apply (Forall_impl _ (P := fun row => length row = cols /\ Forall P row));
    [|exact Hrows].
  intros row [Hc HP]. split; [exact Hc|]. now apply (Forall_impl _ HPQ).
Qed.

(** X15: on a map that holds a grid of shape [(rows, cols, dim)] with two
    cells or more, [umatrix] (with the default distance function) raises
    nothing and returns an array of shape [(rows, cols)]; when the grid
    holds finite numbers only, no entry of the U-matrix is NaN and none is
    negative. *)
Theorem umatrix_values (s : SOM) (W : grid) (dim : nat) :
  weights s = Some W ->
  has_shape W (fst (grid_sz s)) (snd (grid_sz s)) dim ->
  2 <= fst (grid_sz s) * snd (grid_sz s) ->
  exists U,
    umatrix dist_fn_vec s = Returned U /\
    shape2 (fun _ => True) U (fst (grid_sz s)) (snd (grid_sz s)) /\
    (finite_grid W ->
     shape2 (fun u => nleb (Fin 0) u = true) U
            (fst (grid_sz s)) (snd (grid_sz s))).
Proof.
  intros Hw HW H2.
  destruct (@umatrix_generic (fun _ => True) (fun _ => True) dist_fn_vec s W dim
              Hw HW H2) as [U [HU Hshape]].
  - intros r c r2 c2 Hr Hc Hr2 Hc2. eexists.
    split; [now apply (dist_fn_vec_cells HW) | exact I].
  - intros ds ws Hne Hpos _ _.
    destruct (np_average_returns ds Hne Hpos) as [u Hu]. now exists u.
  - exists U. split; [exact HU|]. split; [exact Hshape|]. intros HF.
    destruct (@umatrix_generic nonnegfin nonnegfin dist_fn_vec s W dim
                Hw HW H2) as [U' [HU' Hshape']].
    + intros r c r2 c2 Hr Hc Hr2 Hc2. eexists.
      split; [now apply (dist_fn_vec_cells HW)|].
      apply norm_nonnegfin, zipw_nsub_finite; now apply (finite_cell HW HF).
    + intros ds ws Hne Hpos _ Hds. now apply np_average_nonneg.
    + rewrite HU in HU'. inversion HU'. subst U'.
      exact (@shape2_impl _ nonnegfin (fun u => nleb (Fin 0) u = true) U _ _
               nonnegfin_nleb Hshape').
Qed.

Lemma umatrix_values_witness :
  exists U, umatrix dist_fn_vec som_tie = Returned U /\
            shape2 (fun u => nleb (Fin 0) u = true) U 2 2.
Proof.
  destruct (@umatrix_values som_tie [[[Fin 3]; [Fin 1]]; [[Fin 1]; [Fin 2]]] 1)
    as [U [HU [_ Hfin]]].
  - reflexivity.
  - repeat constructor.
  - cbn. lia.
  - exists U. split; [exact HU|]. apply Hfin.
    repeat constructor; eexists; reflexivity.
Defined.

(** X16: the U-matrix of a flat map is flat: when all the reference
    vectors of a grid of two cells or more are one finite vector, every
    entry of the U-matrix is 0. *)
Theorem umatrix_flat_map (s : SOM) (W : grid) (dim : nat) (w : vec) :
  weights s = Some W ->
  has_shape W (fst (grid_sz s)) (snd (grid_sz s)) dim ->
  2 <= fst (grid_sz s) * snd (grid_sz s) ->
  Forall finite w ->
  (forall r c, r < fst (grid_sz s) -> c < snd (grid_sz s) -> cell_at W r c = w) ->
  exists U,
    umatrix dist_fn_vec s = Returned U /\
    shape2 (fun u => u = Fin 0) U (fst (grid_sz s)) (snd (grid_sz s)).
Proof.
  intros Hw HW H2 Hfin Hflat.
  apply (@umatrix_generic (fun d => d = Fin 0) (fun u => u = Fin 0)
           dist_fn_vec s W dim Hw HW H2).
  - intros r c r2 c2 Hr Hc Hr2 Hc2. eexists.
    split; [now apply (dist_fn_vec_cells HW)|].
    rewrite !Hflat by assumption. now apply norm_self.
  - intros ds ws Hne Hpos _ Hds. exists (Fin 0).
    split; [now apply np_average_zero | reflexivity].
Qed.

Lemma umatrix_flat_map_witness :
  exists U, umatrix dist_fn_vec som_flat = Returned U /\
            shape2 (fun u => u = Fin 0) U 1 2.
Proof.
  apply (@umatrix_flat_map som_flat [[[Fin 1]; [Fin 1]]] 1 [Fin 1]).
  - reflexivity.
  - repeat constructor.
  - cbn. lia.
  - repeat constructor. eexists; reflexivity.
  - intros r c Hr Hc. cbn in Hr, Hc.
    destruct r as [|r]; [|lia]. destruct c as [|[|c]]; [reflexivity | reflexivity | lia].
Defined.

Lemma neighbor_loop_no_grid (cell_dist : vec -> vec -> result num) (s : SOM)
    (r c : nat) (offsets : list (Z * Z)) :
  weights s = None ->
  (exists o, In o offsets /\
     in_grid (grid_sz s) (Z.of_nat r + fst o) (Z.of_nat c + snd o) = true) ->
  forall distances weights_,
  neighbor_loop cell_dist s r c offsets distances weights_
    = Raised (Builtin TypeError).
Proof.
  intros Hw. induction offsets as [|[dr dc] offsets IH];
    intros [o [Hin Hg]] distances weights_; [contradiction|].
  cbn [neighbor_loop].
  destruct (in_grid (grid_sz s) (Z.of_nat r + dr) (Z.of_nat c + dc)) eqn:E.
  - now rewrite Hw.
  - apply IH. exists o. split; [|exact Hg].
    destruct Hin as [<- | Hin]; [cbn [fst snd] in Hg; congruence | exact Hin].
Qed.

(** X17: the exceptions of [umatrix].  On a map of grid size [(1,1)] the
    single cell has no neighbour, the weights of the average sum to zero and
    [umatrix] raises [ZeroDivisionError], whatever the map holds.  On a map
    of two cells or more that holds no grid yet, [umatrix] raises
    [TypeError]. *)
Theorem umatrix_raises (cell_dist : vec -> vec -> result num) (s : SOM) :
  (grid_sz s = (1, 1) ->
   umatrix cell_dist s = Raised (Builtin ZeroDivisionError)) /\
  (weights s = None -> 2 <= fst (grid_sz s) * snd (grid_sz s) ->
   umatrix cell_dist s = Raised (Builtin TypeError)).
Proof.
  split.
  - intros Hg. unfold umatrix, _calculate_umatrix, _neighbor_distances.
    rewrite Hg. cbn [fst snd seq omap].
    assert (Hloop : neighbor_loop cell_dist s 0 0 nbr_offsets [] []
                    = Returned ([], [])).
    { unfold nbr_offsets. cbn [neighbor_loop]. rewrite Hg. reflexivity. }
    rewrite Hloop. cbn [obind fst snd]. unfold np_average, nsum.
    cbn [fold_left]. now rewrite Reqb_true.
  - intros Hw H2. unfold umatrix, _calculate_umatrix, _neighbor_distances.
    destruct (fst (grid_sz s)) as [|rows] eqn:Er; [lia|].
    destruct (snd (grid_sz s)) as [|cols] eqn:Ec; [lia|].
    cbn [seq omap fst snd].
    rewrite (@neighbor_loop_no_grid cell_dist s 0 0 nbr_offsets Hw);
      [reflexivity|].
    destruct (@has_neighbor (S rows) (S cols) 0 0 H2 ltac:(lia) ltac:(lia))
      as [o [Ho Hg]].
    exists o. split; [exact Ho|].
    now rewrite (surjective_pairing (grid_sz s)), Er, Ec.
Qed.

Lemma umatrix_raises_witness :
  umatrix dist_fn_vec som_unit = Raised (Builtin ZeroDivisionError) /\
  umatrix dist_fn_vec (SOM_init (2, 2) 1 "random" dist_fn)
    = Raised (Builtin TypeError).
Proof.
  split.
  - apply (proj1 (umatrix_raises dist_fn_vec som_unit)). reflexivity.
  - apply (proj2 (umatrix_raises dist_fn_vec (SOM_init (2, 2) 1 "random" dist_fn))).
    + reflexivity.
    + cbn. lia.
Defined.

(* ================================================================== *)
(** * Topographic error of a map without distant cells *)
(* ================================================================== *)

Lemma far_apart_small (rows cols i1 i2 : nat) :
  rows <= 2 -> cols <= 2 -> i1 < rows * cols -> i2 < rows * cols ->
  far_apart cols i1 i2 = false.
Proof.
  intros Hr Hc H1 H2.
  assert (Hcases : cols = 0 \/ cols = 1 \/ cols = 2) by lia.
  assert (Hi1 : i1 < 4) by nia. assert (Hi2 : i2 < 4) by nia.
  assert (Hb1 : cols = 1 -> i1 < 2) by nia.
  assert (Hb2 : cols = 1 -> i2 < 2) by nia.
  destruct Hcases as [-> | [-> | ->]]; [lia | |].
  - specialize (Hb1 eq_refl). specialize (Hb2 eq_refl).
    destruct i1 as [|[|i1]]; [| |lia];
      (destruct i2 as [|[|i2]]; [reflexivity | reflexivity | lia]).
  - destruct i1 as [|[|[|[|i1]]]]; [| | | |lia];
      (destruct i2 as [|[|[|[|i2]]]];
         [reflexivity | reflexivity | reflexivity | reflexivity | lia]).
Qed.

Lemma Forall2_Forall_right {A B} (P : A -> B -> Prop) (Q : B -> Prop)
    (l : list A) (l' : list B) :
  Forall2 P l l' ->
  (forall a b, In a l -> P a b -> Q b) ->
  Forall Q l'.
Proof.
  induction 1 as [|a b l l' Hab _ IH]; intros HQ; constructor.
  - apply (HQ a b); [now left | exact Hab].
  - apply IH. intros a' b' Hin. apply HQ. now right.
Qed.

Lemma count_occ_all_false (flags : list bool) :
  Forall (fun flag => flag = false) flags ->
  count_occ bool_dec flags true = 0.
Proof.
  induction 1 as [|flag flags Hf _ IH]; [reflexivity|].
  subst flag. cbn. exact IH.
Qed.

(** X18: on a map of at most two rows and two columns (and three cells or
    more: the [2 x 2] map), whatever its reference vectors, the two cells
    closest to a sample are never more than one row or one column apart:
    [topographic_error] returns 0 for every non-empty dataset of the map's
    dimension. *)
Theorem topographic_error_small_map (env : Env) (rows cols dim : nat) (s : SOM)
    (X : list vec) :
  trained rows cols dim s -> rows <= 2 -> cols <= 2 -> 3 <= rows * cols ->
  X <> [] -> Forall (fun x => length x = dim) X ->
  (forall a, 2 < length a -> partitioned a 2 (argpartition_order env a 2)) ->
  topographic_error env X s = (Ok (Fin 0), s).
Proof.
  intros Ht Hr Hc H3 Hne HX Hpart. rewrite Forall_forall in HX.
  assert (Hg : grid_sz s = (rows, cols)) by now destruct Ht.
  destruct (@check_all_samples env s X) as [flags [Hflags Hall]].
  - now rewrite Hg.
  - intros x Hx. destruct (trained_dist_ok x Ht (HX x Hx)) as [D [HD Hlen]].
    exists D. split; [exact HD|]. split; [exact Hlen|].
    apply Hpart. rewrite Hlen, Hg. cbn [fst snd]. lia.
  - rewrite (topographic_error_eq env s X Hflags).
    assert (Hfalse : Forall (fun flag => flag = false) flags).
    { apply (@Forall2_Forall_right _ _ _ _ X flags Hall). intros x flag Hx Hxf.
      destruct Hxf as [D [i1 [i2 [HD [[_ [H1 [H2 _]]] ->]]]]].
      destruct (trained_dist_ok x Ht (HX x Hx)) as [D' [HD' Hlen]].
      rewrite HD in HD'. inversion HD'. subst D'.
      rewrite Hlen, Hg in H1, H2. rewrite Hg. cbn [fst snd] in *.
      now apply (@far_apart_small rows cols). }
    rewrite (count_occ_all_false Hfalse), Nat.mul_0_r.
    rewrite py_div_nat by (destruct X; [congruence | cbn; lia]).
    cbn [INR]. unfold Rdiv. now rewrite Rmult_0_l.
Qed.

Lemma topographic_error_small_map_witness :
  topographic_error env_plain [[Fin 0; Fin 0]; [Fin 1; Fin 1]] som_square
    = (Ok (Fin 0), som_square).
Proof.
  apply (@topographic_error_small_map env_plain 2 2 2).
  - split; [reflexivity|]. split; [reflexivity|].
    eexists. split; [reflexivity|]. repeat constructor.
  - lia.
  - lia.
  - cbn. lia.
  - discriminate.
  - repeat constructor.
  - intros a _. apply sorted_order_partitioned.
Defined.
